(** * Release-log review tool: shallow embedding and verification

    Embedding of [utils/git_log_review_commits_advanced.py]: the commit
    message transformer ([gen_commit_summary], [gen_commit_message_pretty],
    [gen_commit_pretty], [gen_commit_unprettify]), the release-log parser
    ([release_log_init]) and the mutation-plus-serializer
    ([write_release_log]).

    Conventions of the embedding.
    - A Python [str] is a [list ascii]; every character is a code point
      below 256 (the Latin-1 range), and the character classes of the [re]
      module ([\s], [\W], [.], case folding) are tabulated for that range.
    - A Python [int] is a [Z].
    - A [dict] is a [gmap]; the release log, which Python keeps in one
      dictionary with three reserved keys, is a record.
    - An exception is a value of [pyexn] carried by [result]. *)

From stdpp Require Import gmap strings list.
From Stdlib Require Import Ascii ZArith Lia Bool DecimalString.

Open Scope Z_scope.
Open Scope list_scope.

(** ** Python strings *)

Module PyStr.

Definition pystr := list ascii.

(** A string literal of the source. *)
Definition str (s : string) : pystr := String.list_ascii_of_string s.

Definition code (c : ascii) : N := N_of_ascii c.

Definition in_range (lo hi : N) (c : ascii) : bool :=
  ((lo <=? code c) && (code c <=? hi))%N.

Definition mem (c : ascii) (cs : pystr) : bool := existsb (Ascii.eqb c) cs.

(** [len(s)] *)
Definition len (s : pystr) : Z := Z.of_nat (List.length s).

(** [s.startswith(p)] *)
Fixpoint startswith (s p : pystr) {struct p} : bool :=
  match p, s with
  | [], _ => true
  | a :: p', b :: s' => Ascii.eqb a b && startswith s' p'
  | _ :: _, [] => false
  end.

(** [s.find(p)], counting from offset [i]: lowest index, or -1. *)
Fixpoint find_from (s p : pystr) (i : Z) : Z :=
  if startswith s p then i
  else match s with
       | [] => -1
       | _ :: s' => find_from s' p (i + 1)
       end.

Definition find (s p : pystr) : Z := find_from s p 0.

(** [s.rfind(p)], counting from offset [i]: highest index, or -1. *)
Fixpoint rfind_from (s p : pystr) (i : Z) : Z :=
  match s with
  | [] => if startswith s p then i else -1
  | _ :: s' =>
      let r := rfind_from s' p (i + 1) in
      if 0 <=? r then r else if startswith s p then i else -1
  end.

Definition rfind (s p : pystr) : Z := rfind_from s p 0.

(** [p in s] *)
Fixpoint contains (s p : pystr) : bool :=
  startswith s p ||
  match s with
  | [] => false
  | _ :: s' => contains s' p
  end.

(** Slice bounds as Python normalises them: a negative bound counts from
    the end, and every bound is clipped to the string. *)
Definition slice_bound (s : pystr) (n : Z) : nat :=
  Z.to_nat (if n <? 0 then Z.max 0 (len s + n) else n).

(** [s[n:]] *)
Definition slice_from (s : pystr) (n : Z) : pystr := drop (slice_bound s n) s.

(** [s[:n]] *)
Definition slice_to (s : pystr) (n : Z) : pystr := take (slice_bound s n) s.

(** [s[a:b]] *)
Definition slice (s : pystr) (a b : Z) : pystr :=
  drop (slice_bound s a) (take (slice_bound s b) s).

(** [s.lstrip(cs)], [s.rstrip(cs)], [s.strip(cs)] *)
Fixpoint lstrip (s cs : pystr) : pystr :=
  match s with
  | [] => []
  | c :: s' => if mem c cs then lstrip s' cs else s
  end.

Definition rstrip (s cs : pystr) : pystr := rev (lstrip (rev s) cs).

Definition strip (s cs : pystr) : pystr := rstrip (lstrip s cs) cs.

(** [s.split(sep)[0]] for a non-empty separator: the text before the
    first occurrence of [sep], or all of [s]. *)
Fixpoint split_head (s sep : pystr) : pystr :=
  if startswith s sep then []
  else match s with
       | [] => []
       | c :: s' => c :: split_head s' sep
       end.

(** [s.replace(a, b)] for one-character [a] and [b]. *)
Definition replace_char (s : pystr) (a b : ascii) : pystr :=
  map (fun c => if Ascii.eqb c a then b else c) s.

(** [sep.join(l)] *)
Fixpoint join (sep : pystr) (l : list pystr) : pystr :=
  match l with
  | [] => []
  | [x] => x
  | x :: l' => x ++ sep ++ join sep l'
  end.

(** [s == t] *)
Definition eqb (s t : pystr) : bool := bool_decide (s = t).

(** [str(n)] and [%d] for an integer. *)
Definition str_of_Z (n : Z) : pystr :=
  str (NilZero.string_of_int (Z.to_int n)).

(** Character classes of the [re] module on code points below 256. *)
Definition newline : ascii := ascii_of_N 10.

Definition is_digit (c : ascii) : bool := in_range 48 57 c.

Definition is_hex (c : ascii) : bool :=
  is_digit c || in_range 97 102 c || in_range 65 70 c.

(** [\s] and [str.isspace] *)
Definition is_space (c : ascii) : bool :=
  in_range 9 13 c || in_range 28 32 c
  || (code c =? 133)%N || (code c =? 160)%N.

(** [\w] *)
Definition is_word (c : ascii) : bool :=
  is_digit c || in_range 65 90 c || in_range 97 122 c || (code c =? 95)%N
  || (code c =? 170)%N || (code c =? 178)%N || (code c =? 179)%N
  || (code c =? 181)%N || (code c =? 185)%N || (code c =? 186)%N
  || in_range 188 190 c || in_range 192 214 c || in_range 216 246 c
  || in_range 248 255 c.

(** Case folding of the ASCII letters, for [re.IGNORECASE] on a literal. *)
Definition lower (c : ascii) : ascii :=
  if in_range 65 90 c then ascii_of_N (code c + 32) else c.

Definition ieqb (a b : ascii) : bool := Ascii.eqb (lower a) (lower b).

(** [s] starts with the literal [p], ignoring case. *)
Fixpoint istartswith (s p : pystr) {struct p} : bool :=
  match p, s with
  | [], _ => true
  | a :: p', b :: s' => ieqb a b && istartswith s' p'
  | _ :: _, [] => false
  end.

(** [s.strip()] : whitespace on both ends. *)
Fixpoint lstrip_ws (s : pystr) : pystr :=
  match s with
  | [] => []
  | c :: s' => if is_space c then lstrip_ws s' else s
  end.

Definition strip_ws (s : pystr) : pystr := rev (lstrip_ws (rev (lstrip_ws s))).

End PyStr.

Import PyStr.

(** ** The three regular expressions

    Each pattern of the source is written out as the backtracking matcher
    the [re] module runs for it: a matcher looks for a match that starts at
    the first character of its argument and gives the captured groups
    together with the number of characters matched. None of the three
    patterns matches the empty string. *)

Module Re.

(** Longest prefix of [s] whose characters satisfy [p] (a greedy [p*]
    with nothing after it that could force it to give characters back). *)
Fixpoint run (p : ascii -> bool) (s : pystr) : pystr :=
  match s with
  | c :: s' => if p c then c :: run p s' else []
  | [] => []
  end.

Fixpoint skip_run (p : ascii -> bool) (s : pystr) : pystr :=
  match s with
  | c :: s' => if p c then skip_run p s' else s
  | [] => []
  end.

(** [pattern.sub(repl, s)]: the leftmost match is replaced, the scan
    resumes after it; [skip] counts the characters of the last match that
    are still to be passed over. *)
Fixpoint sub_from {G : Type} (m : pystr -> option (G * nat))
    (repl : G -> pystr) (s : pystr) (skip : nat) : pystr :=
  match s with
  | [] => []
  | c :: s' =>
      match skip with
      | S k => sub_from m repl s' k
      | O =>
          match m s with
          | Some (g, n) => repl g ++ sub_from m repl s' (Nat.pred n)
          | None => c :: sub_from m repl s' O
          end
      end
  end.

Definition sub {G : Type} (m : pystr -> option (G * nat))
    (repl : G -> pystr) (s : pystr) : pystr :=
  sub_from m repl s O.

(** [pattern.search(s) is not None] *)
Fixpoint search {G : Type} (m : pystr -> option (G * nat)) (s : pystr) : bool :=
  match m s with
  | Some _ => true
  | None => match s with
            | [] => false
            | _ :: s' => search m s'
            end
  end.

(** [re_bugify = T([0-9]{1,})]; the group is the digits. *)
Definition re_bugify (s : pystr) : option (pystr * nat) :=
  match s with
  | c :: s' =>
      if Ascii.eqb c "T" then
        match run is_digit s' with
        | [] => None
        | ds => Some (ds, S (List.length ds))
        end
      else None
  | [] => None
  end.

(** One alternative of [(?:B|BA|BAC|BTS)] followed by [[0-9a-fA-F]{6,}]. *)
Definition commit_alt (s alt : pystr) : option pystr :=
  if startswith s alt then
    let h := run is_hex (drop (List.length alt) s) in
    if (6 <=? List.length h)%nat then Some (alt ++ h) else None
  else None.

Fixpoint first_alt (s : pystr) (alts : list pystr) : option pystr :=
  match alts with
  | [] => None
  | alt :: alts' =>
      match commit_alt s alt with
      | Some g => Some g
      | None => first_alt s alts'
      end
  end.

(** [re_commitify = \W(r(?:B|BA|BAC|BTS)[0-9a-fA-F]{6,})]; the group is the
    short code, and the match also takes the character before it. *)
Definition re_commitify (s : pystr) : option (pystr * nat) :=
  match s with
  | w :: r :: s' =>
      if negb (is_word w) && Ascii.eqb r "r" then
        match first_alt s' [str "B"; str "BA"; str "BAC"; str "BTS"] with
        | Some g => Some (r :: g, S (S (List.length g)))
        | None => None
        end
      else None
  | _ => None
  end.

(** The end of [re_prettify]: [\s*[-:,]*\s*], which cannot fail. *)
Definition is_sep (c : ascii) : bool := mem c (str "-:,").

Definition prettify_tail (s : pystr) : pystr :=
  skip_run is_space (skip_run is_sep (skip_run is_space s)).

(** [T([0-9]{1,})] under [IGNORECASE], then the tail: the digits and the
    text left after the match. *)
Definition bug_number (s : pystr) : option (pystr * pystr) :=
  match s with
  | c :: s' =>
      if ieqb c "T" then
        match run is_digit s' with
        | [] => None
        | ds => Some (ds, prettify_tail (drop (List.length ds) s'))
        end
      else None
  | [] => None
  end.

(** [\s*] followed by [k]: the longest run first, then one character
    less at a time. *)
Fixpoint spaces_then {A : Type} (k : pystr -> option A) (s : pystr) : option A :=
  match s with
  | c :: s' =>
      if is_space c then
        match spaces_then k s' with
        | Some r => Some r
        | None => k s
        end
      else k s
  | [] => k s
  end.

(** [(?:l1|l2|...)?] followed by [k]: each alternative in turn, then
    without the group. *)
Fixpoint optional_then {A : Type} (lits : list pystr)
    (k : pystr -> option A) (s : pystr) : option A :=
  match lits with
  | [] => k s
  | l :: lits' =>
      match (if istartswith s l then k (drop (List.length l) s) else None) with
      | Some r => Some r
      | None => optional_then lits' k s
      end
  end.

(** [Fix(?:ing|es)?\s*(?:for)?\s*T([0-9]{1,})\s*[-:,]*\s*] under
    [IGNORECASE]. *)
Definition fix_core (s : pystr) : option (pystr * pystr) :=
  if istartswith s (str "Fix") then
    optional_then [str "ing"; str "es"]
      (spaces_then (optional_then [str "for"] (spaces_then bug_number)))
      (drop 3 s)
  else None.

(** [(.{,20}?)] followed by the rest of the pattern: lazy, so the shortest
    prefix first; [.] does not match a newline. *)
Fixpoint lazy_dots (n : nat) (pre s : pystr) : option (pystr * pystr * pystr) :=
  match fix_core s with
  | Some (ds, rest) => Some (pre, ds, rest)
  | None =>
      match n, s with
      | S n', c :: s' =>
          if Ascii.eqb c newline then None else lazy_dots n' (pre ++ [c]) s'
      | _, _ => None
      end
  end.

(** [re_prettify]; the groups kept are 1 (the prefix) and 3 (the digits). *)
Definition re_prettify (s : pystr) : option (pystr * pystr * nat) :=
  match lazy_dots 20 [] s with
  | Some (pre, ds, rest) => Some (pre, ds, (List.length s - List.length rest)%nat)
  | None => None
  end.

End Re.

(** ** Exceptions and [%] formatting *)

Inductive pyexn : Set := TypeError | IndexError | ValueError.

Inductive result (A : Type) : Type :=
| Ok (a : A)
| Raise (e : pyexn).

Arguments Ok {A} a.
Arguments Raise {A} e.

Definition bind {A B : Type} (r : result A) (f : A -> result B) : result B :=
  match r with
  | Ok a => f a
  | Raise e => Raise e
  end.

Notation "x <- r ;; k" := (bind r (fun x => k))
  (at level 100, r at next level, right associativity).

(** An operand of [%]: a string, an integer or [None]. *)
Inductive fmt_arg : Type :=
| FStr (s : pystr)
| FInt (n : Z)
| FNone.

(** [fmt % args] for the conversions the source uses ([%s], [%d], [%%]):
    a conversion without an operand, and an operand without a conversion,
    are both a [TypeError]. *)
Fixpoint pyformat (fmt : pystr) (args : list fmt_arg) : result pystr :=
  match fmt with
  | [] => match args with
          | [] => Ok []
          | _ :: _ => Raise TypeError
          end
  | c :: fmt' =>
      if Ascii.eqb c "%" then
        match fmt' with
        | [] => Raise ValueError
        | d :: fmt'' =>
            if Ascii.eqb d "%" then
              r <- pyformat fmt'' args ;; Ok (d :: r)
            else if Ascii.eqb d "s" then
              match args with
              | [] => Raise TypeError
              | a :: args' =>
                  r <- pyformat fmt'' args' ;;
                  Ok (match a with
                      | FStr s => s
                      | FInt n => str_of_Z n
                      | FNone => str "None"
                      end ++ r)
              end
            else if Ascii.eqb d "d" then
              match args with
              | FInt n :: args' => r <- pyformat fmt'' args' ;; Ok (str_of_Z n ++ r)
              | _ => Raise TypeError
              end
            else Raise ValueError
        end
      else r <- pyformat fmt' args ;; Ok (c :: r)
  end.

(** ** Message transformer *)

(** A commit, as the log reader supplies it; [sha1] is the decoded
    identifier. *)
Record commit : Type := Commit {
  sha1 : pystr;
  author : pystr;
  body : pystr
}.

Definition nl : pystr := [newline].

(** [c.body.split("\n\n")[0].strip(" :.;-\n").replace("\n", " ")] *)
Definition gen_commit_summary (c : commit) : pystr :=
  replace_char (strip (split_head (body c) (nl ++ nl)) (str " :.;-" ++ nl))
    newline " ".

Definition repl_prettify (g : pystr * pystr) : pystr :=
  str "Fix {{BugReport|" ++ snd g ++ str "}}: " ++ fst g.

Definition repl_bugify (g : pystr) : pystr :=
  str "{{BugReport|" ++ g ++ str "}}".

Definition repl_commitify (g : pystr) : pystr :=
  str "{{GitCommit|" ++ g ++ str "}}".

(** The rewritten summary, and the value [unreported[0]] has afterwards
    when the caller passed [[False]]. *)
Definition gen_commit_message_pretty (c : commit) : pystr * bool :=
  let body := gen_commit_summary c in
  let tbody := Re.sub Re.re_prettify repl_prettify body in
  let unreported := PyStr.eqb tbody body in
  let tbody := if unreported then str "Fix unreported: " ++ body else tbody in
  let body := Re.sub Re.re_bugify repl_bugify tbody in
  let body := Re.sub Re.re_commitify repl_commitify body in
  (body, unreported).

(** [rstate] is [None] or a string. *)
Definition gen_commit_pretty (c : commit) (rstate : option pystr)
  : result (pystr * bool) :=
  let '(body, unreported) := gen_commit_message_pretty c in
  match rstate with
  | Some rs =>
      r <- pyformat (str "* [%s] %s ({{GitCommit|rB%s}}).")
             [FStr rs; FStr body; FStr (take 10 (sha1 c))] ;;
      Ok (r, unreported)
  | None =>
      r <- pyformat (str "* %s ({{GitCommit|rB%s}}).")
             [FNone; FStr body; FStr (take 10 (sha1 c))] ;;
      Ok (r, unreported)
  end.

Definition gen_commit_unprettify (body : pystr) : pystr :=
  let body :=
    if startswith body (str "* [") then
      let end_ := find body (str "]") in
      if 0 <? end_ then slice_from body (end_ + 2) else body
    else body in
  let start := rfind body (str "({{GitCommit|rB") in
  if 0 <? start then slice_to body (start - 1) else body.

(** ** Static configuration *)

Definition IGNORE_START_LINE : pystr := str "<!-- IGNORE_START -->".
Definition IGNORE_END_LINE : pystr := str "<!-- IGNORE_END -->".

Definition BUGFIX_CATEGORIES : list (pystr * list pystr) :=
  [ (str "Objects / Animation / GP",
      [ str "Animation"; str "Constraints"; str "Grease Pencil";
        str "Objects"; str "Dependency Graph" ]);
    (str "Data / Geometry",
      [ str "Armatures"; str "Curve/Text Editing"; str "Mesh Editing";
        str "Meta Editing"; str "Modifiers"; str "Material / Texture" ]);
    (str "Physics / Simulations / Sculpt / Paint",
      [ str "Particles"; str "Physics / Hair / Simulations";
        str "Sculpting / Painting" ]);
    (str "Image / Video / Render",
      [ str "Image / UV Editing"; str "Masking"; str "Motion Tracking";
        str "Movie Clip Editor"; str "Nodes / Compositor"; str "Render";
        str "Render: Cycles"; str "Render: Freestyle"; str "Sequencer" ]);
    (str "UI / Spaces / Transform",
      [ str "3D View"; str "Input (NDOF / 3D Mouse)"; str "Outliner";
        str "Text Editor"; str "Transform"; str "User Interface" ]);
    (str "Game Engine", []);
    (str "System / Misc",
      [ str "Audio"; str "Collada"; str "File I/O"; str "Other";
        str "Python"; str "System" ]) ].

(** ** The release log

    The source keeps the log in one dictionary: the keys ["__HEADER__"],
    ["__COUNT__"] and ["__RSTATES__"] hold the header, the two counters and
    the release-state lists; every other key is a main-category name or
    [None], and its value is a pair of dictionaries (reported, unreported)
    from a sub-category name or [None] to the list of entries. *)

Abbreviation bucket := (gmap (option pystr) (list pystr)).

Record log : Type := Log {
  rl_header : pystr;
  rl_count : Z * Z;
  rl_rstates : gmap pystr (list pystr);
  rl_cats : gmap (option pystr) (bucket * bucket)
}.

(** [seq[i]] on a tuple or list: a negative index counts from the end,
    anything else out of range is an [IndexError]. *)
Definition py_index {A : Type} (l : list A) (i : Z) : result A :=
  let n := Z.of_nat (List.length l) in
  let j := if i <? 0 then i + n else i in
  if (0 <=? j) && (j <? n) then
    match l !! Z.to_nat j with
    | Some a => Ok a
    | None => Raise IndexError
    end
  else Raise IndexError.

(** [d.get(k, [])] *)
Definition entries_of (data : bucket) (sub_cat : option pystr) : list pystr :=
  default [] (data !! sub_cat).

(** [release_log.get(main_cat, ({}, {}))] *)
Definition cat_data (release_log : log) (main_cat : option pystr)
  : bucket * bucket :=
  default (∅, ∅) (rl_cats release_log !! main_cat).

(** [d.setdefault(sub_cat, []).append(entry)] *)
Definition bucket_append (data : bucket) (sub_cat : option pystr)
    (entry : pystr) : bucket :=
  <[sub_cat := entries_of data sub_cat ++ [entry]]> data.

(** [release_log.setdefault(main_cat, ({}, {}))] followed by an append to
    the reported (first) or unreported (second) dictionary, and the
    increment of the matching counter. *)
Definition record_entry (release_log : log) (main_cat sub_cat : option pystr)
    (unreported : bool) (entry : pystr) : log :=
  let '(main_cat_data, main_cat_data_unreported) := cat_data release_log main_cat in
  let data :=
    if unreported
    then (main_cat_data, bucket_append main_cat_data_unreported sub_cat entry)
    else (bucket_append main_cat_data sub_cat entry, main_cat_data_unreported) in
  let '(n0, n1) := rl_count release_log in
  {| rl_header := rl_header release_log;
     rl_count := if unreported then (n0, n1 + 1) else (n0 + 1, n1);
     rl_rstates := rl_rstates release_log;
     rl_cats := <[main_cat := data]> (rl_cats release_log) |}.

(** [release_log.setdefault(main_cat, ({}, {}))] alone. *)
Definition touch_cat (release_log : log) (main_cat : option pystr)
  : log :=
  {| rl_header := rl_header release_log;
     rl_count := rl_count release_log;
     rl_rstates := rl_rstates release_log;
     rl_cats := <[main_cat := cat_data release_log main_cat]> (rl_cats release_log) |}.

(** [release_log["__RSTATES__"][rstate].append(entry)] for a key that is
    present. *)
Definition rstate_append (release_log : log) (rstate entry : pystr)
  : log :=
  {| rl_header := rl_header release_log;
     rl_count := rl_count release_log;
     rl_rstates :=
       <[rstate := default [] (rl_rstates release_log !! rstate) ++ [entry]]>
         (rl_rstates release_log);
     rl_cats := rl_cats release_log |}.

(** [rstate in release_log["__RSTATES__"]] *)
Definition rstate_tracked (release_log : log) (rstate : option pystr) : bool :=
  match rstate with
  | Some rs => bool_decide (is_Some (rl_rstates release_log !! rs))
  | None => false
  end.

(** ** Mutation: the first part of [write_release_log]

    The log is mutated in place, so what has been done before an exception
    stays done: the function gives the log as it is when control leaves,
    together with the outcome. *)

(** [main_cat, sub_cats = BUGFIX_CATEGORIES[cat[0]]] and
    [sub_cat = sub_cats[cat[1]] if cat[1] is not None else None] *)
Definition select_cat (cat : Z * option Z) : result (pystr * option pystr) :=
  m_cat <- py_index BUGFIX_CATEGORIES (fst cat) ;;
  match snd cat with
  | Some j => sub_cat <- py_index (snd m_cat) j ;; Ok (fst m_cat, Some sub_cat)
  | None => Ok (fst m_cat, None)
  end.

Definition add_entry (release_log : log) (c : commit)
    (cat : Z * option Z) (rstate : option pystr) : log * result unit :=
  match select_cat cat with
  | Raise e => (release_log, Raise e)
  | Ok (main_cat, sub_cat) =>
      let release_log := touch_cat release_log (Some main_cat) in
      match gen_commit_pretty c rstate with
      | Raise e => (release_log, Raise e)
      | Ok (entry, unreported) =>
          let release_log :=
            record_entry release_log (Some main_cat) sub_cat unreported entry in
          if rstate_tracked release_log rstate then
            match gen_commit_pretty c None with
            | Raise e => (release_log, Raise e)
            | Ok (plain, _) =>
                (rstate_append release_log (default [] rstate) plain, Ok tt)
            end
          else (release_log, Ok tt)
      end
  end.

(** ** Serializer: the second part of [write_release_log] *)

(** [for data in main_cat_data: entries = data.get(key, []); if entries:
    lines.extend(entries); lines.append("")] *)
Definition extend_with (lines : list pystr) (data : bucket * bucket)
    (key : option pystr) : list pystr :=
  fold_left
    (fun lines d =>
       match entries_of d key with
       | [] => lines
       | entries => lines ++ entries ++ [[]]
       end)
    [fst data; snd data] lines.

Definition sub_cat_lines (data : bucket * bucket) (sub_cat : pystr) : list pystr :=
  extend_with [str "=== " ++ sub_cat ++ str " ==="] data (Some sub_cat).

(** The lines one main category adds to [lines]. *)
Definition main_cat_lines (release_log : log)
    (mc : pystr * list pystr) : list pystr :=
  let '(main_cat, sub_cats) := mc in
  let data := cat_data release_log (Some main_cat) in
  let lines := extend_with [str "== " ++ main_cat ++ str " =="] data None in
  let lines := if (List.length lines =? 1)%nat then lines ++ [[]] else lines in
  let lines :=
    fold_left
      (fun lines sub_cat =>
         let sub := sub_cat_lines data sub_cat in
         if (2 <? List.length sub)%nat then lines ++ sub else lines)
      sub_cats lines in
  if (2 <? List.length lines)%nat then lines else [].

(** The lines of the trailing section for the [None] main category. *)
Definition unsorted_lines (release_log : log) : list pystr :=
  if bool_decide (is_Some (rl_cats release_log !! None)) then
    let data := cat_data release_log None in
    let lines := extend_with [str "== UNSORTED ==" ++ nl ++ nl] data None in
    if (2 <? List.length lines)%nat then lines else []
  else [].

Definition body_lines (release_log : log) : list pystr :=
  concat (map (main_cat_lines release_log) BUGFIX_CATEGORIES)
  ++ unsorted_lines release_log.

Definition note_line : pystr :=
  str "{{Note|Note|Before RC1 (i.e. during regular development of next version in main "
  ++ str "branch), only fixes of issues which already existed in previous official releases are "
  ++ str "listed here. Fixes for regressions introduced since last release, or for new "
  ++ str "features, are '''not''' listed here.<br/>For following RCs and final release, "
  ++ str "'''all''' backported fixes are listed.}}".

(** The section of one release state in the closing block. *)
Definition rstate_section (release_log : log) (rst : pystr) : pystr :=
  match default [] (rl_rstates release_log !! rst) with
  | [] => []
  | entries =>
      str "== " ++ rst ++ str " ==" ++ nl
      ++ str "For " ++ rst ++ str ", " ++ str_of_Z (Z.of_nat (List.length entries))
      ++ str " bugs were fixed:" ++ nl ++ nl
      ++ join nl entries ++ nl ++ nl
  end.

(** The summary line of the opening block; [sum(count)] is the sum of the
    two counters. *)
Definition total_line (count : Z * Z) : pystr :=
  str "Total fixed bugs: " ++ str_of_Z (fst count + snd count) ++ str " ("
  ++ str_of_Z (fst count) ++ str " from tracker, " ++ str_of_Z (snd count)
  ++ str " reported/found by other ways).".

(** The text written to the file, one group for each [f.write]. *)
Definition render (release_log : log) (rstate_list : list pystr) : pystr :=
  rl_header release_log
  ++ (IGNORE_START_LINE ++ nl)
  ++ (total_line (rl_count release_log) ++ nl ++ nl)
  ++ (note_line ++ nl ++ IGNORE_END_LINE ++ nl ++ nl)
  ++ join nl (body_lines release_log)
  ++ nl
  ++ (IGNORE_START_LINE ++ nl ++ nl ++ str "<hr/>" ++ nl ++ nl)
  ++ concat (map (rstate_section release_log) rstate_list)
  ++ (IGNORE_END_LINE ++ nl).

(** [write_release_log]: the log after the call, and the new content of the
    file when the call returns. *)
Definition write_release_log (release_log : log) (c : commit)
    (cat : Z * option Z) (rstate : option pystr) (rstate_list : list pystr)
  : log * result pystr :=
  match add_entry release_log c cat rstate with
  | (release_log, Ok _) => (release_log, Ok (render release_log rstate_list))
  | (release_log, Raise e) => (release_log, Raise e)
  end.

(** ** Parser: [release_log_init] *)

Definition cr : ascii := ascii_of_N 13.

(** Reading in text mode: ["\r\n"] and ["\r"] arrive as ["\n"]. *)
Fixpoint universal_newlines (s : pystr) : pystr :=
  match s with
  | [] => []
  | c :: s' =>
      if Ascii.eqb c cr then
        newline ::
        match s' with
        | d :: s'' =>
            if Ascii.eqb d newline then universal_newlines s''
            else universal_newlines s'
        | [] => []
        end
      else c :: universal_newlines s'
  end.

(** The lines [for l in f] yields, each with its terminator. *)
Fixpoint split_lines (s : pystr) : list pystr :=
  match s with
  | [] => []
  | c :: s' =>
      if Ascii.eqb c newline then [c] :: split_lines s'
      else match split_lines s' with
           | [] => [[c]]
           | l :: ls => (c :: l) :: ls
           end
  end.

Definition file_lines (text : pystr) : list pystr :=
  split_lines (universal_newlines text).

(** [{s_cat: m_cat[0] for m_cat in BUGFIX_CATEGORIES for s_cat in m_cat[1]}] *)
Definition sub_cats_to_main_cats : gmap pystr pystr :=
  fold_left
    (fun d (m_cat : pystr * list pystr) =>
       fold_left (fun d s_cat => <[s_cat := fst m_cat]> d) (snd m_cat) d)
    BUGFIX_CATEGORIES ∅.

(** [name in main_cats] *)
Definition in_main_cats (name : pystr) : bool :=
  bool_decide (name ∈ map fst BUGFIX_CATEGORIES).

(** What a line starting with ["=="] does to [(main_cat, sub_cat)]. *)
Definition main_heading (l : pystr) : option pystr * option pystr :=
  let main_cat := strip l (str " =") in
  if in_main_cats main_cat then (Some main_cat, None)
  else (sub_cats_to_main_cats !! main_cat, Some main_cat).

(** What a line starting with ["==="] does to [(main_cat, sub_cat)]. *)
Definition sub_heading (l : pystr) : option pystr * option pystr :=
  let sub_cat := strip l (str " =") in
  match sub_cats_to_main_cats !! sub_cat with
  | Some main_cat => (Some main_cat, Some sub_cat)
  | None =>
      if in_main_cats sub_cat then (Some sub_cat, None)
      else (None, Some sub_cat)
  end.

(** The release-state part of an entry line: a line that, once stripped of
    ["* "], opens with a bracketed label which is tracked, is also listed
    (without the label) under that label. *)
Definition parse_rstate (release_log : log) (l : pystr) : log :=
  let l_rstate := strip l (str "* ") in
  if startswith l_rstate (str "[") then
    let end_ := find l_rstate (str "]") in
    if 0 <? end_ then
      let rstate := slice l_rstate 1 end_ in
      if bool_decide (is_Some (rl_rstates release_log !! rstate)) then
        rstate_append release_log rstate
          (str "* " ++ strip_ws (slice_from l_rstate (end_ + 1)))
      else release_log
    else release_log
  else release_log.

(** A line containing ["Fix "]: an entry of the current category. *)
Definition parse_entry (release_log : log) (main_cat sub_cat : option pystr)
    (l : pystr) : log :=
  let unreported := negb (contains l (str "Fix {{BugReport|")) in
  parse_rstate (record_entry release_log main_cat sub_cat unreported l) l.

(** The variables of the loop. *)
Record parser : Type := Parser {
  p_log : log;
  p_main_cat : option pystr;
  p_sub_cat : option pystr;
  p_ignore : bool
}.

(** The outer loop once the header has been read. *)
Fixpoint parse_body (st : parser) (ls : list pystr) : parser :=
  match ls with
  | [] => st
  | l :: ls' =>
      if contains l IGNORE_END_LINE then
        parse_body (Parser (p_log st) (p_main_cat st) (p_sub_cat st) false) ls'
      else if p_ignore st || contains l IGNORE_START_LINE then
        parse_body (Parser (p_log st) (p_main_cat st) (p_sub_cat st) true) ls'
      else
        let l := strip l (str " " ++ nl) in
        if startswith l (str "===") then
          let '(main_cat, sub_cat) := sub_heading l in
          parse_body (Parser (p_log st) main_cat sub_cat (p_ignore st)) ls'
        else if startswith l (str "==") then
          let '(main_cat, sub_cat) := main_heading l in
          parse_body (Parser (p_log st) main_cat sub_cat (p_ignore st)) ls'
        else if contains l (str "Fix ") then
          parse_body
            (Parser (parse_entry (p_log st) (p_main_cat st) (p_sub_cat st) l)
               (p_main_cat st) (p_sub_cat st) (p_ignore st)) ls'
        else parse_body st ls'
  end.

(** The header the log gets once the header lines of the file are read. *)
Definition carried_header (header : list pystr) (rstate : option pystr)
    (start_sha1 end_sha1 branch : pystr) : pystr :=
  join nl header
  ++ match rstate with
     | Some rs => str "[" ++ rs ++ str "] "
     | None => []
     end
  ++ str "Changes from revision {{GitCommit|" ++ take 10 start_sha1
  ++ str "}} to {{GitCommit|" ++ take 10 end_sha1
  ++ str "}}, inclusive (''" ++ branch ++ str "'' branch)." ++ nl ++ nl.

Section Parse.

Variables (rstate : option pystr) (start_sha1 end_sha1 branch : pystr).

Definition end_of_header (st : parser) (header : list pystr)
    (main_cat sub_cat : option pystr) : parser :=
  Parser {| rl_header := carried_header header rstate start_sha1 end_sha1 branch;
            rl_count := (0, 0);
            rl_rstates := rl_rstates (p_log st);
            rl_cats := rl_cats (p_log st) |}
    main_cat sub_cat (p_ignore st).

(** The inner loop: header lines up to the first line starting with
    ["=="]; the outer loop then goes on with the lines that are left. *)
Fixpoint parse_header (st : parser) (header : list pystr) (ls : list pystr)
  : parser :=
  match ls with
  | [] => end_of_header st header (p_main_cat st) (p_sub_cat st)
  | hl :: ls' =>
      if contains hl IGNORE_END_LINE then
        parse_header (Parser (p_log st) (p_main_cat st) (p_sub_cat st) false)
          header ls'
      else if p_ignore st || contains hl IGNORE_START_LINE then
        parse_header (Parser (p_log st) (p_main_cat st) (p_sub_cat st) true)
          header ls'
      else
        let hl := strip hl (str " " ++ nl) in
        if startswith hl (str "==") then
          let '(main_cat, sub_cat) := main_heading hl in
          parse_body (end_of_header st header main_cat sub_cat) ls'
        else parse_header st (header ++ [hl]) ls'
  end.

(** The outer loop while [header] is still empty: the first line that is
    not ignored opens the header. *)
Fixpoint parse_start (st : parser) (ls : list pystr) : parser :=
  match ls with
  | [] => st
  | l :: ls' =>
      if contains l IGNORE_END_LINE then
        parse_start (Parser (p_log st) (p_main_cat st) (p_sub_cat st) false) ls'
      else if p_ignore st || contains l IGNORE_START_LINE then
        parse_start (Parser (p_log st) (p_main_cat st) (p_sub_cat st) true) ls'
      else parse_header st [strip l (str " " ++ nl)] ls'
  end.

End Parse.

(** The header of a log that starts from no file. *)
Definition fresh_header (blender_rev : pystr) (rstate : option pystr)
    (start_sha1 end_sha1 : pystr) : pystr :=
  str "= Blender " ++ blender_rev ++ str ": Bug Fixes =" ++ nl ++ nl
  ++ match rstate with
     | Some rs => str "[" ++ rs ++ str "] "
     | None => []
     end
  ++ str "Changes from revision {{GitCommit|rB" ++ take 10 start_sha1
  ++ str "}} to {{GitCommit|rB" ++ take 10 end_sha1 ++ str "}}, inclusive."
  ++ nl ++ nl.

(** [{k: [] for k in rstate_list}] *)
Definition fresh_rstates (rstate_list : list pystr) : gmap pystr (list pystr) :=
  fold_left (fun d k => <[k := []]> d) rstate_list ∅.

(** [release_log_init]; [existing] is the content of the file at [path]
    when there is one, and [branch] the branch name the repository gives. *)
Definition release_log_init (existing : option pystr) (branch blender_rev : pystr)
    (start_sha1 end_sha1 : pystr) (rstate : option pystr)
    (rstate_list : list pystr) : log :=
  let release_log :=
    {| rl_header := fresh_header blender_rev rstate start_sha1 end_sha1;
       rl_count := (0, 0);
       rl_rstates := fresh_rstates rstate_list;
       rl_cats := ∅ |} in
  match existing with
  | None => release_log
  | Some text =>
      p_log (parse_start rstate start_sha1 end_sha1 branch
               (Parser release_log None None false) (file_lines text))
  end.

(** ** Shapes and sample data used by the properties *)

(** The line [gen_commit_pretty] builds when it is given a release state. *)
Definition entry_text (rstate body sha : pystr) : pystr :=
  str "* [" ++ rstate ++ str "] " ++ body ++ str " ({{GitCommit|rB" ++ sha
  ++ str "}}).".

Definition commit_leak : commit :=
  Commit (str "abc1234567890") (str "dev") (str "Fix T999: leak").

Definition commit_crash : commit :=
  Commit (str "0123456789abcdef") (str "dev")
    (str "Fix T12345: crash on save" ++ nl ++ nl ++ str "Longer body").

Definition commit_cleanup : commit :=
  Commit (str "fedcba9876543210") (str "dev") (str "Cleanup unused var").

Definition commit_empty : commit :=
  Commit (str "00112233445566") (str "dev") [].

Definition commit_see : commit :=
  Commit (str "00112233445566") (str "dev") (str "See T123").

Definition commit_wrapped : commit :=
  Commit (str "00112233445566") (str "dev")
    (str "Fix {{BugReport|999}}: leak ({{GitCommit|rBabc1234567}})").

(** A bug-report marker directly followed by a commit reference. *)
Definition commit_clipped : commit :=
  Commit (str "00112233445566") (str "dev") (str "See {{BugReport|5}}rB1234567").

(** A bug-report marker some way before a fix pattern. *)
Definition commit_split : commit :=
  Commit (str "00112233445566") (str "dev")
    (str "{{BugReport|5}} is related, fixes T12").

(** A matcher whose matches never run past the end of the string. *)
Definition bounded {G : Type} (m : pystr -> option (G * nat)) : Prop :=
  forall s g n, m s = Some (g, n) -> (n <= length s)%nat.

(** What follows [a] does not change what the matcher finds inside [a]. *)
Definition stable_before {G : Type} (m : pystr -> option (G * nat))
    (b : pystr) : Prop :=
  forall c a, m (c :: a ++ b) = m (c :: a).

(** The entries of one bucket: main category, sub-category, and whether
    the reported ([false]) or the unreported ([true]) dictionary. *)
Definition entries (release_log : log) (main_cat sub_cat : option pystr)
    (unreported : bool) : list pystr :=
  entries_of
    ((if unreported then snd else fst) (cat_data release_log main_cat)) sub_cat.

(** One session: the accepted commits in order, each with the category
    chosen and the release state; an exception ends the session. *)
Fixpoint add_entries (release_log : log)
    (calls : list (commit * (Z * option Z) * option pystr))
  : log * result unit :=
  match calls with
  | [] => (release_log, Ok tt)
  | (c, cat, rstate) :: calls' =>
      match add_entry release_log c cat rstate with
      | (release_log, Ok _) => add_entries release_log calls'
      | (release_log, Raise e) => (release_log, Raise e)
      end
  end.

(** A log that starts from no file, as the tool sets it up by default. *)
Definition sample_log : log :=
  release_log_init None (str "main") (str "2.79")
    (str "0123456789abcdef") (str "fedcba9876543210") (Some (str "alpha")) [[]].

(** The same with the release state ["RC2"] tracked. *)
Definition sample_log_rc : log :=
  release_log_init None (str "main") (str "2.79")
    (str "0123456789abcdef") (str "fedcba9876543210") (Some (str "RC2"))
    [str "RC2"; str "RC3"].

Definition sample_calls : list (commit * (Z * option Z) * option pystr) :=
  [ (commit_crash, (1, Some 2), Some (str "alpha"));
    (commit_cleanup, (5, None), Some (str "alpha"));
    (commit_leak, (1, Some 2), Some (str "alpha")) ].

(** ** The layout of a rendered category, stated directly

    A second description of what [main_cat_lines] builds, against which the
    code is compared: a non-empty list of entries is followed by a blank
    line, a sub-category with entries is a heading and its two groups, and
    a main category with anything under it is a heading, its own two groups
    (or one blank line), and its sub-categories. *)

Definition heading2 (main_cat : pystr) : pystr :=
  str "== " ++ main_cat ++ str " ==".

Definition heading3 (sub_cat : pystr) : pystr :=
  str "=== " ++ sub_cat ++ str " ===".

Definition group (es : list pystr) : list pystr :=
  match es with
  | [] => []
  | _ :: _ => es ++ [[]]
  end.

Definition groups (data : bucket * bucket) (key : option pystr) : list pystr :=
  group (entries_of (fst data) key) ++ group (entries_of (snd data) key).

Definition sub_section (data : bucket * bucket) (sub_cat : pystr) : list pystr :=
  match groups data (Some sub_cat) with
  | [] => []
  | g => heading3 sub_cat :: g
  end.

Definition section_tail (data : bucket * bucket) (sub_cats : list pystr)
  : list pystr :=
  match groups data None with
  | [] => [[]]
  | g => g
  end ++ concat (map (sub_section data) sub_cats).

Definition main_section (release_log : log) (mc : pystr * list pystr)
  : list pystr :=
  let data := cat_data release_log (Some (fst mc)) in
  match groups data None ++ concat (map (sub_section data) (snd mc)) with
  | [] => []
  | _ :: _ => heading2 (fst mc) :: section_tail data (snd mc)
  end.

(** A main category has an entry somewhere under it. *)
Definition has_entries (release_log : log) (mc : pystr * list pystr) : Prop :=
  (exists u, entries release_log (Some (fst mc)) None u <> [])
  \/ (exists sub_cat u,
        sub_cat ∈ snd mc
        /\ entries release_log (Some (fst mc)) (Some sub_cat) u <> []).

(** A document with a hand-written section under an unknown heading. *)
Definition doc_unsorted : pystr :=
  str "= Blender 2.79: Bug Fixes =" ++ nl ++ nl
  ++ str "== UNSORTED ==" ++ nl ++ nl
  ++ str "* Fix unreported: manual entry ({{GitCommit|rB0123456789}})." ++ nl.

Definition log_unsorted : log :=
  release_log_init (Some doc_unsorted) (str "main") (str "2.79")
    (str "0123456789abcdef") (str "fedcba9876543210") (Some (str "alpha")) [[]].

(** The sample log after one accepted commit under "Data / Geometry",
    "Mesh Editing". *)
Definition sample_log1 : log :=
  fst (add_entry sample_log commit_crash (1, Some 2) (Some (str "alpha"))).

Definition data_geometry : pystr * list pystr :=
  (str "Data / Geometry",
    [ str "Armatures"; str "Curve/Text Editing"; str "Mesh Editing";
      str "Meta Editing"; str "Modifiers"; str "Material / Texture" ]).

(** ** Conditions under which a written log reads back *)

(** A string that stays on one line when the file is read. *)
Definition plain (s : pystr) : bool := negb (mem newline s) && negb (mem cr s).

(** The text of lines, each with its terminator. *)
Definition unlines (ls : list pystr) : pystr :=
  concat (map (fun l => l ++ nl) ls).

(** An entry that the parser reads back as the same entry of the same
    kind: one line, no ignore marker, the word the parser looks for, and
    the bug-report link exactly when the entry counts as reported. *)
Definition entry_ok (unreported : bool) (e : pystr) : bool :=
  plain e
  && negb (contains e IGNORE_START_LINE)
  && negb (contains e IGNORE_END_LINE)
  && contains e (str "Fix ")
  && Bool.eqb (contains e (str "Fix {{BugReport|")) (negb unreported).

Definition call_ok (call : commit * (Z * option Z) * option pystr) : bool :=
  match gen_commit_pretty (fst (fst call)) (snd call) with
  | Ok (e, u) => entry_ok u e
  | Raise _ => false
  end.

(** A line that does not end the header. *)
Definition not_heading (l : pystr) : bool :=
  negb (startswith (strip l (str " " ++ nl)) (str "==")).

(** A header that the parser passes over: no carriage return, complete
    lines, none of which opens like a heading. *)
Definition header_ok (h : pystr) : bool :=
  negb (mem cr h)
  && match rev h with
     | [] => true
     | c :: _ => Ascii.eqb c newline
     end
  && forallb not_heading (split_lines h).

(** What the parser needs of the line of an entry. *)
Definition line_ok (unreported : bool) (e : pystr) : Prop :=
  contains (e ++ nl) IGNORE_END_LINE = false
  /\ contains (e ++ nl) IGNORE_START_LINE = false
  /\ strip (e ++ nl) (str " " ++ nl) = e
  /\ startswith e (str "===") = false
  /\ startswith e (str "==") = false
  /\ contains e (str "Fix ") = true
  /\ contains e (str "Fix {{BugReport|") = negb unreported
  /\ plain e = true.

(** What the parser needs of the heading lines of the static tree. *)
Definition main_line_ok (main_cat : pystr) : bool :=
  let l := heading2 main_cat ++ nl in
  let s := strip l (str " " ++ nl) in
  negb (contains l IGNORE_END_LINE) && negb (contains l IGNORE_START_LINE)
  && negb (startswith s (str "===")) && startswith s (str "==")
  && bool_decide (main_heading s = (Some main_cat, None))
  && plain (heading2 main_cat).

Definition sub_line_ok (main_cat sub_cat : pystr) : bool :=
  let l := heading3 sub_cat ++ nl in
  let s := strip l (str " " ++ nl) in
  negb (contains l IGNORE_END_LINE) && negb (contains l IGNORE_START_LINE)
  && startswith s (str "===")
  && bool_decide (sub_heading s = (Some main_cat, Some sub_cat))
  && plain (heading3 sub_cat).

(** The buckets of the static tree, in the order of the serializer. *)
Definition cat_buckets (mc : pystr * list pystr) : list (pystr * option pystr) :=
  (fst mc, None) :: map (fun s => (fst mc, Some s)) (snd mc).

Definition tree_buckets : list (pystr * option pystr) :=
  concat (map cat_buckets BUGFIX_CATEGORIES).

(** The parser fed with the entries of a list, of a bucket of a log, of
    the buckets of a list. *)
Definition parse_entries (release_log : log) (main_cat sub_cat : option pystr)
    (es : list pystr) : log :=
  fold_left (fun release_log e => parse_entry release_log main_cat sub_cat e)
    es release_log.

Definition parse_bucket (m : log) (release_log : log)
    (b : pystr * option pystr) : log :=
  parse_entries
    (parse_entries release_log (Some (fst b)) (snd b)
       (entries m (Some (fst b)) (snd b) false))
    (Some (fst b)) (snd b) (entries m (Some (fst b)) (snd b) true).

Definition replay (m : log) (release_log : log)
    (bs : list (pystr * option pystr)) : log :=
  fold_left (parse_bucket m) bs release_log.

(** The number of entries of one kind in the buckets of the tree. *)
Definition total (release_log : log) (unreported : bool) : nat :=
  sum_list
    (map (fun b : pystr * option pystr =>
            length (entries release_log (Some (fst b)) (snd b) unreported))
       tree_buckets).

(** What holds of a log built by the mutation alone, from no file. *)
Record built (m : log) : Prop := Built {
  built_no_none : rl_cats m !! None = None;
  built_in_tree :
    forall main_cat sub_cat u e,
      e ∈ entries m main_cat sub_cat u ->
      exists mc, main_cat = Some mc /\ (mc, sub_cat) ∈ tree_buckets;
  built_lines :
    forall main_cat sub_cat u e,
      e ∈ entries m main_cat sub_cat u -> line_ok u e;
  built_count :
    rl_count m = (Z.of_nat (total m false), Z.of_nat (total m true));
  built_rstates :
    forall rs l, rl_rstates m !! rs = Some l -> l = []
}.

(** The bucket is one of a list of buckets of the tree. *)
Definition in_buckets (k s : option pystr) (bs : list (pystr * option pystr))
  : bool :=
  match k with
  | Some mc => bool_decide ((mc, s) ∈ bs)
  | None => false
  end.

(** The counters agree with the buckets. *)
Definition counts_match (release_log : log) : Prop :=
  rl_count release_log
  = (Z.of_nat (total release_log false), Z.of_nat (total release_log true)).

(** The lines of the file of a built log, after its header. *)
Definition opening_block (count : Z * Z) : list pystr :=
  [IGNORE_START_LINE; total_line count; []; note_line; IGNORE_END_LINE; []].

Definition closing_block : list pystr :=
  [IGNORE_START_LINE; []; str "<hr/>"; []; IGNORE_END_LINE].

Definition section_lines (m : log) : list pystr :=
  concat (map (main_section m) BUGFIX_CATEGORIES).

Definition blank_if_empty (ls : list pystr) : list pystr :=
  match ls with
  | [] => [[]]
  | _ :: _ => ls
  end.

(** The log the parser starts the sections with. *)
Definition parsed_start (header : pystr) (rstates : gmap pystr (list pystr))
  : log :=
  {| rl_header := header; rl_count := (0, 0); rl_rstates := rstates;
     rl_cats := ∅ |}.

(** A commit whose message already carries the bug-report link. *)
Definition commit_linked : commit :=
  Commit (str "00112233445566") (str "dev") (str "Fix {{BugReport|5}} again").

Definition linked_log : log :=
  fst (add_entries sample_log [(commit_linked, (1, Some 2), Some (str "alpha"))]).

Definition sample_log3 : log := fst (add_entries sample_log sample_calls).

(** The log read back from the file written for [m]. *)
Definition read_back (m : log) : log :=
  release_log_init (Some (render m [[]])) (str "main") (str "2.79")
    (str "0123456789abcdef") (str "fedcba9876543210") (Some (str "alpha")) [[]].

(** ** Bug tokens *)

(** A string without a bug token: no ["T"] directly followed by a digit. *)
Definition hd_digit (s : pystr) : bool :=
  match s with
  | c :: _ => is_digit c
  | [] => false
  end.

Fixpoint no_token (s : pystr) : bool :=
  match s with
  | c :: t => negb (Ascii.eqb c "T" && hd_digit t) && no_token t
  | [] => true
  end.

Definition ends_T (s : pystr) : bool :=
  match last s with
  | Some c => Ascii.eqb c "T"
  | None => false
  end.

(** ** What a log holds *)

(** The sum of a measure over the values of a dictionary. *)
Definition map_sum {K : Type} `{Countable K} {A : Type} (g : A -> nat)
    (m : gmap K A) : nat :=
  map_fold (fun _ x n => (g x + n)%nat) 0%nat m.

(** The number of entries in the lists of one dictionary, and the number
    of entries of one kind (reported or unreported) in the whole log. *)
Definition bucket_size (d : bucket) : nat := map_sum (@length pystr) d.

Definition held (release_log : log) (unreported : bool) : nat :=
  map_sum
    (fun data : bucket * bucket =>
       bucket_size ((if unreported then snd else fst) data))
    (rl_cats release_log).

(** The two counters say how many entries the log holds. *)
Definition counted (release_log : log) : Prop :=
  rl_count release_log
  = (Z.of_nat (held release_log false), Z.of_nat (held release_log true)).

(** ** The messages of a release log: [release_log_extract_messages] *)

(** The loop over the lines of the file, with its two flags and the set
    it fills. *)
Fixpoint extract_loop (ignore header : bool) (messages : gset pystr)
    (ls : list pystr) : gset pystr :=
  match ls with
  | [] => messages
  | l :: ls' =>
      if contains l IGNORE_END_LINE then extract_loop false header messages ls'
      else if ignore || contains l IGNORE_START_LINE then
        extract_loop true header messages ls'
      else
        let l := strip l (str " " ++ nl) in
        if header && negb (startswith l (str "==")) then
          extract_loop ignore header messages ls'
        else if negb (startswith l (str "==")) && contains l (str "Fix ") then
          extract_loop ignore false ({[gen_commit_unprettify l]} ∪ messages) ls'
        else extract_loop ignore false messages ls'
  end.

(** [existing] is the content of the file at [path] when there is one. *)
Definition release_log_extract_messages (existing : option pystr)
  : gset pystr :=
  match existing with
  | None => ∅
  | Some text => extract_loop false true ∅ (file_lines text)
  end.

(** The first line of a file that is not in an ignore block, stripped as
    the loops strip it. *)
Fixpoint first_line (ignore : bool) (ls : list pystr) : option pystr :=
  match ls with
  | [] => None
  | l :: ls' =>
      if contains l IGNORE_END_LINE then first_line false ls'
      else if ignore || contains l IGNORE_START_LINE then first_line true ls'
      else Some (strip l (str " " ++ nl))
  end.

(** ** The commit filter: [match] of [main] *)

(** [str.lower()] on a code point below 256. *)
Definition py_lower (c : ascii) : ascii :=
  if in_range 65 90 c || (in_range 192 222 c && negb (code c =? 215)%N)
  then ascii_of_N (code c + 32)
  else c.

(** [s.split()]: the runs of [s] without white space; [word] is the run
    being read. *)
Fixpoint split_ws (s word : pystr) : list pystr :=
  match s with
  | [] => match word with
          | [] => []
          | _ :: _ => [word]
          end
  | c :: s' =>
      if is_space c then
        match word with
        | [] => split_ws s' []
        | _ :: _ => word :: split_ws s' []
        end
      else split_ws s' (word ++ [c])
  end.

(** [any(w for w in first_line.split() if w.lower().startswith(prefixes))];
    [any] looks for a word that is not empty. *)
Definition any_word (prefixes : list pystr) (first_line : pystr) : bool :=
  existsb (fun w : pystr => negb (bool_decide (w = [])))
    (List.filter (fun w => existsb (startswith (map py_lower w)) prefixes)
       (split_ws first_line [])).

(** The arguments of the command line that the filter reads; [None] is
    the value of an option that was not given. *)
Record args : Type := Args {
  filter_type : option pystr;
  arg_author : option pystr;
  filter_exclude_sha1_list : gset pystr;
  filter_exclude_releaselogs : gset pystr
}.

(** [not x] for an optional string. *)
Definition falsy (x : option pystr) : bool :=
  match x with
  | None | Some [] => true
  | Some (_ :: _) => false
  end.

(** What a call of the filter comes to: a Boolean, a failed [assert], or
    the [Exception] for a filter type that is not known. *)
Inductive verdict : Type :=
| Returns (b : bool)
| AssertionError
| UnknownFilterType.

(** The tests that follow the one on the filter type. *)
Definition match_rest (a : args) (c : commit) : verdict :=
  if negb (falsy (arg_author a))
     && negb (bool_decide (arg_author a = Some (author c)))
  then Returns false
  else if bool_decide (sha1 c ∈ filter_exclude_sha1_list a) then Returns false
  else if negb (bool_decide (filter_exclude_releaselogs a = ∅))
          && bool_decide
               (fst (gen_commit_message_pretty c) ∈ filter_exclude_releaselogs a)
  then Returns false
  else Returns true.

Definition match_ (a : args) (c : commit) : verdict :=
  if falsy (filter_type a) then match_rest a c
  else if bool_decide (filter_type a = Some (str "BUGFIX")) then
    let first_line :=
      replace_char (strip (split_head (body c) (nl ++ nl)) (str " :.;-" ++ nl))
        newline " " in
    if (len first_line =? 0) then AssertionError
    else if any_word [str "fix"; str "bugfix"; str "bug-fix"] first_line
    then match_rest a c
    else Returns false
  else if bool_decide (filter_type a = Some (str "NOISE")) then
    let first_line := split_head (strip_ws (body c)) nl in
    if (len first_line =? 0) then AssertionError
    else if any_word [str "cleanup"] first_line then match_rest a c
    else Returns false
  else UnknownFilterType.

(** [messages |= release_log_extract_messages(path)] for each path. *)
Definition exclude_messages (files : list (option pystr)) : gset pystr :=
  fold_left (fun messages f => messages ∪ release_log_extract_messages f)
    files ∅.

(** ** The review loop of [main]

    The keys pressed are a list of bytes, one for each call of [getch];
    when the list ends the loop is still waiting for a key.  What the loop
    prints is not part of the model. *)

Definition ctrl_c : ascii := ascii_of_N 3.
Definition backspace : ascii := ascii_of_N 127.

(** [get_cat(ch, max_idx)]: [int(ch)] returns for one byte that is a
    decimal digit, and raises for any other byte. *)
Definition get_cat (ch : ascii) (max_idx : Z) : option Z :=
  let cat := if is_digit ch then Z.of_N (code ch) - 48 else -1 in
  if (0 <=? cat) && (cat <? max_idx) then Some cat else None.

(** How the loop for the category ends: [Chosen] is a [break] with
    [done_main] still true, [Back] the [break] on backspace, [Exit] the
    [return], [Failed] an exception; [Starved] is the end of the keys. *)
Inductive selection : Type :=
| Chosen (c1 : Z) (c2 : option Z)
| Back
| Exit
| Failed (e : pyexn)
| Starved.

(** The loop for the category, from the values of [c1] and [c2]; [k] is
    what follows the loop, given how it ended and the keys left. *)
Fixpoint select_category {R : Type} (k : selection -> list ascii -> R)
    (c1 c2 : option Z) (keys : list ascii) {struct keys} : R :=
  let read :=
    match keys with
    | [] => k Starved keys
    | ch :: keys' =>
        if Ascii.eqb ch backspace then k Back keys'
        else if Ascii.eqb ch ctrl_c || Ascii.eqb ch "x" then k Exit keys'
        else if Ascii.eqb ch "v" then select_category k c1 c2 keys'
        else if Ascii.eqb ch "m" then select_category k c1 c2 keys'
        else
          match c1, c2 with
          | None, _ =>
              select_category k
                (get_cat ch (Z.of_nat (length BUGFIX_CATEGORIES))) c2 keys'
          | Some i, None =>
              if Ascii.eqb ch cr then k (Chosen i c2) keys'
              else if Ascii.eqb ch backspace then select_category k None c2 keys'
              else
                match py_index BUGFIX_CATEGORIES i with
                | Raise e => k (Failed e) keys'
                | Ok m_cat =>
                    match get_cat ch (Z.of_nat (length (snd m_cat))) with
                    | Some j => k (Chosen i (Some j)) keys'
                    | None => select_category k c1 None keys'
                    end
                end
          | Some _, Some _ => select_category k c1 c2 keys'
          end
    end in
  match c1 with
  | None => read
  | Some i =>
      match py_index BUGFIX_CATEGORIES i with
      | Raise e => k (Failed e) keys
      | Ok m_cat =>
          match snd m_cat with
          | [] => k (Chosen i c2) keys
          | _ :: _ => read
          end
      end
  end.

(** [str.ljust(n)], which is what [%-30s] does to its operand. *)
Definition ljust (s : pystr) (n : nat) : pystr :=
  s ++ repeat " "%char (n - length s).

(** [gen_commit_log]; [date] is [c.date.strftime("%Y/%m/%d")]. *)
Definition gen_commit_log (c : commit) (date : pystr) : pystr :=
  str "rB" ++ take 10 (sha1 c) ++ str "   " ++ date ++ str "   "
  ++ ljust (author c) 30 ++ str "   " ++ gen_commit_summary c.

(** The options of the command line that the loop reads. *)
Record flags : Type := Flags {
  accept_log : bool;
  accept_pretty : bool;
  accept_releaselog : bool;
  blender_rstate : pystr;
  blender_rstate_list : list pystr
}.

(** The variables of the loop and the files it writes; the release-log
    file is [None] until the loop has written it. *)
Record review : Type := Review {
  r_log : log;
  tot_accept : Z;
  tot_reject : Z;
  accept_file : pystr;
  reject_file : pystr;
  accept_log_file : pystr;
  accept_pretty_file : pystr;
  accept_releaselog_file : option pystr
}.

(** How [main] ends: after the last commit, on [Ctrl+C] or [x], with an
    exception, or, in the model, still waiting for a key. *)
Inductive ending : Type :=
| Finished
| Exited
| Crashed (e : pyexn)
| Waiting.

Definition count_accept (st : review) (n : Z) : review :=
  Review (r_log st) (tot_accept st + n) (tot_reject st) (accept_file st)
    (reject_file st) (accept_log_file st) (accept_pretty_file st)
    (accept_releaselog_file st).

(** The end of the body of the [for] loop for a rejected commit. *)
Definition write_reject (st : review) (c : commit) : review :=
  Review (r_log st) (tot_accept st) (tot_reject st + 1) (accept_file st)
    (reject_file st ++ sha1 c ++ nl) (accept_log_file st)
    (accept_pretty_file st) (accept_releaselog_file st).

(** The end of the body of the [for] loop for an accepted commit: the
    three [open] blocks in turn. *)
Definition write_accept (f : flags) (st : review) (c : commit) (date : pystr)
  : review * result unit :=
  let st :=
    Review (r_log st) (tot_accept st) (tot_reject st)
      (accept_file st ++ sha1 c ++ nl) (reject_file st) (accept_log_file st)
      (accept_pretty_file st) (accept_releaselog_file st) in
  match
    (if accept_pretty f then
       match gen_commit_pretty c (Some (blender_rstate f)) with
       | Ok (entry, _) =>
           Ok (Review (r_log st) (tot_accept st) (tot_reject st)
                 (accept_file st) (reject_file st) (accept_log_file st)
                 (accept_pretty_file st ++ entry ++ nl)
                 (accept_releaselog_file st))
       | Raise e => Raise e
       end
     else Ok st)
  with
  | Raise e => (st, Raise e)
  | Ok st =>
      if accept_log f then
        (Review (r_log st) (tot_accept st) (tot_reject st) (accept_file st)
           (reject_file st)
           (accept_log_file st ++ gen_commit_log c date ++ nl)
           (accept_pretty_file st) (accept_releaselog_file st), Ok tt)
      else (st, Ok tt)
  end.

(** The call of [write_release_log] from the loop. *)
Definition write_log (f : flags) (st : review) (c : commit) (cat : Z * option Z)
  : review * result unit :=
  match
    write_release_log (r_log st) c cat (Some (blender_rstate f))
      (blender_rstate_list f)
  with
  | (release_log, Ok text) =>
      (Review release_log (tot_accept st) (tot_reject st) (accept_file st)
         (reject_file st) (accept_log_file st) (accept_pretty_file st)
         (Some text), Ok tt)
  | (release_log, Raise e) =>
      (Review release_log (tot_accept st) (tot_reject st) (accept_file st)
         (reject_file st) (accept_log_file st) (accept_pretty_file st)
         (accept_releaselog_file st), Raise e)
  end.

(** The [for] loop over the commits, each with its date, and the [while]
    loop over the keys inside it. *)
Fixpoint review_commits (f : flags) (st : review)
    (commits : list (commit * pystr)) (keys : list ascii) {struct keys}
  : review * ending :=
  match commits with
  | [] => (st, Finished)
  | (c, date) :: commits' =>
      match keys with
      | [] => (st, Waiting)
      | ch :: keys' =>
          if Ascii.eqb ch ctrl_c || Ascii.eqb ch "x" then (st, Exited)
          else if Ascii.eqb ch " " then
            let st := count_accept st 1 in
            if accept_releaselog f then
              select_category
                (fun sel keys' =>
                   match sel with
                   | Back => review_commits f (count_accept st (-1)) commits keys'
                   | Exit => (st, Exited)
                   | Failed e => (st, Crashed e)
                   | Starved => (st, Waiting)
                   | Chosen c1 c2 =>
                       match write_log f st c (c1, c2) with
                       | (st, Raise e) => (st, Crashed e)
                       | (st, Ok _) =>
                           match write_accept f st c date with
                           | (st, Raise e) => (st, Crashed e)
                           | (st, Ok _) => review_commits f st commits' keys'
                           end
                       end
                   end)
                None None keys'
            else
              match write_accept f st c date with
              | (st, Raise e) => (st, Crashed e)
              | (st, Ok _) => review_commits f st commits' keys'
              end
          else if Ascii.eqb ch cr then
            review_commits f (write_reject st c) commits' keys'
          else review_commits f st commits keys'
      end
  end.

(** The loop for the category on its own: how it ends, and the keys
    left. *)
Definition select_outcome (c1 c2 : option Z) (keys : list ascii)
  : selection * list ascii :=
  select_category (fun sel keys' => (sel, keys')) c1 c2 keys.

(** The identifiers to skip: those given on the command line, and the
    words of the files that exist. *)
Definition exclude_sha1 (given : list pystr) (files : list (option pystr))
  : gset pystr :=
  list_to_set
    (fold_left
       (fun l file =>
          match file with
          | Some text =>
              l ++ concat (map (fun line => split_ws line []) (file_lines text))
          | None => l
          end)
       files given).

(** The key of a decimal digit. *)
Definition digit_key (n : Z) : ascii := ascii_of_N (48 + Z.to_N n).

(** A finished review, commit by commit: what the loop has done to its
    variables and to the files once it has left a commit behind, whatever
    keys it took to get there. *)
Inductive reviewed (f : flags) : review -> list (commit * pystr) -> review -> Prop :=
| reviewed_nil st : reviewed f st [] st
| reviewed_reject st c date commits st' :
    reviewed f (write_reject st c) commits st' ->
    reviewed f st ((c, date) :: commits) st'
| reviewed_accept st c date commits st1 st' :
    accept_releaselog f = false ->
    write_accept f (count_accept st 1) c date = (st1, Ok tt) ->
    reviewed f st1 commits st' ->
    reviewed f st ((c, date) :: commits) st'
| reviewed_accept_log st c date cat commits st1 st2 st' :
    accept_releaselog f = true ->
    write_log f (count_accept st 1) c cat = (st1, Ok tt) ->
    write_accept f st1 c date = (st2, Ok tt) ->
    reviewed f st2 commits st' ->
    reviewed f st ((c, date) :: commits) st'.

(** The lines the loop adds to the files for a list of commits. *)
Definition sha1_lines (commits : list (commit * pystr)) : pystr :=
  concat (map (fun cd : commit * pystr => sha1 (fst cd) ++ nl) commits).

Definition log_lines (commits : list (commit * pystr)) : pystr :=
  concat (map (fun cd : commit * pystr =>
                 gen_commit_log (fst cd) (snd cd) ++ nl) commits).

(** The two identifier files, the log file and the two totals, after the
    commits of [accepted] were accepted and those of [rejected]
    rejected. *)
Definition ledger (f : flags) (st st' : review)
    (accepted rejected : list (commit * pystr)) : Prop :=
  accept_file st' = accept_file st ++ sha1_lines accepted
  /\ reject_file st' = reject_file st ++ sha1_lines rejected
  /\ tot_accept st' = tot_accept st + Z.of_nat (length accepted)
  /\ tot_reject st' = tot_reject st + Z.of_nat (length rejected)
  /\ accept_log_file st'
     = accept_log_file st ++ (if accept_log f then log_lines accepted else []).

(** A text without carriage return whose last line, if any, is ended. *)
Definition complete_text (s : pystr) : bool :=
  negb (mem cr s)
  && match rev s with
     | [] => true
     | c :: _ => Ascii.eqb c newline
     end.

(** A string that [str.split] gives back as one word. *)
Definition one_word (s : pystr) : bool :=
  negb (bool_decide (s = [])) && forallb (fun c => negb (is_space c)) s.

(** A review of two commits with every file asked for: the first commit
    is accepted under "Data / Geometry", "Mesh Editing", the second is
    rejected. *)
Definition sample_flags : flags :=
  Flags true true true (str "alpha") [[]].

Definition sample_review : review := Review sample_log 0 0 [] [] [] [] None.

Definition sample_commits : list (commit * pystr) :=
  [ (commit_crash, str "2017/09/11"); (commit_cleanup, str "2017/09/12") ].

Definition sample_keys : list ascii := [" "; "1"; "2"; cr]%char.

Definition sample_reviewed : review :=
  fst (review_commits sample_flags sample_review sample_commits sample_keys).

(** The same review with a release state of the list. *)
Definition sample_flags_rc : flags :=
  Flags true true true (str "RC2") [str "RC2"; str "RC3"].

Definition sample_review_rc : review :=
  Review sample_log_rc 0 0 [] [] [] [] None.

(** ** The header the parser carries over *)

(** The paragraph that ends the header of a log read from a file. *)
Definition changes_paragraph (rstate : option pystr)
    (start_sha1 end_sha1 branch : pystr) : pystr :=
  match rstate with
  | Some rs => str "[" ++ rs ++ str "] "
  | None => []
  end
  ++ str "Changes from revision {{GitCommit|" ++ take 10 start_sha1
  ++ str "}} to {{GitCommit|" ++ take 10 end_sha1
  ++ str "}}, inclusive (''" ++ branch ++ str "'' branch)." ++ nl ++ nl.

(** The header lines the inner loop has collected when it ends, and the
    header lines of a file, if it has a line outside the ignore
    blocks. *)
Fixpoint header_tail (ignore : bool) (header : list pystr) (ls : list pystr)
  : list pystr :=
  match ls with
  | [] => header
  | hl :: ls' =>
      if contains hl IGNORE_END_LINE then header_tail false header ls'
      else if ignore || contains hl IGNORE_START_LINE then
        header_tail true header ls'
      else
        let hl := strip hl (str " " ++ nl) in
        if startswith hl (str "==") then header
        else header_tail ignore (header ++ [hl]) ls'
  end.

Fixpoint header_lines (ignore : bool) (ls : list pystr) : option (list pystr) :=
  match ls with
  | [] => None
  | l :: ls' =>
      if contains l IGNORE_END_LINE then header_lines false ls'
      else if ignore || contains l IGNORE_START_LINE then header_lines true ls'
      else Some (header_tail ignore [strip l (str " " ++ nl)] ls')
  end.

(** A header line that the parser keeps as it is: no marker, no heading,
    nothing to strip but the end of the line. *)
Definition header_line_kept (l : pystr) : bool :=
  negb (contains l IGNORE_END_LINE)
  && negb (contains l IGNORE_START_LINE)
  && not_heading l
  && bool_decide (strip l (str " " ++ nl) ++ nl = l).

Definition header_kept (h : pystr) : bool :=
  negb (mem cr h)
  && match rev h with
     | [] => true
     | c :: _ => Ascii.eqb c newline
     end
  && forallb header_line_kept (split_lines h).

(** * Properties *)

(** ** Facts about the string operations *)

Section StringFacts.

Implicit Types (s p t pre : pystr) (c : ascii).

Lemma startswith_app s t : startswith (s ++ t) s = true.
Proof.
  induction s as [|c s IH]; simpl; [done|].
  by rewrite Ascii.eqb_refl.
Qed.

Lemma startswith_prefix s p : startswith s p = true -> exists t, s = p ++ t.
Proof.
  revert s; induction p as [|a p IH]; intros s H.
  - by exists s.
  - destruct s as [|b s]; [done|]. simpl in H.
    apply andb_true_iff in H as [Hab H].
    apply Ascii.eqb_eq in Hab as ->.
    destruct (IH _ H) as [t ->]. by exists t.
Qed.

Lemma mem_false_not_in c s : mem c s = false -> c ∉ s.
Proof.
  unfold mem. induction s as [|d s IH]; simpl; intros H Hin.
  - by apply not_elem_of_nil in Hin.
  - apply orb_false_iff in H as [Hcd H].
    apply elem_of_cons in Hin as [->|Hin].
    + by rewrite Ascii.eqb_refl in Hcd.
    + by apply IH.
Qed.

(** A string without the first character of [p] has no occurrence of [p]. *)
Lemma contains_head_absent s a p : mem a s = false -> contains s (a :: p) = false.
Proof.
  induction s as [|b s IH]; simpl; [done|].
  intros H. apply orb_false_iff in H as [Hab H].
  rewrite (IH H), orb_false_r.
  by rewrite Hab.
Qed.

Lemma contains_cons_false s c p :
  contains (c :: s) p = false -> contains s p = false.
Proof. simpl. intros H. by apply orb_false_iff in H as [_ H]. Qed.

Lemma contains_false_startswith s p : contains s p = false -> startswith s p = false.
Proof. destruct s; simpl; intros H; by apply orb_false_iff in H as [H _]. Qed.

(** The first occurrence of a character. *)
Lemma find_from_char pre c t i :
  mem c pre = false -> find_from (pre ++ c :: t) [c] i = i + len pre.
Proof.
  revert i; induction pre as [|d pre IH]; intros i H.
  - simpl. rewrite Ascii.eqb_refl. unfold len; simpl; lia.
  - simpl in H. apply orb_false_iff in H as [Hcd H].
    cbn [app find_from startswith].
    rewrite Hcd. simpl. rewrite IH by done. unfold len; simpl length. lia.
Qed.

Lemma rfind_from_absent s p i : contains s p = false -> rfind_from s p i = -1.
Proof.
  revert i; induction s as [|c s IH]; intros i H.
  - simpl in *. apply orb_false_iff in H as [H _]. by rewrite H.
  - cbn [rfind_from].
    rewrite IH by (by apply contains_cons_false in H).
    apply contains_false_startswith in H. by rewrite H.
Qed.

(** The last occurrence: an occurrence with none starting after it. *)
Lemma rfind_from_last pre c s p i :
  0 <= i -> startswith (c :: s) p = true -> contains s p = false ->
  rfind_from (pre ++ c :: s) p i = i + len pre.
Proof.
  revert i; induction pre as [|d pre IH]; intros i Hi Hs Hno.
  - cbn [app rfind_from]. rewrite rfind_from_absent by done.
    simpl (0 <=? -1). cbv iota. rewrite Hs. unfold len; simpl; lia.
  - cbn [app rfind_from]. rewrite IH by (done || lia).
    unfold len; simpl length.
    destruct (Z.leb_spec 0 (i + 1 + Z.of_nat (length pre))); lia.
Qed.

Lemma slice_from_app s t : slice_from (s ++ t) (len s) = t.
Proof.
  unfold slice_from, slice_bound, len.
  destruct (Z.ltb_spec (Z.of_nat (length s)) 0); [lia|].
  rewrite Nat2Z.id. by rewrite drop_app_length.
Qed.

Lemma slice_to_app s t : slice_to (s ++ t) (len s) = s.
Proof.
  unfold slice_to, slice_bound, len.
  destruct (Z.ltb_spec (Z.of_nat (length s)) 0); [lia|].
  rewrite Nat2Z.id. by rewrite take_app_length.
Qed.

Lemma len_app s t : len (s ++ t) = len s + len t.
Proof. unfold len. rewrite length_app. lia. Qed.

Lemma len_nonneg s : 0 <= len s.
Proof. unfold len. lia. Qed.

End StringFacts.

(** ** The renderer of one entry *)

Lemma gen_commit_pretty_some c rs :
  gen_commit_pretty c (Some rs)
  = Ok (entry_text rs (fst (gen_commit_message_pretty c)) (take 10 (sha1 c)),
        snd (gen_commit_message_pretty c)).
Proof.
  unfold gen_commit_pretty.
  by destruct (gen_commit_message_pretty c) as [b u].
Qed.

(** The last line of the entry renderer gives [%] three operands for two
    conversions. *)
Lemma gen_commit_pretty_plain_raises c :
  gen_commit_pretty c None = Raise TypeError.
Proof.
  unfold gen_commit_pretty.
  by destruct (gen_commit_message_pretty c) as [b u].
Qed.

(** C4: without a release state the entry renderer does not return the
    unbracketed line: the format has two conversions for three operands,
    and the call raises [TypeError], whatever the commit. *)
Theorem gen_commit_pretty_none_raises c :
  gen_commit_pretty c None = Raise TypeError.
Proof.
  unfold gen_commit_pretty.
  by destruct (gen_commit_message_pretty c) as [b u].
Qed.

Lemma is_hex_not_paren c : is_hex c = true -> Ascii.eqb "(" c = false.
Proof.
  destruct c as [[] [] [] [] [] [] [] []]; vm_compute; congruence.
Qed.

Lemma hex_no_paren sha : forallb is_hex sha = true -> mem "(" sha = false.
Proof.
  unfold mem. induction sha as [|c sha IH]; [done|].
  cbn [forallb existsb]. intros [Hc H]%andb_true_iff.
  by rewrite (is_hex_not_paren _ Hc), IH.
Qed.

Lemma mem_app c s t : mem c (s ++ t) = mem c s || mem c t.
Proof. unfold mem. apply existsb_app. Qed.

Lemma unprettify_entry_text rs prose sha :
  mem "]" rs = false -> forallb is_hex sha = true ->
  gen_commit_unprettify (entry_text rs prose sha) = prose.
Proof.
  intros Hrs Hsha. unfold gen_commit_unprettify, entry_text.
  change (startswith (str "* [" ++ rs ++ str "] " ++ prose
                      ++ str " ({{GitCommit|rB" ++ sha ++ str "}}).")
            (str "* [")) with true.
  cbv iota.
  assert (Hfind : find (str "* [" ++ rs ++ str "] " ++ prose
                        ++ str " ({{GitCommit|rB" ++ sha ++ str "}}).") (str "]")
                  = 3 + len rs).
  { unfold find.
    change (str "* [" ++ rs ++ str "] " ++ prose
            ++ str " ({{GitCommit|rB" ++ sha ++ str "}}).")
      with ((str "* [" ++ rs) ++ "]"%char
            :: (str " " ++ prose ++ str " ({{GitCommit|rB" ++ sha ++ str "}}).")).
    change (str "]") with ["]"%char].
    rewrite find_from_char.
    - rewrite len_app. reflexivity.
    - rewrite mem_app, Hrs. reflexivity. }
  rewrite Hfind.
  pose proof (len_nonneg rs) as Hn.
  destruct (Z.ltb_spec 0 (3 + len rs)); [|lia].
  replace (3 + len rs + 2) with (len (str "* [" ++ rs ++ str "] "))
    by (rewrite !len_app; unfold len; simpl; lia).
  rewrite (app_assoc (str "* [")), (app_assoc _ (str "] ")),
    <- (app_assoc (str "* [")).
  rewrite slice_from_app.
  set (tail := str "{{GitCommit|rB" ++ sha ++ str "}}).").
  assert (Hr : rfind (prose ++ str " ({{GitCommit|rB" ++ sha ++ str "}}).")
                 (str "({{GitCommit|rB") = len prose + 1).
  { unfold rfind.
    change (prose ++ str " ({{GitCommit|rB" ++ sha ++ str "}}).")
      with (prose ++ " "%char :: "("%char :: tail).
    rewrite (cons_middle " "%char), app_assoc.
    rewrite rfind_from_last.
    - rewrite len_app. unfold len; simpl; lia.
    - lia.
    - reflexivity.
    - apply contains_head_absent. unfold tail.
      rewrite !mem_app, (hex_no_paren _ Hsha). reflexivity. }
  rewrite Hr.
  pose proof (len_nonneg prose).
  destruct (Z.ltb_spec 0 (len prose + 1)); [|lia].
  replace (len prose + 1 - 1) with (len prose) by lia.
  apply slice_to_app.
Qed.

(** C7, as stated, fails: with a release state that holds a closing
    bracket the renderer produces a line that [gen_commit_unprettify] does
    not take back to the prose. *)
Lemma unprettify_bracket_state_counterexample :
  exists entry u,
    gen_commit_pretty commit_leak (Some (str "a]b")) = Ok (entry, u)
    /\ gen_commit_unprettify entry <> fst (gen_commit_message_pretty commit_leak).
Proof.
  eexists _, _. split; [apply gen_commit_pretty_some|].
  vm_compute. discriminate.
Qed.

(** C7 (amended): for every entry the renderer produces from a release
    state without a closing bracket and a hexadecimal short id,
    [gen_commit_unprettify] gives back exactly the prose of the message
    transformer. *)
Theorem gen_commit_unprettify_inverse c rs entry u :
  gen_commit_pretty c (Some rs) = Ok (entry, u) ->
  mem "]" rs = false ->
  forallb is_hex (take 10 (sha1 c)) = true ->
  gen_commit_unprettify entry = fst (gen_commit_message_pretty c).
Proof.
  rewrite gen_commit_pretty_some. intros [= <- _] Hrs Hsha.
  by apply unprettify_entry_text.
Qed.

Lemma gen_commit_unprettify_inverse_witness :
  gen_commit_unprettify
    (str "* [RC2] Fix {{BugReport|999}}: leak ({{GitCommit|rBabc1234567}}).")
  = str "Fix {{BugReport|999}}: leak".
Proof.
  apply (gen_commit_unprettify_inverse commit_leak (str "RC2") _ false);
    reflexivity.
Defined.

(** ** Substitution where nothing matches *)

Lemma search_false_inv {G : Type} (m : pystr -> option (G * nat)) c s :
  Re.search m (c :: s) = false -> m (c :: s) = None /\ Re.search m s = false.
Proof.
  cbn [Re.search]. destruct (m (c :: s)); [discriminate|done].
Qed.

Lemma sub_no_match {G : Type} (m : pystr -> option (G * nat)) repl s :
  Re.search m s = false -> Re.sub m repl s = s.
Proof.
  unfold Re.sub. induction s as [|c s IH]; [done|].
  intros [Hm Hs]%search_false_inv.
  cbn [Re.sub_from]. rewrite Hm. f_equal. by apply IH.
Qed.

Lemma pystr_eqb_refl s : PyStr.eqb s s = true.
Proof. unfold PyStr.eqb. by apply bool_decide_eq_true. Qed.

(** ** The message transformer without a fix pattern *)

Lemma message_pretty_no_fix c :
  Re.search Re.re_prettify (gen_commit_summary c) = false ->
  gen_commit_message_pretty c
  = (Re.sub Re.re_commitify repl_commitify
       (Re.sub Re.re_bugify repl_bugify
          (str "Fix unreported: " ++ gen_commit_summary c)),
     true).
Proof.
  intros H. unfold gen_commit_message_pretty.
  rewrite (sub_no_match _ _ _ H), pystr_eqb_refl. reflexivity.
Qed.

(** C5, as stated, fails: a commit with an empty summary makes the
    transformer return prose, and the entry renderer return an entry. *)
Lemma empty_summary_counterexample :
  gen_commit_summary commit_empty = []
  /\ gen_commit_message_pretty commit_empty = (str "Fix unreported: ", true)
  /\ gen_commit_pretty commit_empty (Some (str "alpha"))
     = Ok (str "* [alpha] Fix unreported:  ({{GitCommit|rB0011223344}}).", true).
Proof. by vm_compute. Qed.

(** C5 (amended): for every commit whose summary is empty the transformer
    does not fail; it returns the prose ["Fix unreported: "] and flags the
    commit as unreported. *)
Theorem gen_commit_message_pretty_empty c :
  gen_commit_summary c = [] ->
  gen_commit_message_pretty c = (str "Fix unreported: ", true).
Proof.
  intros H. rewrite message_pretty_no_fix; rewrite H; reflexivity.
Qed.

Lemma gen_commit_message_pretty_empty_witness :
  gen_commit_message_pretty (Commit [] [] (str " :.;-" ++ nl ++ nl ++ str "body"))
  = (str "Fix unreported: ", true).
Proof. apply gen_commit_message_pretty_empty. reflexivity. Defined.

(** C9, as stated, fails: a summary without a fix pattern but with a bare
    bug number is not returned whole behind the prefix. *)
Lemma unreported_prefix_counterexample :
  Re.search Re.re_prettify (gen_commit_summary commit_see) = false
  /\ fst (gen_commit_message_pretty commit_see)
     <> str "Fix unreported: " ++ gen_commit_summary commit_see.
Proof. split; [reflexivity|]. vm_compute. discriminate. Qed.

(** C9 (amended): the message of the example is rewritten as the
    specification says; and for every message whose summary holds no fix
    pattern the transformer flags it as unreported and returns the summary
    prefixed with ["Fix unreported: "], to which the bug-number and the
    commit-reference rewrites are then applied: the result is the prefixed
    summary itself when the prefixed summary holds neither token. *)
Theorem gen_commit_message_pretty_unreported :
  gen_commit_summary commit_crash = str "Fix T12345: crash on save"
  /\ gen_commit_message_pretty commit_crash
     = (str "Fix {{BugReport|12345}}: crash on save", false)
  /\ forall c,
       Re.search Re.re_prettify (gen_commit_summary c) = false ->
       gen_commit_message_pretty c
       = (Re.sub Re.re_commitify repl_commitify
            (Re.sub Re.re_bugify repl_bugify
               (str "Fix unreported: " ++ gen_commit_summary c)),
          true)
       /\ (Re.search Re.re_bugify
             (str "Fix unreported: " ++ gen_commit_summary c) = false ->
           Re.search Re.re_commitify
             (str "Fix unreported: " ++ gen_commit_summary c) = false ->
           gen_commit_message_pretty c
           = (str "Fix unreported: " ++ gen_commit_summary c, true)).
Proof.
  split; [reflexivity|]. split; [reflexivity|].
  intros c H. split; [by apply message_pretty_no_fix|].
  intros Hb Hc. rewrite message_pretty_no_fix by done.
  by rewrite (sub_no_match _ _ _ Hb), (sub_no_match _ _ _ Hc).
Qed.

Lemma gen_commit_message_pretty_unreported_witness :
  gen_commit_message_pretty commit_cleanup
  = (str "Fix unreported: Cleanup unused var", true).
Proof.
  destruct gen_commit_message_pretty_unreported as (_ & _ & H).
  destruct (H commit_cleanup eq_refl) as [_ H'].
  apply H'; reflexivity.
Defined.

(** ** Substitution over a concatenation *)

Section SubSplit.

Context {G : Type} (m : pystr -> option (G * nat)) (repl : G -> pystr).

Lemma sub_from_app a b k :
  bounded m -> stable_before m b -> (k <= length a)%nat ->
  Re.sub_from m repl (a ++ b) k
  = Re.sub_from m repl a k ++ Re.sub_from m repl b 0.
Proof.
  intros Hb Hs. revert k. induction a as [|c a IH]; intros k Hk.
  - simpl in Hk. by replace k with 0%nat by lia.
  - cbn [app Re.sub_from]. destruct k as [|k].
    + rewrite Hs. destruct (m (c :: a)) as [[g n]|] eqn:Hm.
      * apply Hb in Hm. simpl in Hm.
        rewrite IH by lia. by rewrite app_assoc.
      * by rewrite IH by lia.
    + simpl in Hk. apply IH. lia.
Qed.

Lemma sub_app a b :
  bounded m -> stable_before m b ->
  Re.sub m repl (a ++ b) = Re.sub m repl a ++ Re.sub m repl b.
Proof. intros. unfold Re.sub. apply sub_from_app; [done..|lia]. Qed.

Lemma sub_from_skip a b :
  Re.sub_from m repl (a ++ b) (length a) = Re.sub_from m repl b 0.
Proof. induction a as [|c a IH]; [done|]. apply IH. Qed.

(** Characters at which no match starts are copied. *)
Lemma sub_copy a b :
  (forall c t, c ∈ a -> m (c :: t) = None) ->
  Re.sub m repl (a ++ b) = a ++ Re.sub m repl b.
Proof.
  unfold Re.sub. induction a as [|c a IH]; intros H; [done|].
  cbn [app Re.sub_from]. rewrite H by (apply elem_of_cons; by left).
  f_equal. apply IH. intros d t Hd. apply H. apply elem_of_cons. by right.
Qed.

End SubSplit.

Lemma run_app_stop p a x t : p x = false -> Re.run p (a ++ x :: t) = Re.run p a.
Proof.
  intros Hx. induction a as [|c a IH]; simpl.
  - by rewrite Hx.
  - destruct (p c); [by rewrite IH|done].
Qed.

Lemma run_all p a x t :
  forallb p a = true -> p x = false -> Re.run p (a ++ x :: t) = a.
Proof.
  intros Ha Hx. induction a as [|c a IH]; simpl.
  - by rewrite Hx.
  - simpl in Ha. apply andb_true_iff in Ha as [-> Ha]. by rewrite IH.
Qed.

Lemma length_run p s : (length (Re.run p s) <= length s)%nat.
Proof.
  induction s as [|c s IH]; simpl; [lia|].
  destruct (p c); simpl; lia.
Qed.

(** *** [re_bugify] *)

Lemma re_bugify_bounded : bounded Re.re_bugify.
Proof.
  intros [|c s] g n; simpl; [done|].
  destruct (Ascii.eqb c "T"); [|done].
  pose proof (length_run is_digit s).
  destruct (Re.run is_digit s) eqn:E; [done|].
  intros [= <- <-]. simpl in *. lia.
Qed.

Lemma re_bugify_stable x t : is_digit x = false -> stable_before Re.re_bugify (x :: t).
Proof.
  intros Hx c a. simpl. by rewrite run_app_stop.
Qed.

Lemma re_bugify_not_T c t : Ascii.eqb c "T" = false -> Re.re_bugify (c :: t) = None.
Proof. simpl. by intros ->. Qed.

Lemma is_digit_not_T c : is_digit c = true -> Ascii.eqb c "T" = false.
Proof. destruct c as [[] [] [] [] [] [] [] []]; vm_compute; congruence. Qed.

Lemma bugify_keeps_marker pre ds post :
  forallb is_digit ds = true ->
  Re.sub Re.re_bugify repl_bugify (pre ++ repl_bugify ds ++ post)
  = Re.sub Re.re_bugify repl_bugify pre ++ repl_bugify ds
    ++ Re.sub Re.re_bugify repl_bugify post.
Proof.
  intros Hds.
  change (repl_bugify ds) with (str "{{BugReport|" ++ ds ++ str "}}").
  rewrite sub_app; [|apply re_bugify_bounded|by apply (re_bugify_stable "{")].
  f_equal. rewrite <- !app_assoc.
  rewrite (sub_copy _ _ (str "{{BugReport|")).
  2:{ intros c t Hc. apply re_bugify_not_T.
      repeat (apply elem_of_cons in Hc as [->|Hc]; [done|]).
      by apply elem_of_nil in Hc. }
  f_equal. rewrite sub_copy.
  2:{ intros c t Hc. apply re_bugify_not_T, is_digit_not_T.
      rewrite forallb_forall in Hds. apply Hds. by apply list_elem_of_In. }
  reflexivity.
Qed.

(** *** [re_commitify] *)

Lemma nonword_stops x :
  is_word x = false ->
  is_hex x = false /\ Ascii.eqb x "r" = false
  /\ mem x (str "B") = false /\ mem x (str "BA") = false
  /\ mem x (str "BAC") = false /\ mem x (str "BTS") = false.
Proof. destruct x as [[] [] [] [] [] [] [] []]; vm_compute; intuition congruence. Qed.

Lemma startswith_app_stop a x t alt :
  mem x alt = false -> startswith (a ++ x :: t) alt = startswith a alt.
Proof.
  revert a. induction alt as [|c alt IH]; intros a H; [done|].
  unfold mem in H. cbn [existsb] in H. apply orb_false_iff in H as [Hxc H].
  destruct a as [|d a]; cbn [app startswith].
  - rewrite Ascii.eqb_sym, Hxc. done.
  - by rewrite IH.
Qed.

Lemma startswith_length s p : startswith s p = true -> (length p <= length s)%nat.
Proof.
  intros [t ->]%startswith_prefix. rewrite length_app. lia.
Qed.

Lemma commit_alt_app a x t alt :
  is_hex x = false -> mem x alt = false ->
  Re.commit_alt (a ++ x :: t) alt = Re.commit_alt a alt.
Proof.
  intros Hx Halt. unfold Re.commit_alt.
  rewrite startswith_app_stop by done.
  destruct (startswith a alt) eqn:Hs; [|done].
  apply startswith_length in Hs.
  rewrite drop_app_le by done. by rewrite run_app_stop.
Qed.

Lemma re_commitify_stable x t :
  is_word x = false -> stable_before Re.re_commitify (x :: t).
Proof.
  intros Hx c a.
  destruct (nonword_stops x Hx) as (Hh & Hr & H1 & H2 & H3 & H4).
  destruct a as [|r a]; cbn [app Re.re_commitify].
  - by rewrite Hr, andb_false_r.
  - destruct (negb (is_word c) && Ascii.eqb r "r"); [|done].
    cbn [Re.first_alt].
    by rewrite !commit_alt_app.
Qed.

Lemma length_run_drop p n s : (n + length (Re.run p (drop n s)) <= length s \/ length s < n)%nat.
Proof.
  pose proof (length_run p (drop n s)) as H. rewrite length_drop in H. lia.
Qed.

Lemma commit_alt_bounded s alt g :
  Re.commit_alt s alt = Some g -> (length g <= length s)%nat.
Proof.
  unfold Re.commit_alt. destruct (startswith s alt) eqn:Hs; [|done].
  apply startswith_length in Hs.
  destruct (6 <=? _)%nat; [|done]. intros [= <-].
  rewrite length_app.
  pose proof (length_run is_hex (drop (length alt) s)) as H.
  rewrite length_drop in H. lia.
Qed.

Lemma first_alt_bounded s alts g :
  Re.first_alt s alts = Some g -> (length g <= length s)%nat.
Proof.
  induction alts as [|alt alts IH]; [done|]. cbn [Re.first_alt].
  destruct (Re.commit_alt s alt) eqn:E; [|done].
  intros [= <-]. by eapply commit_alt_bounded.
Qed.

Lemma re_commitify_bounded : bounded Re.re_commitify.
Proof.
  intros [|w [|r s]] g n; cbn [Re.re_commitify]; [done..|].
  destruct (negb (is_word w) && Ascii.eqb r "r"); [|done].
  destruct (Re.first_alt s _) eqn:E; [|done].
  apply first_alt_bounded in E. intros [= <- <-]. simpl. lia.
Qed.

Lemma sub_from_none {G : Type} (m : pystr -> option (G * nat)) repl c s :
  m (c :: s) = None ->
  Re.sub_from m repl (c :: s) 0 = c :: Re.sub_from m repl s 0.
Proof. cbn [Re.sub_from]. by intros ->. Qed.

Lemma sub_from_some {G : Type} (m : pystr -> option (G * nat)) repl c s g n :
  m (c :: s) = Some (g, n) ->
  Re.sub_from m repl (c :: s) 0 = repl g ++ Re.sub_from m repl s (Nat.pred n).
Proof. cbn [Re.sub_from]. by intros ->. Qed.

Lemma re_commitify_marker h t :
  forallb is_hex h = true -> (6 <= length h)%nat ->
  Re.re_commitify ("|"%char :: "r"%char :: "B"%char :: h ++ "}"%char :: t)
  = Some (str "rB" ++ h, (3 + length h)%nat).
Proof.
  intros Hh Hlen. cbn [Re.re_commitify Re.first_alt].
  change (negb (is_word "|") && Ascii.eqb "r" "r") with true. cbv iota.
  unfold Re.commit_alt at 1.
  change (startswith ("B"%char :: h ++ "}"%char :: t) (str "B")) with true.
  cbv iota. change (drop (length (str "B")) ("B"%char :: h ++ "}"%char :: t))
    with (h ++ "}"%char :: t).
  rewrite run_all by done.
  apply Nat.leb_le in Hlen. rewrite Hlen. reflexivity.
Qed.

Lemma commitify_rewraps_marker pre h post :
  forallb is_hex h = true -> (6 <= length h)%nat ->
  Re.sub Re.re_commitify repl_commitify
    (pre ++ repl_commitify (str "rB" ++ h) ++ post)
  = Re.sub Re.re_commitify repl_commitify pre
    ++ str "{{GitCommit" ++ repl_commitify (str "rB" ++ h)
    ++ Re.sub Re.re_commitify repl_commitify (str "}}" ++ post).
Proof.
  intros Hh Hlen.
  change (repl_commitify (str "rB" ++ h))
    with (str "{{GitCommit|rB" ++ h ++ str "}}") at 1.
  rewrite <- !app_assoc.
  rewrite (sub_app _ _ pre);
    [|apply re_commitify_bounded|apply (re_commitify_stable "{"); reflexivity].
  f_equal. unfold Re.sub.
  change (str "{{GitCommit|rB" ++ h ++ str "}}" ++ post)
    with ("{"%char :: "{"%char :: "G"%char :: "i"%char :: "t"%char :: "C"%char
          :: "o"%char :: "m"%char :: "m"%char :: "i"%char :: "t"%char
          :: "|"%char :: "r"%char :: "B"%char :: h ++ "}"%char :: "}"%char :: post).
  do 11 (rewrite sub_from_none by reflexivity).
  rewrite (sub_from_some _ _ _ _ _ _ (re_commitify_marker h _ Hh Hlen)).
  change (Nat.pred (3 + length h)) with (length ("r"%char :: "B"%char :: h)).
  change ("r"%char :: "B"%char :: h ++ "}"%char :: "}"%char :: post)
    with (("r"%char :: "B"%char :: h) ++ str "}}" ++ post).
  rewrite sub_from_skip. reflexivity.
Qed.

Lemma is_hex_not_T c : is_hex c = true -> Ascii.eqb c "T" = false.
Proof. destruct c as [[] [] [] [] [] [] [] []]; vm_compute; congruence. Qed.

Lemma bugify_keeps_commit_marker pre h post :
  forallb is_hex h = true ->
  Re.sub Re.re_bugify repl_bugify (pre ++ repl_commitify (str "rB" ++ h) ++ post)
  = Re.sub Re.re_bugify repl_bugify pre ++ repl_commitify (str "rB" ++ h)
    ++ Re.sub Re.re_bugify repl_bugify post.
Proof.
  intros Hh.
  change (repl_commitify (str "rB" ++ h))
    with (str "{{GitCommit|rB" ++ h ++ str "}}").
  rewrite sub_app; [|apply re_bugify_bounded|by apply (re_bugify_stable "{")].
  f_equal. rewrite <- !app_assoc.
  rewrite (sub_copy _ _ (str "{{GitCommit|rB")).
  2:{ intros c t Hc. apply re_bugify_not_T.
      repeat (apply elem_of_cons in Hc as [->|Hc]; [done|]).
      by apply elem_of_nil in Hc. }
  f_equal. rewrite sub_copy.
  2:{ intros c t Hc. apply re_bugify_not_T, is_hex_not_T.
      rewrite forallb_forall in Hh. apply Hh. by apply list_elem_of_In. }
  reflexivity.
Qed.

Lemma is_digit_word c : is_digit c = true -> is_word c = true.
Proof. destruct c as [[] [] [] [] [] [] [] []]; vm_compute; congruence. Qed.

Lemma is_digit_not_r c : is_digit c = true -> Ascii.eqb c "r" = false.
Proof. destruct c as [[] [] [] [] [] [] [] []]; vm_compute; congruence. Qed.

Lemma re_commitify_word c t : is_word c = true -> Re.re_commitify (c :: t) = None.
Proof. intros H. destruct t as [|r t]; [done|]. cbn [Re.re_commitify]. by rewrite H. Qed.

Lemma re_commitify_not_r c d t :
  Ascii.eqb d "r" = false -> Re.re_commitify (c :: d :: t) = None.
Proof. intros H. cbn [Re.re_commitify]. by rewrite H, andb_false_r. Qed.

(** The commit-reference rewrite over a bug-report marker: the marker is
    copied up to its last brace, which is looked at together with what
    follows. *)
Lemma commitify_bug_marker pre ds post :
  forallb is_digit ds = true ->
  Re.sub Re.re_commitify repl_commitify (pre ++ repl_bugify ds ++ post)
  = Re.sub Re.re_commitify repl_commitify pre
    ++ str "{{BugReport|" ++ ds ++ str "}"
    ++ Re.sub Re.re_commitify repl_commitify ("}"%char :: post).
Proof.
  intros Hds.
  change (repl_bugify ds) with (str "{{BugReport|" ++ ds ++ str "}}").
  rewrite sub_app;
    [|apply re_commitify_bounded|apply (re_commitify_stable "{"); reflexivity].
  f_equal. rewrite <- !app_assoc. unfold Re.sub at 1.
  change (str "{{BugReport|" ++ ds ++ str "}}" ++ post)
    with ("{"%char :: "{"%char :: "B"%char :: "u"%char :: "g"%char :: "R"%char
          :: "e"%char :: "p"%char :: "o"%char :: "r"%char :: "t"%char
          :: "|"%char :: ds ++ "}"%char :: "}"%char :: post).
  change (str "{{BugReport|" ++ ds ++ str "}" ++ ?t)
    with ("{"%char :: "{"%char :: "B"%char :: "u"%char :: "g"%char :: "R"%char
          :: "e"%char :: "p"%char :: "o"%char :: "r"%char :: "t"%char
          :: "|"%char :: ds ++ "}"%char :: t).
  do 11 (rewrite sub_from_none by reflexivity).
  do 11 f_equal.
  rewrite sub_from_none.
  2:{ destruct ds as [|d ds]; [done|]. cbn [forallb] in Hds.
      apply andb_true_iff in Hds as [Hd _].
      by apply re_commitify_not_r, is_digit_not_r. }
  f_equal.
  change (Re.sub_from Re.re_commitify repl_commitify ?s 0)
    with (Re.sub Re.re_commitify repl_commitify s).
  rewrite sub_copy.
  2:{ intros c t Hc. apply re_commitify_word, is_digit_word.
      rewrite forallb_forall in Hds. apply Hds. by apply list_elem_of_In. }
  reflexivity.
Qed.

Lemma re_commitify_group s g n :
  Re.re_commitify s = Some (g, n) -> n = S (length g).
Proof.
  destruct s as [|w [|r s]]; cbn [Re.re_commitify]; [done..|].
  destruct (negb (is_word w) && Ascii.eqb r "r"); [|done].
  destruct (Re.first_alt s _); [|done]. by intros [= <- <-].
Qed.

(** The commit-reference rewrite at a closing brace: the brace is copied,
    unless a reference follows it, which takes the brace with it. *)
Lemma commitify_after_brace post :
  Re.sub Re.re_commitify repl_commitify ("}"%char :: post)
  = match Re.re_commitify ("}"%char :: post) with
    | None => "}"%char :: Re.sub Re.re_commitify repl_commitify post
    | Some (g, _) =>
        repl_commitify g
        ++ Re.sub Re.re_commitify repl_commitify (drop (length g) post)
    end.
Proof.
  unfold Re.sub. cbn [Re.sub_from].
  destruct (Re.re_commitify ("}"%char :: post)) as [[g n]|] eqn:E; [|done].
  pose proof (re_commitify_group _ _ _ E) as ->.
  apply re_commitify_bounded in E. cbn [length] in E.
  f_equal. cbn [Nat.pred].
  rewrite <- (take_drop (length g) post) at 1.
  rewrite <- (sub_from_skip _ _ (take (length g) post) (drop (length g) post)).
  by rewrite length_take_le by lia.
Qed.

(** C6, as stated, fails: a summary that already holds both markers comes
    out with the commit reference wrapped a second time. *)
Lemma rewrap_counterexample :
  contains (fst (gen_commit_message_pretty commit_wrapped))
    (str "{{GitCommit{{GitCommit|rBabc1234567}}}}") = true.
Proof. by vm_compute. Qed.

(** With a fix pattern in the summary the first rewrite moves up to twenty
    characters from before the pattern to behind it, and a marker that
    lies across that cut comes out in two pieces. *)
Lemma fix_pattern_splits_marker :
  gen_commit_message_pretty commit_split
  = (str "{{BugRepFix {{BugReport|12}}: ort|5}} is related, ", false).
Proof. by vm_compute. Qed.

(** C6 (amended): for a summary without a fix pattern, which the
    transformer sends through its two last rewrites behind the prefix
    ["Fix unreported: "], the text before a marker and the text after it
    are rewritten on their own, and
    - a [{{BugReport|<digits>}}] marker is never wrapped a second time: it
      is copied up to its last closing brace;
    - a [{{GitCommit|rB<hex>}}] marker of six or more hexadecimal digits is
      always wrapped a second time, because the pattern of the commit
      rewrite starts with a non-word character and the [|] of the marker
      is one: it comes out as [{{GitCommit{{GitCommit|rB<hex>}}}], up to
      its last closing brace;
    - the last closing brace of either marker is copied, unless what
      follows the marker (after the bug rewrite) starts with a commit
      reference: then that reference is wrapped and takes the brace, the
      non-word character before it, away. *)
Theorem marker_rewrites c pre post :
  Re.search Re.re_prettify (gen_commit_summary c) = false ->
  let bugs := Re.sub Re.re_bugify repl_bugify in
  let refs := Re.sub Re.re_commitify repl_commitify in
  let before := refs (bugs (str "Fix unreported: " ++ pre)) in
  let after :=
    match Re.re_commitify ("}"%char :: bugs post) with
    | None => "}"%char :: refs (bugs post)
    | Some (g, _) => repl_commitify g ++ refs (drop (length g) (bugs post))
    end in
  (forall ds,
     forallb is_digit ds = true ->
     gen_commit_summary c = pre ++ repl_bugify ds ++ post ->
     fst (gen_commit_message_pretty c)
     = before ++ str "{{BugReport|" ++ ds ++ str "}" ++ after)
  /\ (forall h,
        forallb is_hex h = true -> (6 <= length h)%nat ->
        gen_commit_summary c = pre ++ repl_commitify (str "rB" ++ h) ++ post ->
        fst (gen_commit_message_pretty c)
        = before ++ str "{{GitCommit{{GitCommit|rB" ++ h ++ str "}}}" ++ after).
Proof.
  intros Hfix bugs refs before after.
  rewrite message_pretty_no_fix by done. cbn [fst]. split.
  - intros ds Hds ->. rewrite app_assoc.
    rewrite bugify_keeps_marker by done.
    rewrite commitify_bug_marker by done.
    by rewrite commitify_after_brace.
  - intros h Hh Hlen ->. rewrite app_assoc.
    rewrite bugify_keeps_commit_marker by done.
    rewrite commitify_rewraps_marker by done.
    f_equal.
    change (str "}}" ++ ?s) with ("}"%char :: "}"%char :: s).
    change (Re.sub Re.re_commitify repl_commitify ("}"%char :: "}"%char :: ?s))
      with ("}"%char :: Re.sub Re.re_commitify repl_commitify ("}"%char :: s)).
    rewrite commitify_after_brace.
    change (repl_commitify (str "rB" ++ h) ++ "}"%char :: ?t)
      with (str "{{GitCommit|rB" ++ (h ++ str "}}") ++ str "}" ++ t).
    change (str "{{GitCommit{{GitCommit|rB" ++ ?t)
      with (str "{{GitCommit" ++ str "{{GitCommit|rB" ++ t).
    by rewrite <- !app_assoc.
Qed.

Lemma marker_rewrites_witness :
  fst (gen_commit_message_pretty commit_wrapped)
  = str "Fix unreported: Fix {{BugReport|999}}: leak ({{GitCommit{{GitCommit|rBabc1234567}}}})"
  /\ fst (gen_commit_message_pretty commit_clipped)
     = str "Fix unreported: See {{BugReport|5}{{GitCommit|rB1234567}}".
Proof.
  split.
  - etrans.
    + apply (proj2 (marker_rewrites commit_wrapped
                      (str "Fix {{BugReport|999}}: leak (") (str ")") eq_refl)
               (str "abc1234567")); [reflexivity|vm_compute; lia|reflexivity].
    + vm_compute. reflexivity.
  - etrans.
    + apply (proj1 (marker_rewrites commit_clipped (str "See ")
                      (str "rB1234567") eq_refl) (str "5")); reflexivity.
    + vm_compute. reflexivity.
Defined.

(** ** Mutation *)

Lemma rl_rstates_record_entry release_log main_cat sub_cat u entry :
  rl_rstates (record_entry release_log main_cat sub_cat u entry)
  = rl_rstates release_log.
Proof.
  unfold record_entry. by destruct (cat_data _ _), (rl_count release_log).
Qed.

Lemma rl_header_record_entry release_log main_cat sub_cat u entry :
  rl_header (record_entry release_log main_cat sub_cat u entry)
  = rl_header release_log.
Proof.
  unfold record_entry. by destruct (cat_data _ _), (rl_count release_log).
Qed.

Lemma rl_count_record_entry release_log main_cat sub_cat u entry :
  rl_count (record_entry release_log main_cat sub_cat u entry)
  = if u then ((rl_count release_log).1, (rl_count release_log).2 + 1)
    else ((rl_count release_log).1 + 1, (rl_count release_log).2).
Proof.
  unfold record_entry.
  by destruct (cat_data _ _), (rl_count release_log), u.
Qed.

Lemma rstate_untracked release_log rs :
  rstate_tracked release_log (Some rs) = false ->
  rl_rstates release_log !! rs = None.
Proof.
  cbn [rstate_tracked]. intros Ht%bool_decide_eq_false.
  destruct (rl_rstates release_log !! rs) eqn:E; [|done].
  exfalso. apply Ht. by eexists.
Qed.

Lemma rstate_tracked_some release_log rs l :
  rl_rstates release_log !! rs = Some l ->
  rstate_tracked release_log (Some rs) = true.
Proof.
  intros H. cbn [rstate_tracked]. apply bool_decide_eq_true. by eexists.
Qed.

(** What a call that returns has done. *)
Lemma add_entry_ok release_log c cat rstate release_log' :
  add_entry release_log c cat rstate = (release_log', Ok tt) ->
  exists main_cat sub_cat rs,
    select_cat cat = Ok (main_cat, sub_cat)
    /\ rstate = Some rs
    /\ rl_rstates release_log !! rs = None
    /\ release_log'
       = record_entry (touch_cat release_log (Some main_cat)) (Some main_cat)
           sub_cat (snd (gen_commit_message_pretty c))
           (entry_text rs (fst (gen_commit_message_pretty c)) (take 10 (sha1 c))).
Proof.
  unfold add_entry.
  destruct (select_cat cat) as [[main_cat sub_cat]|]; [|discriminate].
  destruct rstate as [rs|]; [|by rewrite gen_commit_pretty_plain_raises].
  rewrite gen_commit_pretty_some.
  destruct (rstate_tracked _ _) eqn:Ht; [by rewrite gen_commit_pretty_plain_raises|].
  intros [= <-]. exists main_cat, sub_cat, rs.
  apply rstate_untracked in Ht. by rewrite rl_rstates_record_entry in Ht.
Qed.

(** A call that names a tracked release state never returns. *)
Lemma add_entry_tracked release_log c cat rs l :
  rl_rstates release_log !! rs = Some l ->
  exists release_log' e,
    add_entry release_log c cat (Some rs) = (release_log', Raise e)
    /\ rl_rstates release_log' = rl_rstates release_log
    /\ rl_header release_log' = rl_header release_log.
Proof.
  intros Hl. unfold add_entry.
  destruct (select_cat cat) as [[main_cat sub_cat]|e]; [|by eexists _, _].
  rewrite gen_commit_pretty_some.
  erewrite rstate_tracked_some
    by (by rewrite rl_rstates_record_entry).
  rewrite gen_commit_pretty_plain_raises.
  eexists _, _. split; [done|].
  by rewrite rl_rstates_record_entry, rl_header_record_entry.
Qed.

Lemma add_entry_count release_log c cat rstate release_log' :
  add_entry release_log c cat rstate = (release_log', Ok tt) ->
  rl_count release_log'
  = ((rl_count release_log).1 + 1, (rl_count release_log).2)
  \/ rl_count release_log'
     = ((rl_count release_log).1, (rl_count release_log).2 + 1).
Proof.
  intros (main_cat & sub_cat & rs & _ & _ & _ & ->)%add_entry_ok.
  rewrite rl_count_record_entry.
  destruct (snd (gen_commit_message_pretty c)); [by right|by left].
Qed.

Lemma add_entries_count release_log calls release_log' :
  add_entries release_log calls = (release_log', Ok tt) ->
  (rl_count release_log').1 + (rl_count release_log').2
  = (rl_count release_log).1 + (rl_count release_log).2
    + Z.of_nat (length calls).
Proof.
  revert release_log. induction calls as [|[[c cat] rstate] calls IH];
    intros release_log.
  - intros [= <-]. simpl. lia.
  - cbn [add_entries].
    destruct (add_entry release_log c cat rstate) as [rl1 [[]|e]] eqn:E;
      [|discriminate].
    intros H%IH. rewrite H.
    destruct (add_entry_count _ _ _ _ _ E) as [-> | ->]; simpl length; simpl; lia.
Qed.

(** C8: every call of the mutation that returns has incremented exactly
    one of the two counters by exactly one; and after a session of [N]
    calls on a log that started from no file the two counters add up to
    [N]. *)
Theorem count_conservation :
  (forall release_log c cat rstate release_log',
     add_entry release_log c cat rstate = (release_log', Ok tt) ->
     rl_count release_log'
     = ((rl_count release_log).1 + 1, (rl_count release_log).2)
     \/ rl_count release_log'
        = ((rl_count release_log).1, (rl_count release_log).2 + 1))
  /\ (forall branch blender_rev start_sha1 end_sha1 rstate rstate_list
        calls release_log',
        add_entries
          (release_log_init None branch blender_rev start_sha1 end_sha1
             rstate rstate_list) calls
        = (release_log', Ok tt) ->
        (rl_count release_log').1 + (rl_count release_log').2
        = Z.of_nat (length calls)).
Proof.
  split; [exact add_entry_count|].
  intros * H%add_entries_count. by rewrite H.
Qed.

Lemma count_conservation_witness :
  (rl_count (add_entry sample_log commit_crash (1, Some 2) (Some (str "alpha"))).1
   = (1, 0)
   \/ rl_count (add_entry sample_log commit_crash (1, Some 2) (Some (str "alpha"))).1
      = (0, 1))
  /\ (rl_count (add_entries sample_log sample_calls).1).1
     + (rl_count (add_entries sample_log sample_calls).1).2 = 3.
Proof.
  destruct count_conservation as [H1 HN]. split.
  - apply (H1 sample_log commit_crash (1, Some 2) (Some (str "alpha"))).
    vm_compute. reflexivity.
  - apply (HN (str "main") (str "2.79") (str "0123456789abcdef")
             (str "fedcba9876543210") (Some (str "alpha")) [[]] sample_calls).
    vm_compute. reflexivity.
Defined.

(** *** The frame of one call *)

Lemma cat_data_touch_cat release_log main_cat k :
  cat_data (touch_cat release_log main_cat) k = cat_data release_log k.
Proof.
  unfold cat_data, touch_cat. cbn [rl_cats].
  destruct (decide (main_cat = k)) as [->|Hne].
  - by rewrite lookup_insert_eq.
  - by rewrite lookup_insert_ne.
Qed.

Lemma entries_touch_cat release_log main_cat m s u :
  entries (touch_cat release_log main_cat) m s u = entries release_log m s u.
Proof. unfold entries. by rewrite cat_data_touch_cat. Qed.

Lemma entries_of_bucket_append data sub_cat entry s :
  entries_of (bucket_append data sub_cat entry) s
  = if decide (s = sub_cat) then entries_of data sub_cat ++ [entry]
    else entries_of data s.
Proof.
  unfold bucket_append. unfold entries_of at 1.
  destruct (decide (s = sub_cat)) as [->|Hne].
  - by rewrite lookup_insert_eq.
  - by rewrite lookup_insert_ne.
Qed.

Lemma entries_record_entry release_log main_cat sub_cat u entry m s v :
  entries (record_entry release_log main_cat sub_cat u entry) m s v
  = if decide ((m, s, v) = (main_cat, sub_cat, u))
    then entries release_log main_cat sub_cat u ++ [entry]
    else entries release_log m s v.
Proof.
  unfold entries, record_entry, cat_data at 1.
  destruct (cat_data release_log main_cat) as [d0 d1] eqn:Hd.
  destruct (rl_count release_log) as [n0 n1]. cbn [rl_cats].
  destruct (decide (m = main_cat)) as [->|Hm].
  - rewrite lookup_insert_eq. cbn [default from_option id]. rewrite Hd.
    destruct u, v; cbn [fst snd]; rewrite ?entries_of_bucket_append;
      repeat (destruct (decide _)); try done; naive_solver.
  - rewrite lookup_insert_ne by done. fold (cat_data release_log m).
    destruct (decide _); [naive_solver|done].
Qed.

(** A call that returns has appended one entry to one bucket and has left
    every other bucket, the header and the release-state lists alone. *)
Lemma add_entry_appends release_log c cat rstate release_log' :
  add_entry release_log c cat rstate = (release_log', Ok tt) ->
  exists main_cat sub_cat u entry,
    (forall m s v,
       entries release_log' m s v
       = if decide ((m, s, v) = (main_cat, sub_cat, u))
         then entries release_log main_cat sub_cat u ++ [entry]
         else entries release_log m s v)
    /\ rl_header release_log' = rl_header release_log
    /\ rl_rstates release_log' = rl_rstates release_log.
Proof.
  intros (main_cat & sub_cat & rs & _ & _ & _ & ->)%add_entry_ok.
  eexists (Some main_cat), sub_cat, _, _. split; [|split].
  - intros m s v. rewrite entries_record_entry, !entries_touch_cat. done.
  - by rewrite rl_header_record_entry.
  - by rewrite rl_rstates_record_entry.
Qed.

(** C10: a call that names a tracked release state does not append to the
    list of that state: it raises, and the release-state lists are as they
    were; a call that returns has appended exactly one entry to exactly one
    bucket and has left the other buckets, the header and the release-state
    lists unchanged. *)
Theorem add_entry_frame :
  (forall release_log c cat rs l,
     rl_rstates release_log !! rs = Some l ->
     exists release_log' e,
       add_entry release_log c cat (Some rs) = (release_log', Raise e)
       /\ rl_rstates release_log' = rl_rstates release_log
       /\ rl_header release_log' = rl_header release_log)
  /\ (forall release_log c cat rstate release_log',
        add_entry release_log c cat rstate = (release_log', Ok tt) ->
        exists main_cat sub_cat u entry,
          (forall m s v,
             entries release_log' m s v
             = if decide ((m, s, v) = (main_cat, sub_cat, u))
               then entries release_log main_cat sub_cat u ++ [entry]
               else entries release_log m s v)
          /\ rl_header release_log' = rl_header release_log
          /\ rl_rstates release_log' = rl_rstates release_log).
Proof. split; [exact add_entry_tracked|exact add_entry_appends]. Qed.

Lemma add_entry_frame_witness :
  (exists release_log' e,
     add_entry sample_log_rc commit_crash (1, Some 2) (Some (str "RC2"))
     = (release_log', Raise e)
     /\ rl_rstates release_log' = rl_rstates sample_log_rc
     /\ rl_header release_log' = rl_header sample_log_rc)
  /\ (exists main_cat sub_cat u entry,
        (forall m s v,
           entries (add_entry sample_log commit_crash (1, Some 2)
                      (Some (str "alpha"))).1 m s v
           = if decide ((m, s, v) = (main_cat, sub_cat, u))
             then entries sample_log main_cat sub_cat u ++ [entry]
             else entries sample_log m s v)
        /\ rl_header (add_entry sample_log commit_crash (1, Some 2)
                       (Some (str "alpha"))).1 = rl_header sample_log
        /\ rl_rstates (add_entry sample_log commit_crash (1, Some 2)
                        (Some (str "alpha"))).1 = rl_rstates sample_log).
Proof.
  destruct add_entry_frame as [Ht Hf]. split.
  - apply (Ht sample_log_rc commit_crash (1, Some 2) (str "RC2") []).
    vm_compute. reflexivity.
  - apply (Hf sample_log commit_crash (1, Some 2) (Some (str "alpha"))).
    vm_compute. reflexivity.
Defined.

(** ** The serializer, category by category *)

Lemma extend_with_groups lines data key :
  extend_with lines data key = lines ++ groups data key.
Proof.
  unfold extend_with, groups, group. cbn [fold_left].
  destruct (entries_of data.1 key), (entries_of data.2 key);
    rewrite ?app_nil_r, <- ?app_assoc; reflexivity.
Qed.

Lemma group_length es : group es = [] \/ (2 <= length (group es))%nat.
Proof.
  destruct es as [|e es]; [by left|right].
  cbn [group]. rewrite length_app. simpl. lia.
Qed.

Lemma groups_length data key :
  groups data key = [] \/ (2 <= length (groups data key))%nat.
Proof.
  unfold groups.
  destruct (group_length (entries_of data.1 key)) as [->|H1],
           (group_length (entries_of data.2 key)) as [->|H2];
    rewrite ?length_app; [by left|right; simpl; lia..].
Qed.

Lemma sub_cat_lines_section data sub_cat :
  (if (2 <? length (sub_cat_lines data sub_cat))%nat
   then sub_cat_lines data sub_cat else [])
  = sub_section data sub_cat.
Proof.
  unfold sub_cat_lines, sub_section. rewrite extend_with_groups.
  fold (heading3 sub_cat).
  destruct (groups_length data (Some sub_cat)) as [->|H]; [reflexivity|].
  destruct (groups data (Some sub_cat)) as [|g gs] eqn:E; [simpl in H; lia|].
  destruct (2 <? _)%nat eqn:Hlt; [done|].
  apply Nat.ltb_ge in Hlt. simpl in *. lia.
Qed.

Lemma fold_sub_cats data sub_cats lines :
  fold_left
    (fun lines sub_cat =>
       let sub := sub_cat_lines data sub_cat in
       if (2 <? length sub)%nat then lines ++ sub else lines)
    sub_cats lines
  = lines ++ concat (map (sub_section data) sub_cats).
Proof.
  revert lines. induction sub_cats as [|s sub_cats IH]; intros lines.
  - simpl. by rewrite app_nil_r.
  - cbn [fold_left map concat]. rewrite IH, app_assoc. f_equal.
    rewrite <- sub_cat_lines_section.
    destruct (2 <? _)%nat; [done|by rewrite app_nil_r].
Qed.

(** The code builds the layout described above. *)
Lemma main_cat_lines_section release_log mc :
  main_cat_lines release_log mc = main_section release_log mc.
Proof.
  destruct mc as [main_cat sub_cats]. unfold main_cat_lines, main_section.
  cbn [fst snd]. set (data := cat_data release_log (Some main_cat)).
  rewrite extend_with_groups, fold_sub_cats. fold (heading2 main_cat).
  unfold section_tail.
  destruct (groups_length data None) as [E|H].
  - rewrite E. cbn [app length Nat.eqb].
    by destruct (concat (map (sub_section data) sub_cats)) as [|l ls].
  - destruct (groups data None) as [|g gs] eqn:E; [simpl in H; lia|].
    destruct gs as [|g' gs]; [simpl in H; lia|].
    reflexivity.
Qed.

Lemma group_nil es : group es = [] <-> es = [].
Proof.
  destruct es as [|e es]; [done|]. split; [|done].
  cbn [group]. intros H. by apply app_eq_nil in H as [H _].
Qed.

Lemma groups_nil data key :
  groups data key = []
  <-> entries_of data.1 key = [] /\ entries_of data.2 key = [].
Proof.
  unfold groups. split.
  - intros [H1 H2]%app_eq_nil. split; by apply group_nil.
  - intros [-> ->]. done.
Qed.

Lemma groups_entries release_log main_cat sub_cat :
  groups (cat_data release_log main_cat) sub_cat = []
  <-> forall u, entries release_log main_cat sub_cat u = [].
Proof.
  rewrite groups_nil. unfold entries. split.
  - intros [H0 H1] []; done.
  - intros H. split; [apply (H false)|apply (H true)].
Qed.

Lemma sub_section_nil data sub_cat :
  sub_section data sub_cat = [] <-> groups data (Some sub_cat) = [].
Proof.
  unfold sub_section. by destruct (groups data (Some sub_cat)).
Qed.

Lemma concat_sub_sections_nil data sub_cats :
  concat (map (sub_section data) sub_cats) = []
  <-> forall sub_cat, sub_cat ∈ sub_cats -> groups data (Some sub_cat) = [].
Proof.
  induction sub_cats as [|s sub_cats IH]; cbn [map concat].
  - split; [|done]. intros _ s Hs. by apply elem_of_nil in Hs.
  - split.
    + intros [H1 H2]%app_eq_nil s' [->|Hs]%elem_of_cons.
      * by apply sub_section_nil.
      * by apply IH.
    + intros H. rewrite (proj2 (sub_section_nil data s)), (proj2 IH); [done|..].
      * intros s' Hs. apply H, elem_of_cons. by right.
      * apply H, elem_of_cons. by left.
Qed.

Lemma not_all_nil release_log main_cat sub_cat :
  ~ (forall u, entries release_log main_cat sub_cat u = [])
  <-> exists u, entries release_log main_cat sub_cat u <> [].
Proof.
  split.
  - intros H.
    destruct (entries release_log main_cat sub_cat false) eqn:E0;
      [|exists false; by rewrite E0].
    destruct (entries release_log main_cat sub_cat true) eqn:E1;
      [|exists true; by rewrite E1].
    destruct H. by intros [].
  - intros [u Hu] H. by apply Hu.
Qed.

Lemma main_section_nil release_log mc :
  main_section release_log mc = [] <-> ~ has_entries release_log mc.
Proof.
  unfold main_section, has_entries.
  split.
  - intros H.
    destruct (groups _ None ++ concat (map (sub_section _) mc.2))
      eqn:E; [|done].
    apply app_eq_nil in E as [E1 E2].
    intros [[u Hu]|(s & u & Hs & Hu)].
    + apply Hu. by apply groups_entries.
    + apply Hu. apply groups_entries.
      by eapply concat_sub_sections_nil in E2.
  - intros H.
    rewrite (proj2 (groups_entries release_log (Some mc.1) None)),
      (proj2 (concat_sub_sections_nil _ mc.2)); [done|..].
    + intros s Hs. apply groups_entries. intros u.
      destruct (entries release_log (Some mc.1) (Some s) u) eqn:E; [done|].
      destruct H. right. exists s, u. by rewrite E.
    + intros u.
      destruct (entries release_log (Some mc.1) None u) eqn:E; [done|].
      destruct H. left. exists u. by rewrite E.
Qed.

Lemma main_section_head release_log mc :
  main_section release_log mc <> [] ->
  exists rest, main_section release_log mc = heading2 mc.1 :: rest.
Proof.
  unfold main_section.
  destruct (_ ++ _); [done|]. by eexists.
Qed.

(** C3, as stated, fails: a main category without entries gets no heading,
    and a log without entries renders no heading at all. *)
Lemma skeleton_counterexample :
  body_lines sample_log = []
  /\ main_cat_lines sample_log1 (str "Game Engine", []) = []
  /\ contains (render sample_log1 [[]]) (str "== Data / Geometry ==") = true
  /\ contains (render sample_log1 [[]]) (str "== Game Engine ==") = false.
Proof. by vm_compute. Qed.

(** C3 (amended): the serializer emits the heading of a main category
    exactly when the category has at least one entry, directly or under
    one of its sub-categories, and a main category with nothing under it
    adds no line at all.  The lines of a category with an entry are, in
    this order and with nothing else: its heading; its own entries, the
    reported ones and then the unreported ones, each group that is not
    empty followed by an empty line, or one empty line when it has none;
    and, for each sub-category of the tree in turn, nothing when the
    sub-category has no entry, otherwise its heading followed by its
    reported and its unreported entries, grouped in the same way.  So the
    heading of a sub-category is emitted exactly when that sub-category has
    at least one entry. *)
Theorem main_heading_emitted release_log main_cat sub_cats :
  let own := entries release_log (Some main_cat) None in
  let under := fun sub_cat => entries release_log (Some main_cat) (Some sub_cat) in
  (has_entries release_log (main_cat, sub_cats) ->
   main_cat_lines release_log (main_cat, sub_cats)
   = heading2 main_cat
     :: match group (own false) ++ group (own true) with
        | [] => [[]]
        | g => g
        end
     ++ concat
          (map (fun sub_cat =>
                  match under sub_cat false, under sub_cat true with
                  | [], [] => []
                  | reported, unreported =>
                      heading3 sub_cat :: group reported ++ group unreported
                  end)
             sub_cats))
  /\ (~ has_entries release_log (main_cat, sub_cats) ->
      main_cat_lines release_log (main_cat, sub_cats) = []).
Proof.
  intros own under. rewrite main_cat_lines_section. split.
  - intros H.
    destruct (main_section release_log (main_cat, sub_cats)) eqn:E.
    { by apply main_section_nil in E. }
    revert E. unfold main_section. cbn [fst snd].
    destruct (_ ++ _); [done|]. intros [= <- <-].
    unfold section_tail. f_equal. f_equal. f_equal.
    apply map_ext. intros sub_cat. unfold sub_section, groups, under, entries.
    destruct (entries_of _ _) as [|e es]; [|done].
    by destruct (entries_of _ _).
  - intros H. by apply main_section_nil.
Qed.

Lemma main_heading_emitted_witness :
  main_cat_lines sample_log3 data_geometry
  = [ str "== Data / Geometry ==";
      [];
      str "=== Mesh Editing ===";
      str "* [alpha] Fix {{BugReport|12345}}: crash on save ({{GitCommit|rB0123456789}}).";
      str "* [alpha] Fix {{BugReport|999}}: leak ({{GitCommit|rBabc1234567}}).";
      [] ]
  /\ main_cat_lines sample_log3 (str "Game Engine", [])
     = [ str "== Game Engine ==";
         str "* [alpha] Fix unreported: Cleanup unused var ({{GitCommit|rBfedcba9876}}).";
         [] ]
  /\ main_cat_lines sample_log1 (str "Game Engine", []) = [].
Proof.
  split; [|split].
  - etrans.
    + apply (proj1 (main_heading_emitted sample_log3 (str "Data / Geometry")
                      (snd data_geometry))).
      right. exists (str "Mesh Editing"), false. split.
      * apply list_elem_of_In. vm_compute. tauto.
      * vm_compute. discriminate.
    + vm_compute. reflexivity.
  - etrans.
    + apply (proj1 (main_heading_emitted sample_log3 (str "Game Engine") [])).
      left. exists true. vm_compute. discriminate.
    + vm_compute. reflexivity.
  - apply (proj2 (main_heading_emitted sample_log1 (str "Game Engine") [])).
    intros [[[] H]|(s & u & Hs & _)].
    + by vm_compute in H.
    + by vm_compute in H.
    + by apply elem_of_nil in Hs.
Defined.

(** C2: the entries of a section under an unknown heading are parsed into
    the [None] main category, under the name of the heading; the
    serializer looks for them under [None], [None], finds nothing, and the
    next write of the file has neither the entry nor an UNSORTED section,
    while the total still counts the entry. *)
Theorem unsorted_entries_dropped :
  entries log_unsorted None (Some (str "UNSORTED")) true
  = [str "* Fix unreported: manual entry ({{GitCommit|rB0123456789}})."]
  /\ entries log_unsorted None None true = []
  /\ unsorted_lines log_unsorted = []
  /\ exists release_log text,
       write_release_log log_unsorted commit_crash (1, Some 2)
         (Some (str "alpha")) [[]] = (release_log, Ok text)
       /\ contains text (str "manual entry") = false
       /\ contains text (str "UNSORTED") = false
       /\ contains text (str "Total fixed bugs: 2 (1 from tracker, 1 reported")
          = true.
Proof.
  split; [by vm_compute|]. split; [by vm_compute|]. split; [by vm_compute|].
  eexists _, _. split; [by vm_compute|]. by vm_compute.
Qed.

(** ** Reading a file back *)

Lemma universal_newlines_id s : mem cr s = false -> universal_newlines s = s.
Proof.
  unfold mem. induction s as [|c s IH]; [done|].
  cbn [existsb universal_newlines]. intros [Hc Hs]%orb_false_iff.
  rewrite Ascii.eqb_sym, Hc. by rewrite IH.
Qed.

Lemma split_lines_nil_inv s : split_lines s = [] -> s = [].
Proof.
  destruct s as [|c s]; [done|]. cbn [split_lines].
  destruct (Ascii.eqb c newline); [done|]. by destruct (split_lines s).
Qed.

Lemma split_lines_line l rest :
  mem newline l = false ->
  split_lines (l ++ nl ++ rest) = (l ++ nl) :: split_lines rest.
Proof.
  unfold mem. induction l as [|c l IH]; [done|].
  cbn [existsb app split_lines]. intros [Hc Hl]%orb_false_iff.
  rewrite Ascii.eqb_sym, Hc. by rewrite IH.
Qed.

Lemma split_lines_unlines ls rest :
  Forall (fun l => mem newline l = false) ls ->
  split_lines (unlines ls ++ rest)
  = map (fun l => l ++ nl) ls ++ split_lines rest.
Proof.
  unfold unlines. induction 1 as [|l ls Hl _ IH]; [done|].
  cbn [map concat app]. rewrite <- !app_assoc.
  rewrite split_lines_line by done. by rewrite IH.
Qed.

(** A text of complete lines splits on its own. *)
Lemma split_lines_app h rest :
  match rev h with
  | [] => true
  | c :: _ => Ascii.eqb c newline
  end = true ->
  split_lines (h ++ rest) = split_lines h ++ split_lines rest.
Proof.
  induction h as [|c h IH]; [done|]. intros Hend.
  assert (Hh : h = [] /\ Ascii.eqb c newline = true
               \/ h <> [] /\ match rev h with
                             | [] => true
                             | d :: _ => Ascii.eqb d newline
                             end = true).
  { destruct h as [|d h]; [by left|right]. split; [done|].
    revert Hend. cbn [rev]. 
    destruct (rev h ++ [d]) eqn:E; [by destruct (rev h)|]. done. }
  cbn [app split_lines].
  destruct Hh as [[-> Hc]|[Hne Hh]].
  - by rewrite Hc.
  - rewrite IH by done.
    destruct (Ascii.eqb c newline); [done|].
    destruct (split_lines h) eqn:E; [|done].
    by apply split_lines_nil_inv in E.
Qed.

Lemma join_unlines ls :
  join nl ls ++ nl = unlines (match ls with [] => [[]] | _ => ls end).
Proof.
  unfold unlines. destruct ls as [|l ls]; [done|].
  revert l. induction ls as [|l' ls IH]; intros l.
  - cbn. by rewrite app_nil_r.
  - change (join nl (l :: l' :: ls)) with (l ++ nl ++ join nl (l' :: ls)).
    change (concat (map (fun l0 => l0 ++ nl) (l :: l' :: ls)))
      with ((l ++ nl) ++ concat (map (fun l0 => l0 ++ nl) (l' :: ls))).
    rewrite <- !app_assoc. do 2 f_equal. apply IH.
Qed.

Lemma mem_concat c ls :
  Forall (fun l => mem c l = false) ls -> mem c (concat ls) = false.
Proof.
  induction 1 as [|l ls Hl _ IH]; [done|].
  cbn [concat]. unfold mem in *. by rewrite existsb_app, Hl, IH.
Qed.

Lemma mem_unlines c ls :
  Ascii.eqb c newline = false ->
  Forall (fun l => mem c l = false) ls -> mem c (unlines ls) = false.
Proof.
  intros Hc H. apply mem_concat. apply Forall_map.
  eapply Forall_impl; [done|]. cbn. intros l Hl.
  unfold mem in *. rewrite existsb_app, Hl. unfold nl. cbn [existsb].
  by rewrite Hc.
Qed.

(** ** The parser, line by line *)

Lemma parse_body_end log main_cat sub_cat ign l rest :
  contains l IGNORE_END_LINE = true ->
  parse_body (Parser log main_cat sub_cat ign) (l :: rest)
  = parse_body (Parser log main_cat sub_cat false) rest.
Proof. cbn [parse_body]. by intros ->. Qed.

Lemma parse_body_ignored log main_cat sub_cat l rest :
  contains l IGNORE_END_LINE = false ->
  parse_body (Parser log main_cat sub_cat true) (l :: rest)
  = parse_body (Parser log main_cat sub_cat true) rest.
Proof. cbn [parse_body]. by intros ->. Qed.

Lemma parse_body_start log main_cat sub_cat ign l rest :
  contains l IGNORE_END_LINE = false ->
  contains l IGNORE_START_LINE = true ->
  parse_body (Parser log main_cat sub_cat ign) (l :: rest)
  = parse_body (Parser log main_cat sub_cat true) rest.
Proof.
  cbn [parse_body p_ignore p_log p_main_cat p_sub_cat].
  intros -> ->. by rewrite orb_true_r.
Qed.

Lemma parse_body_blank log main_cat sub_cat rest :
  parse_body (Parser log main_cat sub_cat false) (nl :: rest)
  = parse_body (Parser log main_cat sub_cat false) rest.
Proof. reflexivity. Qed.

Lemma parse_body_main_heading log main_cat sub_cat m rest :
  main_line_ok m = true ->
  parse_body (Parser log main_cat sub_cat false) ((heading2 m ++ nl) :: rest)
  = parse_body (Parser log (Some m) None false) rest.
Proof.
  unfold main_line_ok. intros H.
  repeat (apply andb_true_iff in H as [H ?]).
  apply negb_true_iff in H.
  repeat match goal with
         | H : negb _ = true |- _ => apply negb_true_iff in H
         | H : bool_decide _ = true |- _ => apply bool_decide_eq_true in H
         end.
  cbn [parse_body p_ignore p_log p_main_cat p_sub_cat orb].
  by repeat match goal with H : _ = _ |- _ => rewrite H; clear H end.
Qed.

Lemma parse_body_sub_heading log main_cat sub_cat m s rest :
  sub_line_ok m s = true ->
  parse_body (Parser log main_cat sub_cat false) ((heading3 s ++ nl) :: rest)
  = parse_body (Parser log (Some m) (Some s) false) rest.
Proof.
  unfold sub_line_ok. intros H.
  repeat (apply andb_true_iff in H as [H ?]).
  apply negb_true_iff in H.
  repeat match goal with
         | H : negb _ = true |- _ => apply negb_true_iff in H
         | H : bool_decide _ = true |- _ => apply bool_decide_eq_true in H
         end.
  cbn [parse_body p_ignore p_log p_main_cat p_sub_cat orb].
  by repeat match goal with H : _ = _ |- _ => rewrite H; clear H end.
Qed.

Lemma parse_body_entry log main_cat sub_cat u e rest :
  line_ok u e ->
  parse_body (Parser log main_cat sub_cat false) ((e ++ nl) :: rest)
  = parse_body
      (Parser (parse_entry log main_cat sub_cat e) main_cat sub_cat false) rest.
Proof.
  intros (He & Hs & Hstrip & H3 & H2 & Hfix & _).
  cbn [parse_body p_ignore p_log p_main_cat p_sub_cat orb].
  by rewrite He, Hs, Hstrip, H3, H2, Hfix.
Qed.

(** A list of entries followed by a blank line. *)
Lemma parse_body_entries log main_cat sub_cat u es rest :
  Forall (line_ok u) es ->
  parse_body (Parser log main_cat sub_cat false)
    (map (fun l => l ++ nl) es ++ rest)
  = parse_body
      (Parser (parse_entries log main_cat sub_cat es) main_cat sub_cat false)
      rest.
Proof.
  intros H. revert log. induction H as [|e es He _ IH]; intros log; [done|].
  cbn [map app]. rewrite (parse_body_entry _ _ _ u) by done. apply IH.
Qed.

Lemma parse_body_group log main_cat sub_cat u es rest :
  Forall (line_ok u) es ->
  parse_body (Parser log main_cat sub_cat false)
    (map (fun l => l ++ nl) (group es) ++ rest)
  = parse_body
      (Parser (parse_entries log main_cat sub_cat es) main_cat sub_cat false)
      rest.
Proof.
  intros H. destruct es as [|e es]; [done|].
  cbn [group]. rewrite map_app, <- app_assoc.
  rewrite (parse_body_entries _ _ _ u) by done.
  apply parse_body_blank.
Qed.

(** ** The headings of the static tree *)

Lemma forallb_Forall {A : Type} (f : A -> bool) l :
  forallb f l = true -> Forall (fun x => f x = true) l.
Proof.
  induction l as [|x l IH]; [by constructor|].
  cbn [forallb]. intros [Hx Hl]%andb_true_iff. constructor; auto.
Qed.

Lemma tree_main_lines :
  Forall (fun mc : pystr * list pystr => main_line_ok (fst mc) = true)
    BUGFIX_CATEGORIES.
Proof. apply forallb_Forall. by vm_compute. Qed.

Lemma tree_sub_lines :
  Forall (fun mc : pystr * list pystr =>
            Forall (fun s => sub_line_ok (fst mc) s = true) (snd mc))
    BUGFIX_CATEGORIES.
Proof.
  eapply Forall_impl.
  - apply (forallb_Forall
             (fun mc : pystr * list pystr =>
                forallb (fun s => sub_line_ok (fst mc) s) (snd mc))).
    by vm_compute.
  - intros mc H. by apply forallb_Forall.
Qed.

Lemma tree_buckets_nodup : NoDup tree_buckets.
Proof. apply (bool_decide_eq_true_1 (NoDup tree_buckets)). by vm_compute. Qed.

(** ** The parser over the sections the serializer writes *)

Section Sections.

Context (m : log) (Hlines : forall main_cat sub_cat u e,
                      e ∈ entries m main_cat sub_cat u -> line_ok u e).

Lemma bucket_lines main_cat sub_cat u :
  Forall (line_ok u) (entries m main_cat sub_cat u).
Proof. apply Forall_forall. intros e He. by eapply Hlines. Qed.

Lemma parse_body_groups log mc sub_cat rest :
  parse_body (Parser log (Some mc) sub_cat false)
    (map (fun l => l ++ nl) (groups (cat_data m (Some mc)) sub_cat) ++ rest)
  = parse_body
      (Parser (parse_bucket m log (mc, sub_cat)) (Some mc) sub_cat false) rest.
Proof.
  unfold groups, parse_bucket. cbn [fst snd].
  rewrite map_app, <- app_assoc.
  rewrite (parse_body_group _ _ _ false) by apply bucket_lines.
  by rewrite (parse_body_group _ _ _ true) by apply bucket_lines.
Qed.

Lemma parse_bucket_empty log mc sub_cat :
  groups (cat_data m (Some mc)) sub_cat = [] ->
  parse_bucket m log (mc, sub_cat) = log.
Proof.
  intros H. unfold parse_bucket. cbn [fst snd].
  by rewrite !(proj1 (groups_entries _ _ _) H).
Qed.

Lemma parse_body_sub_section log main_cat sub_cat mc s rest :
  sub_line_ok mc s = true ->
  exists main_cat' sub_cat',
    parse_body (Parser log main_cat sub_cat false)
      (map (fun l => l ++ nl) (sub_section (cat_data m (Some mc)) s) ++ rest)
    = parse_body
        (Parser (parse_bucket m log (mc, Some s)) main_cat' sub_cat' false)
        rest.
Proof.
  intros Hs. unfold sub_section.
  destruct (groups (cat_data m (Some mc)) (Some s)) as [|g gs] eqn:E.
  - exists main_cat, sub_cat. by rewrite parse_bucket_empty.
  - exists (Some mc), (Some s). rewrite <- E. cbn [map app].
    rewrite (parse_body_sub_heading _ _ _ mc) by done.
    apply parse_body_groups.
Qed.

Lemma parse_body_sub_sections log main_cat sub_cat mc sub_cats rest :
  Forall (fun s => sub_line_ok mc s = true) sub_cats ->
  exists main_cat' sub_cat',
    parse_body (Parser log main_cat sub_cat false)
      (map (fun l => l ++ nl)
         (concat (map (sub_section (cat_data m (Some mc))) sub_cats)) ++ rest)
    = parse_body
        (Parser (replay m log (map (fun s => (mc, Some s)) sub_cats))
           main_cat' sub_cat' false)
        rest.
Proof.
  intros H. revert log main_cat sub_cat.
  induction H as [|s sub_cats Hs _ IH]; intros log main_cat sub_cat.
  - by exists main_cat, sub_cat.
  - destruct (parse_body_sub_section log main_cat sub_cat mc s
                (map (fun l => l ++ nl)
                   (concat (map (sub_section (cat_data m (Some mc))) sub_cats))
                 ++ rest) Hs) as (m1 & s1 & E1).
    destruct (IH (parse_bucket m log (mc, Some s)) m1 s1) as (m2 & s2 & E2).
    exists m2, s2. cbn [map concat]. rewrite map_app, <- app_assoc.
    etrans; [exact E1|exact E2].
Qed.

Lemma parse_body_section_tail log mc sub_cats rest :
  Forall (fun s => sub_line_ok mc s = true) sub_cats ->
  exists main_cat' sub_cat',
    parse_body (Parser log (Some mc) None false)
      (map (fun l => l ++ nl) (section_tail (cat_data m (Some mc)) sub_cats)
       ++ rest)
    = parse_body
        (Parser (replay m log (cat_buckets (mc, sub_cats)))
           main_cat' sub_cat' false)
        rest.
Proof.
  intros H. unfold section_tail, cat_buckets. cbn [fst snd replay fold_left].
  destruct (groups (cat_data m (Some mc)) None) as [|g gs] eqn:E.
  - destruct (parse_body_sub_sections log (Some mc) None mc sub_cats rest H)
      as (m1 & s1 & E1).
    exists m1, s1. rewrite map_app, <- app_assoc. cbn [map app].
    rewrite parse_body_blank, parse_bucket_empty by done. exact E1.
  - destruct (parse_body_sub_sections (parse_bucket m log (mc, None))
                (Some mc) None mc sub_cats rest H) as (m1 & s1 & E1).
    exists m1, s1.
    rewrite map_app, <- app_assoc, <- E, parse_body_groups. exact E1.
Qed.

Lemma replay_app log bs1 bs2 :
  replay m log (bs1 ++ bs2) = replay m (replay m log bs1) bs2.
Proof. apply fold_left_app. Qed.

Lemma replay_cat_empty log mc :
  main_section m mc = [] -> replay m log (cat_buckets mc) = log.
Proof.
  unfold main_section, cat_buckets.
  destruct (groups _ None ++ _) eqn:E; [|done]. intros _.
  apply app_eq_nil in E as [E1 E2].
  cbn [replay fold_left]. rewrite parse_bucket_empty by done.
  assert (H := proj1 (concat_sub_sections_nil _ _) E2). clear E1 E2.
  revert H. generalize (snd mc) as sub_cats.
  induction sub_cats as [|s sub_cats IH]; intros H; [done|].
  cbn [map fold_left]. rewrite parse_bucket_empty.
  - apply IH. intros s' Hs'. apply H, elem_of_cons. by right.
  - apply H, elem_of_cons. by left.
Qed.

Lemma main_section_cons mc :
  main_section m mc = []
  \/ main_section m mc
     = heading2 (fst mc) :: section_tail (cat_data m (Some (fst mc))) (snd mc).
Proof. unfold main_section. destruct (_ ++ _); [by left|by right]. Qed.

Lemma parse_body_sections log main_cat sub_cat cats rest :
  Forall (fun mc : pystr * list pystr => main_line_ok (fst mc) = true) cats ->
  Forall (fun mc : pystr * list pystr =>
            Forall (fun s => sub_line_ok (fst mc) s = true) (snd mc)) cats ->
  exists main_cat' sub_cat',
    parse_body (Parser log main_cat sub_cat false)
      (map (fun l => l ++ nl) (concat (map (main_section m) cats)) ++ rest)
    = parse_body
        (Parser (replay m log (concat (map cat_buckets cats)))
           main_cat' sub_cat' false)
        rest.
Proof.
  intros Hm Hs. revert log main_cat sub_cat.
  induction cats as [|[mc sub_cats] cats IH]; intros log main_cat sub_cat.
  - by exists main_cat, sub_cat.
  - apply Forall_cons in Hm as [Hm Hm'], Hs as [Hs Hs'].
    destruct (main_section_cons (mc, sub_cats)) as [E|E].
    + destruct (IH Hm' Hs' log main_cat sub_cat) as (m2 & s2 & E2).
      exists m2, s2. cbn [map concat].
      rewrite replay_app, E, replay_cat_empty by done. exact E2.
    + cbn [fst snd] in *.
      destruct (parse_body_section_tail log mc sub_cats
                  (map (fun l => l ++ nl) (concat (map (main_section m) cats))
                   ++ rest) Hs) as (m1 & s1 & E1).
      destruct (IH Hm' Hs' (replay m log (cat_buckets (mc, sub_cats))) m1 s1)
        as (m2 & s2 & E2).
      exists m2, s2. cbn [map concat].
      rewrite replay_app, map_app, <- app_assoc, E. cbn [map app].
      rewrite parse_body_main_heading by done.
      etrans; [exact E1|exact E2].
Qed.

End Sections.

(** ** What the parser has stored after the sections *)

Lemma rl_cats_parse_rstate log l : rl_cats (parse_rstate log l) = rl_cats log.
Proof.
  unfold parse_rstate.
  repeat (destruct (_ : bool); try done).
Qed.

Lemma rl_count_parse_rstate log l : rl_count (parse_rstate log l) = rl_count log.
Proof.
  unfold parse_rstate.
  repeat (destruct (_ : bool); try done).
Qed.

Lemma entries_cats log log' main_cat sub_cat u :
  rl_cats log' = rl_cats log ->
  entries log' main_cat sub_cat u = entries log main_cat sub_cat u.
Proof. unfold entries, cat_data. by intros ->. Qed.

Lemma entries_parse_entry log main_cat sub_cat u e k s v :
  line_ok u e ->
  entries (parse_entry log main_cat sub_cat e) k s v
  = if decide ((k, s, v) = (main_cat, sub_cat, u))
    then entries log main_cat sub_cat u ++ [e]
    else entries log k s v.
Proof.
  intros (_ & _ & _ & _ & _ & _ & Hu & _). unfold parse_entry.
  rewrite (entries_cats _ _ _ _ _ (rl_cats_parse_rstate _ _)).
  rewrite Hu, negb_involutive. apply entries_record_entry.
Qed.

Lemma rl_count_parse_entry log main_cat sub_cat u e :
  line_ok u e ->
  rl_count (parse_entry log main_cat sub_cat e)
  = if u then ((rl_count log).1, (rl_count log).2 + 1)
    else ((rl_count log).1 + 1, (rl_count log).2).
Proof.
  intros (_ & _ & _ & _ & _ & _ & Hu & _). unfold parse_entry.
  rewrite rl_count_parse_rstate, rl_count_record_entry.
  by rewrite Hu, negb_involutive.
Qed.

Lemma entries_parse_entries log main_cat sub_cat u es k s v :
  Forall (line_ok u) es ->
  entries (parse_entries log main_cat sub_cat es) k s v
  = if decide ((k, s, v) = (main_cat, sub_cat, u))
    then entries log main_cat sub_cat u ++ es
    else entries log k s v.
Proof.
  intros H. revert log. unfold parse_entries.
  induction H as [|e es He _ IH]; intros log; cbn [fold_left].
  - destruct (decide _) as [[= -> -> ->]|]; [by rewrite app_nil_r|done].
  - rewrite IH, !(entries_parse_entry _ _ _ u) by done.
    rewrite (decide_True (P := (main_cat, sub_cat, u) = (main_cat, sub_cat, u)))
      by done.
    destruct (decide ((k, s, v) = (main_cat, sub_cat, u))); [|done].
    by rewrite <- app_assoc.
Qed.

Section Replay.

Context (m : log) (Hlines : forall main_cat sub_cat u e,
                      e ∈ entries m main_cat sub_cat u -> line_ok u e).

Lemma entries_parse_bucket log b k s v :
  entries (parse_bucket m log b) k s v
  = if decide ((k, s) = (Some (fst b), snd b))
    then entries log k s v ++ entries m k s v
    else entries log k s v.
Proof.
  unfold parse_bucket.
  rewrite (entries_parse_entries _ _ _ true) by by apply bucket_lines.
  rewrite !(entries_parse_entries _ _ _ false) by by apply bucket_lines.
  destruct (decide ((k, s) = _)) as [[= -> ->]|Hne].
  - destruct v.
    + rewrite decide_True, decide_False by done. done.
    + rewrite decide_False, decide_True by done. done.
  - rewrite !decide_False by naive_solver. done.
Qed.

Lemma entries_replay log bs k s v :
  NoDup bs ->
  entries (replay m log bs) k s v
  = if in_buckets k s bs
    then entries log k s v ++ entries m k s v
    else entries log k s v.
Proof.
  intros Hnd. revert log. unfold replay.
  induction Hnd as [|b bs Hb _ IH]; intros log; cbn [fold_left].
  - unfold in_buckets. destruct k; [|done].
    rewrite bool_decide_eq_false_2; [done|]. apply not_elem_of_nil.
  - rewrite IH, !entries_parse_bucket.
    destruct (decide ((k, s) = _)) as [[= -> ->]|Hne].
    + cbn [in_buckets]. rewrite bool_decide_eq_false_2 by (by destruct b).
      rewrite bool_decide_eq_true_2; [done|].
      destruct b. apply elem_of_cons. by left.
    + destruct k as [mc|]; [|done]. cbn [in_buckets].
      destruct (decide ((mc, s) ∈ bs)) as [H|Hn].
      * rewrite !bool_decide_eq_true_2; [done|..|done].
        apply elem_of_cons. by right.
      * rewrite !bool_decide_eq_false_2; [done|..|done].
        intros [Heq|H]%elem_of_cons; [|done]. apply Hne. by subst b.
Qed.

End Replay.

(** *** Counting *)

Lemma sum_list_bump {A : Type} `{EqDecision A} (f g : A -> nat) l b :
  NoDup l -> b ∈ l ->
  (forall a, g a = if decide (a = b) then S (f a) else f a) ->
  sum_list (map g l) = S (sum_list (map f l)).
Proof.
  intros Hnd Hb Hg. induction Hnd as [|a l Ha Hnd IH].
  - by apply elem_of_nil in Hb.
  - cbn [map sum_list]. rewrite Hg.
    apply elem_of_cons in Hb as [->|Hb].
    + rewrite decide_True by done.
      assert (map g l = map f l) as ->; [|simpl; lia].
      apply map_ext_in. intros a' Hin%list_elem_of_In.
      rewrite Hg, decide_False; [done|]. by intros ->.
    + rewrite decide_False by (by intros ->).
      rewrite IH by done. lia.
Qed.

Lemma total_append log log' mc sub_cat u e :
  (mc, sub_cat) ∈ tree_buckets ->
  (forall k s v,
     entries log' k s v
     = if decide ((k, s, v) = (Some mc, sub_cat, u))
       then entries log (Some mc) sub_cat u ++ [e]
       else entries log k s v) ->
  forall v,
    total log' v = (total log v + if bool_decide (v = u) then 1 else 0)%nat.
Proof.
  intros Hb He v. unfold total.
  destruct (decide (v = u)) as [->|Hne].
  - rewrite bool_decide_eq_true_2 by done.
    rewrite (sum_list_bump
               (fun b => length (entries log (Some b.1) b.2 u)) _ _
               (mc, sub_cat) tree_buckets_nodup Hb); [lia|].
    intros [a s]. cbn [fst snd]. rewrite He.
    destruct (decide ((a, s) = (mc, sub_cat))) as [[= -> ->]|Hn].
    + rewrite decide_True by done. rewrite length_app. simpl. lia.
    + rewrite decide_False by naive_solver. done.
  - rewrite bool_decide_eq_false_2 by done. rewrite Nat.add_0_r.
    f_equal. apply map_ext. intros [a s]. cbn [fst snd].
    rewrite He, decide_False by naive_solver. done.
Qed.

Lemma counts_match_append log log' mc sub_cat u e :
  (mc, sub_cat) ∈ tree_buckets ->
  (forall k s v,
     entries log' k s v
     = if decide ((k, s, v) = (Some mc, sub_cat, u))
       then entries log (Some mc) sub_cat u ++ [e]
       else entries log k s v) ->
  rl_count log'
  = (if u then ((rl_count log).1, (rl_count log).2 + 1)
     else ((rl_count log).1 + 1, (rl_count log).2)) ->
  counts_match log -> counts_match log'.
Proof.
  unfold counts_match. intros Hb He Hc Hm.
  rewrite Hc, Hm, !(total_append _ _ _ _ _ _ Hb He).
  destruct u; cbn [fst snd bool_decide decide_rel]; f_equal;
    rewrite ?bool_decide_eq_true_2, ?bool_decide_eq_false_2 by done; lia.
Qed.

(** *** The counters of the parser *)

Lemma total_zero log v :
  (forall k s u, entries log k s u = []) -> total log v = 0%nat.
Proof.
  intros H. unfold total. induction tree_buckets as [|b bs IH]; [done|].
  cbn [map sum_list]. by rewrite H, IH.
Qed.

Section ReplayCounts.

Context (m : log) (Hlines : forall main_cat sub_cat u e,
                      e ∈ entries m main_cat sub_cat u -> line_ok u e).

Lemma counts_match_parse_entries log mc sub_cat u es :
  (mc, sub_cat) ∈ tree_buckets -> Forall (line_ok u) es ->
  counts_match log ->
  counts_match (parse_entries log (Some mc) sub_cat es).
Proof.
  intros Hb H. revert log. unfold parse_entries.
  induction H as [|e es He _ IH]; intros log Hm; [done|].
  cbn [fold_left]. apply IH.
  eapply (counts_match_append log _ mc sub_cat u e); [done| |by apply rl_count_parse_entry|done].
  intros k s v. by apply entries_parse_entry.
Qed.

Lemma counts_match_replay log bs :
  bs ⊆ tree_buckets -> counts_match log -> counts_match (replay m log bs).
Proof.
  revert log. unfold replay.
  induction bs as [|[mc s] bs IH]; intros log Hbs Hm; [done|].
  cbn [fold_left]. apply IH.
  - intros b Hb. apply Hbs, elem_of_cons. by right.
  - unfold parse_bucket. cbn [fst snd].
    assert ((mc, s) ∈ tree_buckets) by (apply Hbs, elem_of_cons; by left).
    apply (counts_match_parse_entries _ _ _ true);
      [done|by apply bucket_lines|].
    apply (counts_match_parse_entries _ _ _ false);
      [done|by apply bucket_lines|done].
Qed.

End ReplayCounts.

(** ** Logs built by the mutation *)

Lemma py_index_elem {A : Type} (l : list A) i a : py_index l i = Ok a -> a ∈ l.
Proof.
  unfold py_index. destruct (_ && _); [|done].
  destruct (l !! _) eqn:E; [|done]. intros [= <-].
  by eapply list_elem_of_lookup_2.
Qed.

Lemma cat_buckets_tree mc b :
  mc ∈ BUGFIX_CATEGORIES -> b ∈ cat_buckets mc -> b ∈ tree_buckets.
Proof.
  intros Hmc Hb. unfold tree_buckets.
  apply list_elem_of_In, in_concat. exists (cat_buckets mc).
  split; [|by apply list_elem_of_In]. by apply in_map, list_elem_of_In.
Qed.

Lemma select_cat_in_tree cat main_cat sub_cat :
  select_cat cat = Ok (main_cat, sub_cat) -> (main_cat, sub_cat) ∈ tree_buckets.
Proof.
  unfold select_cat.
  destruct (py_index BUGFIX_CATEGORIES cat.1) as [[mc sub_cats]|] eqn:E;
    [|done]. cbn [bind fst snd].
  apply py_index_elem in E.
  destruct (snd cat) as [j|].
  - destruct (py_index sub_cats j) as [s|] eqn:Es; [|done]. cbn [bind].
    intros [= <- <-]. apply py_index_elem in Es.
    apply (cat_buckets_tree _ _ E). unfold cat_buckets. cbn [fst snd].
    apply elem_of_cons. right.
    by apply list_elem_of_In, (in_map (fun s => (mc, Some s))), list_elem_of_In.
  - intros [= <- <-]. apply (cat_buckets_tree _ _ E).
    apply elem_of_cons. by left.
Qed.

Lemma contains_snoc s c p :
  mem c p = false -> p <> [] -> contains (s ++ [c]) p = contains s p.
Proof.
  intros Hc Hp. induction s as [|d s IH].
  - destruct p as [|a p]; [done|]. cbn [app contains startswith].
    unfold mem in Hc. cbn [existsb] in Hc.
    apply orb_false_iff in Hc as [Hca _].
    by rewrite Ascii.eqb_sym, Hca.
  - cbn [app contains]. rewrite IH. f_equal.
    apply (startswith_app_stop (d :: s)). done.
Qed.

Lemma lstrip_skip t s cs :
  forallb (fun c => mem c cs) t = true -> lstrip (t ++ s) cs = lstrip s cs.
Proof.
  induction t as [|c t IH]; [done|]. cbn [forallb app lstrip].
  intros [-> Ht]%andb_true_iff. by apply IH.
Qed.

(** A line that starts and ends with characters that are not stripped
    comes back as it is once its terminator is stripped. *)
Lemma strip_line a e1 e0 z cs :
  a :: e1 = e0 ++ [z] -> mem a cs = false -> mem z cs = false ->
  mem newline cs = true ->
  strip ((a :: e1) ++ nl) cs = a :: e1.
Proof.
  intros He Ha Hz Hn. unfold strip, rstrip.
  cbn [app lstrip]. rewrite Ha.
  change (a :: e1 ++ nl) with ((a :: e1) ++ nl).
  rewrite He. clear He Ha.
  rewrite !rev_app_distr. change (rev nl) with [newline].
  change (rev [z]) with [z]. cbn [app lstrip].
  rewrite Hn, Hz. cbn [rev]. by rewrite rev_involutive.
Qed.

Lemma entry_text_line_ok u rs b sha :
  entry_ok u (entry_text rs b sha) = true -> line_ok u (entry_text rs b sha).
Proof.
  unfold entry_ok. intros H.
  repeat (apply andb_true_iff in H as [H ?]).
  repeat match goal with
         | H : negb _ = true |- _ => apply negb_true_iff in H
         | H : Bool.eqb _ _ = true |- _ => apply Bool.eqb_prop in H
         end.
  unfold line_ok.
  split; [by rewrite (contains_snoc _ newline)|].
  split; [by rewrite (contains_snoc _ newline)|].
  split.
  { apply (strip_line "*" _
             (str "* [" ++ rs ++ str "] " ++ b ++ str " ({{GitCommit|rB" ++ sha
              ++ str "}})") "."); try done.
    unfold entry_text. rewrite <- !app_assoc. reflexivity. }
  repeat split; try done. unfold plain. by rewrite H, H4.
Qed.

Lemma fresh_rstates_empty rstate_list rs l :
  fresh_rstates rstate_list !! rs = Some l -> l = [].
Proof.
  unfold fresh_rstates.
  assert (H : forall d : gmap pystr (list pystr),
             (forall rs l, d !! rs = Some l -> l = []) ->
             forall rs l,
               fold_left (fun d k => <[k := []]> d) rstate_list d !! rs = Some l ->
               l = []).
  { induction rstate_list as [|k ks IH]; intros d Hd rs' l'; [apply Hd|].
    cbn [fold_left]. apply IH. intros rs'' l''.
    destruct (decide (k = rs'')) as [->|Hne].
    - rewrite lookup_insert_eq. by intros [= <-].
    - rewrite lookup_insert_ne by done. apply Hd. }
  apply H. intros rs' l'. by rewrite lookup_empty.
Qed.

Lemma entries_no_cats log k s u : rl_cats log = ∅ -> entries log k s u = [].
Proof. unfold entries, cat_data. intros ->. rewrite lookup_empty. by destruct u. Qed.

Lemma built_init branch blender_rev start_sha1 end_sha1 rstate rstate_list :
  built (release_log_init None branch blender_rev start_sha1 end_sha1 rstate
           rstate_list).
Proof.
  split; cbn [release_log_init].
  - done.
  - intros k s u e. rewrite entries_no_cats by done.
    intros H. by apply elem_of_nil in H.
  - intros k s u e. rewrite entries_no_cats by done.
    intros H. by apply elem_of_nil in H.
  - rewrite !total_zero; [done|intros; by apply entries_no_cats..].
  - cbn [rl_rstates]. apply fresh_rstates_empty.
Qed.

Lemma built_record m mc sub_cat u e :
  built m -> (mc, sub_cat) ∈ tree_buckets -> line_ok u e ->
  built (record_entry (touch_cat m (Some mc)) (Some mc) sub_cat u e).
Proof.
  intros [Hnone Htree Hlines Hcount Hrs] Hb He.
  assert (Hent : forall k s v,
             entries (record_entry (touch_cat m (Some mc)) (Some mc) sub_cat u e)
               k s v
             = if decide ((k, s, v) = (Some mc, sub_cat, u))
               then entries m (Some mc) sub_cat u ++ [e]
               else entries m k s v).
  { intros k s v. by rewrite entries_record_entry, !entries_touch_cat. }
  split.
  - unfold record_entry, touch_cat.
    destruct (cat_data _ _), (rl_count _). cbn [rl_cats].
    by rewrite !lookup_insert_ne.
  - intros k s v e'. rewrite Hent.
    destruct (decide _) as [[= -> -> ->]|_]; [|apply Htree].
    intros _. by exists mc.
  - intros k s v e'. rewrite Hent.
    destruct (decide _) as [[= -> -> ->]|_]; [|apply Hlines].
    intros [H|H]%elem_of_app; [by eapply Hlines|].
    by apply list_elem_of_singleton in H as ->.
  - eapply (counts_match_append m _ mc sub_cat u e); [done..| |done].
    by rewrite rl_count_record_entry.
  - intros rs l. rewrite rl_rstates_record_entry. apply Hrs.
Qed.

Lemma built_add_entry m c cat rstate m' :
  built m -> add_entry m c cat rstate = (m', Ok tt) ->
  call_ok (c, cat, rstate) = true -> built m'.
Proof.
  intros Hm (mc & sub_cat & rs & Hsel & -> & _ & ->)%add_entry_ok Hok.
  unfold call_ok in Hok. cbn [fst snd] in Hok.
  rewrite gen_commit_pretty_some in Hok.
  apply built_record; [done|by eapply select_cat_in_tree|].
  by apply entry_text_line_ok.
Qed.

Lemma built_add_entries m calls m' :
  built m -> add_entries m calls = (m', Ok tt) ->
  forallb call_ok calls = true -> built m'.
Proof.
  revert m. induction calls as [|[[c cat] rstate] calls IH]; intros m Hm.
  - by intros [= <-].
  - cbn [add_entries forallb].
    destruct (add_entry m c cat rstate) as [m1 [[]|]] eqn:E; [|done].
    intros H [Hc Hcs]%andb_true_iff.
    eapply IH; [|done..]. by eapply built_add_entry.
Qed.

(** ** The text of a built log, line by line *)

Lemma string_of_uint_chars d :
  forallb (fun c => is_digit c)
    (String.list_ascii_of_string (NilEmpty.string_of_uint d)) = true.
Proof. induction d; cbn; done. Qed.

Lemma forallb_weaken {A : Type} (p q : A -> bool) l :
  (forall a, p a = true -> q a = true) ->
  forallb p l = true -> forallb q l = true.
Proof.
  intros Hpq. induction l as [|a l IH]; [done|]. cbn [forallb].
  intros [Ha Hl]%andb_true_iff. by rewrite (Hpq _ Ha), IH.
Qed.

Lemma str_of_Z_chars n :
  forallb (fun c => is_digit c || Ascii.eqb c "-") (str_of_Z n) = true.
Proof.
  assert (H : forall d,
             forallb (fun c => is_digit c || Ascii.eqb c "-")
               (String.list_ascii_of_string (NilZero.string_of_uint d)) = true).
  { intros d.
    apply (forallb_weaken is_digit); [by intros a ->|].
    destruct d; [reflexivity|apply (string_of_uint_chars (_ d))..]. }
  unfold str_of_Z, str. destruct (Z.to_int n) as [d|d].
  - apply H.
  - apply (H d).
Qed.

Lemma unlines_app ls1 ls2 : unlines (ls1 ++ ls2) = unlines ls1 ++ unlines ls2.
Proof. unfold unlines. by rewrite map_app, concat_app. Qed.

Lemma rstate_sections_empty m rstate_list :
  built m -> concat (map (rstate_section m) rstate_list) = [].
Proof.
  intros Hm. induction rstate_list as [|rs rsl IH]; [done|].
  cbn [map concat]. rewrite IH, app_nil_r. unfold rstate_section.
  destruct (rl_rstates m !! rs) as [l|] eqn:E; [|done].
  by rewrite (built_rstates _ Hm _ _ E).
Qed.

Lemma body_lines_built m : built m -> body_lines m = section_lines m.
Proof.
  intros Hm. unfold body_lines, unsorted_lines, section_lines.
  rewrite (built_no_none _ Hm), bool_decide_eq_false_2 by (by intros [? ?]).
  rewrite app_nil_r. f_equal. apply map_ext. intros mc.
  apply main_cat_lines_section.
Qed.

Lemma render_built m rstate_list :
  built m ->
  render m rstate_list
  = rl_header m
    ++ unlines (opening_block (rl_count m)
                ++ blank_if_empty (section_lines m) ++ closing_block).
Proof.
  intros Hm. unfold render.
  rewrite rstate_sections_empty, body_lines_built by done.
  rewrite !unlines_app. f_equal.
  rewrite (app_assoc (join nl _) nl), join_unlines.
  fold (blank_if_empty (section_lines m)).
  unfold opening_block, closing_block.
  change (unlines [IGNORE_START_LINE; total_line (rl_count m); []; note_line;
                   IGNORE_END_LINE; []])
    with ((IGNORE_START_LINE ++ nl) ++ (total_line (rl_count m) ++ nl)
          ++ nl ++ (note_line ++ nl) ++ (IGNORE_END_LINE ++ nl) ++ nl).
  change (unlines [IGNORE_START_LINE; []; str "<hr/>"; []; IGNORE_END_LINE])
    with ((IGNORE_START_LINE ++ nl) ++ nl ++ (str "<hr/>" ++ nl) ++ nl
          ++ (IGNORE_END_LINE ++ nl)).
  rewrite <- !app_assoc. reflexivity.
Qed.

Lemma mem_forallb (p : ascii -> bool) s c :
  forallb p s = true -> p c = false -> mem c s = false.
Proof.
  unfold mem. induction s as [|d s IH]; [done|]. cbn [forallb existsb].
  intros [Hd Hs]%andb_true_iff Hc. rewrite IH by done.
  destruct (Ascii.eqb_spec c d) as [->|]; [congruence|done].
Qed.

Lemma mem_str_of_Z c n :
  is_digit c || Ascii.eqb c "-" = false -> mem c (str_of_Z n) = false.
Proof. intros Hc. by eapply mem_forallb; [apply str_of_Z_chars|]. Qed.

Lemma mem_total_line c count :
  is_digit c || Ascii.eqb c "-" = false ->
  mem c (str "Total fixed bugs:  ( from tracker,  reported/found by other ways).")
  = false ->
  mem c (total_line count) = false.
Proof.
  intros Hc Hlit. unfold total_line. rewrite !mem_app, !mem_str_of_Z by done.
  revert Hlit. unfold mem, str. cbn [String.list_ascii_of_string existsb].
  rewrite !orb_false_r.
  intros H. repeat (apply orb_false_iff in H as [? H]).
  by repeat match goal with H : _ = false |- _ => rewrite H; clear H end.
Qed.

Lemma plain_total_line count : plain (total_line count) = true.
Proof.
  unfold plain. by rewrite !mem_total_line.
Qed.

Lemma total_line_no_marker count p :
  contains (total_line count ++ nl) ("<"%char :: p) = false.
Proof.
  apply contains_head_absent. rewrite mem_app, mem_total_line; done.
Qed.

Lemma Forall_plain_group u es :
  Forall (line_ok u) es -> Forall (fun l => plain l = true) (group es).
Proof.
  intros H. destruct es as [|e es]; [by constructor|].
  cbn [group]. apply Forall_app. split; [|by repeat constructor].
  eapply Forall_impl; [done|]. by intros l (_ & _ & _ & _ & _ & _ & _ & Hl).
Qed.

Section PlainLines.

Context (m : log) (Hm : built m).

Lemma Forall_plain_groups main_cat sub_cat :
  Forall (fun l => plain l = true) (groups (cat_data m main_cat) sub_cat).
Proof.
  unfold groups. apply Forall_app. split.
  - apply (Forall_plain_group false), Forall_forall. intros e He.
    by apply (built_lines _ Hm main_cat sub_cat false).
  - apply (Forall_plain_group true), Forall_forall. intros e He.
    by apply (built_lines _ Hm main_cat sub_cat true).
Qed.

Lemma plain_of_main_line mc : main_line_ok mc = true -> plain (heading2 mc) = true.
Proof. unfold main_line_ok. by intros [_ H]%andb_true_iff. Qed.

Lemma plain_of_sub_line mc s : sub_line_ok mc s = true -> plain (heading3 s) = true.
Proof. unfold sub_line_ok. by intros [_ H]%andb_true_iff. Qed.

Lemma Forall_plain_sub_sections mc sub_cats :
  Forall (fun s => sub_line_ok mc s = true) sub_cats ->
  Forall (fun l => plain l = true)
    (concat (map (sub_section (cat_data m (Some mc))) sub_cats)).
Proof.
  induction 1 as [|s sub_cats Hs _ IH]; [by constructor|].
  cbn [map concat]. apply Forall_app. split; [|done].
  unfold sub_section.
  destruct (groups _ _) eqn:E; [by constructor|]. rewrite <- E.
  constructor; [by eapply plain_of_sub_line|apply Forall_plain_groups].
Qed.

Lemma Forall_plain_sections cats :
  Forall (fun mc : pystr * list pystr => main_line_ok (fst mc) = true) cats ->
  Forall (fun mc : pystr * list pystr =>
            Forall (fun s => sub_line_ok (fst mc) s = true) (snd mc)) cats ->
  Forall (fun l => plain l = true) (concat (map (main_section m) cats)).
Proof.
  induction 1 as [|mc cats Hmc _ IH]; [by constructor|].
  intros [Hs Hss]%Forall_cons. cbn [map concat].
  apply Forall_app. split; [|by apply IH].
  destruct (main_section_cons m mc) as [->| ->]; [by constructor|].
  constructor; [by apply plain_of_main_line|].
  unfold section_tail. apply Forall_app. split.
  - destruct (groups _ None) eqn:E; [by repeat constructor|].
    rewrite <- E. apply Forall_plain_groups.
  - by apply Forall_plain_sub_sections.
Qed.

Lemma Forall_plain_doc :
  Forall (fun l => plain l = true)
    (opening_block (rl_count m) ++ blank_if_empty (section_lines m)
     ++ closing_block).
Proof.
  apply Forall_app. split; [|apply Forall_app; split].
  - unfold opening_block.
    repeat (constructor; [done || apply plain_total_line|]). constructor.
  - unfold blank_if_empty.
    destruct (section_lines m) eqn:E; [by repeat constructor|].
    rewrite <- E. apply Forall_plain_sections;
      [apply tree_main_lines|apply tree_sub_lines].
  - by repeat constructor.
Qed.

Lemma file_lines_built rstate_list :
  header_ok (rl_header m) = true ->
  file_lines (render m rstate_list)
  = split_lines (rl_header m)
    ++ map (fun l => l ++ nl)
         (opening_block (rl_count m) ++ blank_if_empty (section_lines m)
          ++ closing_block).
Proof.
  unfold header_ok. intros [[Hcr Hend]%andb_true_iff _]%andb_true_iff.
  apply negb_true_iff in Hcr.
  rewrite render_built by done. unfold file_lines.
  pose proof Forall_plain_doc as Hp.
  rewrite universal_newlines_id.
  - rewrite split_lines_app by done. f_equal.
    rewrite <- (app_nil_r (unlines _)), split_lines_unlines.
    + by rewrite app_nil_r.
    + eapply Forall_impl; [exact Hp|]. cbn. unfold plain.
      by intros l [H%negb_true_iff _]%andb_true_iff.
  - rewrite mem_app, Hcr. apply mem_unlines; [done|].
    eapply Forall_impl; [exact Hp|]. cbn. unfold plain.
    by intros l [_ H%negb_true_iff]%andb_true_iff.
Qed.

End PlainLines.

(** ** The parser over the header and the two blocks *)

Section HeaderPhase.

Context (rstate : option pystr) (start_sha1 end_sha1 branch : pystr).

Abbreviation header_loop := (parse_header rstate start_sha1 end_sha1 branch).
Abbreviation start_loop := (parse_start rstate start_sha1 end_sha1 branch).
Abbreviation header_end := (end_of_header rstate start_sha1 end_sha1 branch).

Lemma parse_header_end log mc sc ign header l rest :
  contains l IGNORE_END_LINE = true ->
  header_loop (Parser log mc sc ign) header (l :: rest)
  = header_loop (Parser log mc sc false) header rest.
Proof. cbn [parse_header]. by intros ->. Qed.

Lemma parse_header_ignore log mc sc ign header l rest :
  contains l IGNORE_END_LINE = false ->
  ign || contains l IGNORE_START_LINE = true ->
  header_loop (Parser log mc sc ign) header (l :: rest)
  = header_loop (Parser log mc sc true) header rest.
Proof.
  cbn [parse_header p_ignore p_log p_main_cat p_sub_cat].
  by intros -> ->.
Qed.

Lemma parse_header_line log mc sc header l rest :
  contains l IGNORE_END_LINE = false ->
  contains l IGNORE_START_LINE = false ->
  not_heading l = true ->
  header_loop (Parser log mc sc false) header (l :: rest)
  = header_loop (Parser log mc sc false)
      (header ++ [strip l (str " " ++ nl)]) rest.
Proof.
  unfold not_heading.
  cbn [parse_header p_ignore p_log p_main_cat p_sub_cat orb].
  by intros -> -> ->%negb_true_iff.
Qed.

Lemma parse_start_end log mc sc ign l rest :
  contains l IGNORE_END_LINE = true ->
  start_loop (Parser log mc sc ign) (l :: rest)
  = start_loop (Parser log mc sc false) rest.
Proof. cbn [parse_start]. by intros ->. Qed.

Lemma parse_start_ignore log mc sc ign l rest :
  contains l IGNORE_END_LINE = false ->
  ign || contains l IGNORE_START_LINE = true ->
  start_loop (Parser log mc sc ign) (l :: rest)
  = start_loop (Parser log mc sc true) rest.
Proof.
  cbn [parse_start p_ignore p_log p_main_cat p_sub_cat].
  by intros -> ->.
Qed.

Lemma parse_start_line log mc sc l rest :
  contains l IGNORE_END_LINE = false ->
  contains l IGNORE_START_LINE = false ->
  start_loop (Parser log mc sc false) (l :: rest)
  = header_loop (Parser log mc sc false) [strip l (str " " ++ nl)] rest.
Proof.
  cbn [parse_start p_ignore p_log p_main_cat p_sub_cat orb].
  by intros -> ->.
Qed.

(** Header lines leave the log and the current category alone. *)
Lemma parse_header_skips log mc sc ign header hs rest :
  forallb not_heading hs = true ->
  exists ign' header',
    header_loop (Parser log mc sc ign) header (hs ++ rest)
    = header_loop (Parser log mc sc ign') header' rest.
Proof.
  revert ign header. induction hs as [|l hs IH]; intros ign header.
  - intros _. by exists ign, header.
  - cbn [forallb app]. intros [Hl Hhs]%andb_true_iff.
    destruct (contains l IGNORE_END_LINE) eqn:He.
    { destruct (IH false header Hhs) as (i & h & E).
      exists i, h. by rewrite parse_header_end. }
    destruct (ign || contains l IGNORE_START_LINE) eqn:Hs.
    { destruct (IH true header Hhs) as (i & h & E).
      exists i, h. by rewrite parse_header_ignore. }
    apply orb_false_iff in Hs as [-> Hs].
    destruct (IH false (header ++ [strip l (str " " ++ nl)]) Hhs)
      as (i & h & E).
    exists i, h. by rewrite parse_header_line.
Qed.

Lemma parse_start_skips log mc sc ign hs rest :
  forallb not_heading hs = true ->
  (exists ign',
     start_loop (Parser log mc sc ign) (hs ++ rest)
     = start_loop (Parser log mc sc ign') rest)
  \/ (exists ign' header',
        start_loop (Parser log mc sc ign) (hs ++ rest)
        = header_loop (Parser log mc sc ign') header' rest).
Proof.
  revert ign. induction hs as [|l hs IH]; intros ign.
  - intros _. left. by exists ign.
  - cbn [forallb app]. intros [Hl Hhs]%andb_true_iff.
    destruct (contains l IGNORE_END_LINE) eqn:He.
    { rewrite parse_start_end by done. by apply IH. }
    destruct (ign || contains l IGNORE_START_LINE) eqn:Hs.
    { rewrite parse_start_ignore by done. by apply IH. }
    apply orb_false_iff in Hs as [-> Hs].
    rewrite parse_start_line by done. right.
    by apply parse_header_skips.
Qed.

(** The opening block leaves the parser reading the header, not
    ignoring. *)
Lemma parse_header_opening log mc sc ign header count rest :
  exists header',
    header_loop (Parser log mc sc ign) header
      (map (fun l => l ++ nl) (opening_block count) ++ rest)
    = header_loop (Parser log mc sc false) header' rest.
Proof.
  exists (header ++ [[]]). unfold opening_block. cbn [map app].
  rewrite parse_header_ignore by (done || by rewrite orb_true_r).
  rewrite parse_header_ignore by (done || apply total_line_no_marker).
  rewrite parse_header_ignore by done.
  rewrite parse_header_ignore by done.
  rewrite parse_header_end by done.
  by rewrite parse_header_line.
Qed.

Lemma parse_start_opening log mc sc ign count rest :
  exists header',
    start_loop (Parser log mc sc ign)
      (map (fun l => l ++ nl) (opening_block count) ++ rest)
    = header_loop (Parser log mc sc false) header' rest.
Proof.
  exists [[]]. unfold opening_block. cbn [map app].
  rewrite parse_start_ignore by (done || by rewrite orb_true_r).
  rewrite parse_start_ignore by (done || apply total_line_no_marker).
  rewrite parse_start_ignore by done.
  rewrite parse_start_ignore by done.
  rewrite parse_start_end by done.
  by rewrite parse_start_line.
Qed.

Lemma parse_to_sections log mc sc hs count rest :
  forallb not_heading hs = true ->
  exists header',
    start_loop (Parser log mc sc false)
      (hs ++ map (fun l => l ++ nl) (opening_block count) ++ rest)
    = header_loop (Parser log mc sc false) header' rest.
Proof.
  intros Hhs.
  destruct (parse_start_skips log mc sc false hs
              (map (fun l => l ++ nl) (opening_block count) ++ rest) Hhs)
    as [(i & E)|(i & h & E)].
  - destruct (parse_start_opening log mc sc i count rest) as (h' & E').
    exists h'. by rewrite E.
  - destruct (parse_header_opening log mc sc i h count rest) as (h' & E').
    exists h'. by rewrite E.
Qed.

Lemma parse_body_closing log mc sc :
  parse_body (Parser log mc sc false)
    (map (fun l => l ++ nl) closing_block)
  = Parser log mc sc false.
Proof. reflexivity. Qed.

Lemma parse_header_closing log mc sc header :
  rl_cats log = ∅ ->
  exists hdr,
    p_log (header_loop (Parser log mc sc false) header
             (map (fun l => l ++ nl) ([] :: closing_block)))
    = parsed_start hdr (rl_rstates log).
Proof.
  intros Hc. eexists. cbn -[carried_header]. unfold parsed_start.
  by rewrite Hc.
Qed.

Lemma parse_header_main_heading log mc sc header m rest :
  main_line_ok m = true ->
  header_loop (Parser log mc sc false) header ((heading2 m ++ nl) :: rest)
  = parse_body (header_end (Parser log mc sc false) header (Some m) None)
      rest.
Proof.
  unfold main_line_ok. intros H.
  repeat (apply andb_true_iff in H as [H ?]).
  apply negb_true_iff in H.
  repeat match goal with
         | H : negb _ = true |- _ => apply negb_true_iff in H
         | H : bool_decide _ = true |- _ => apply bool_decide_eq_true in H
         end.
  cbn [parse_header p_ignore p_log p_main_cat p_sub_cat orb].
  by repeat match goal with H : _ = _ |- _ => rewrite H; clear H end.
Qed.

Context (m : log) (Hm : built m).

(** The sections, from the first heading on. *)
Lemma parse_header_sections log mc sc header cats rest :
  rl_cats log = ∅ ->
  Forall (fun c : pystr * list pystr => main_line_ok (fst c) = true) cats ->
  Forall (fun c : pystr * list pystr =>
            Forall (fun s => sub_line_ok (fst c) s = true) (snd c)) cats ->
  concat (map (main_section m) cats) <> [] ->
  exists hdr mc' sc',
    header_loop (Parser log mc sc false) header
      (map (fun l => l ++ nl) (concat (map (main_section m) cats)) ++ rest)
    = parse_body
        (Parser (replay m (parsed_start hdr (rl_rstates log))
                   (concat (map cat_buckets cats)))
           mc' sc' false)
        rest.
Proof.
  intros Hc Hmain Hsub.
  induction cats as [|[c sub_cats] cats IH]; [done|].
  apply Forall_cons in Hmain as [Hc1 Hmain], Hsub as [Hs1 Hsub].
  cbn [map concat fst snd] in *.
  destruct (main_section_cons m (c, sub_cats)) as [E|E]; rewrite E.
  - cbn [app]. intros Hne.
    destruct (IH Hmain Hsub Hne) as (hdr & mc' & sc' & E').
    exists hdr, mc', sc'.
    by rewrite replay_app, replay_cat_empty.
  - intros _.
    destruct (parse_body_section_tail m (built_lines _ Hm)
                (parsed_start
                   (carried_header header rstate start_sha1 end_sha1 branch)
                   (rl_rstates log))
                c sub_cats
                (map (fun l => l ++ nl) (concat (map (main_section m) cats))
                 ++ rest) Hs1) as (m1 & s1 & E1).
    destruct (parse_body_sections m (built_lines _ Hm)
                (replay m
                   (parsed_start
                      (carried_header header rstate start_sha1 end_sha1 branch)
                      (rl_rstates log))
                   (cat_buckets (c, sub_cats)))
                m1 s1 cats rest Hmain Hsub) as (m2 & s2 & E2).
    exists (carried_header header rstate start_sha1 end_sha1 branch), m2, s2.
    cbn [fst snd map app].
    rewrite parse_header_main_heading by done.
    unfold end_of_header. cbn [p_log p_ignore]. rewrite Hc.
    rewrite map_app, <- app_assoc, replay_app.
    etrans; [exact E1|]. exact E2.
Qed.

End HeaderPhase.

(** ** Round trip *)

Lemma replay_all_empty m log cats :
  concat (map (main_section m) cats) = [] ->
  replay m log (concat (map cat_buckets cats)) = log.
Proof.
  revert log. induction cats as [|c cats IH]; intros log; [done|].
  cbn [map concat]. intros [H1 H2]%app_eq_nil.
  by rewrite replay_app, replay_cat_empty, IH.
Qed.

(** Reading the file of a built log is feeding the parser with the
    buckets of that log, one after the other. *)
Lemma blank_if_empty_ne ls : ls <> [] -> blank_if_empty ls = ls.
Proof. by destruct ls. Qed.

Lemma parse_built m rstate_list branch blender_rev start_sha1 end_sha1 rstate
    rstate_list' :
  built m -> header_ok (rl_header m) = true ->
  exists hdr,
    release_log_init (Some (render m rstate_list)) branch blender_rev
      start_sha1 end_sha1 rstate rstate_list'
    = replay m (parsed_start hdr (fresh_rstates rstate_list')) tree_buckets.
Proof.
  intros Hm Hh. cbn [release_log_init].
  rewrite file_lines_built by done.
  apply andb_true_iff in Hh as [_ Hh].
  set (log0 := {| rl_header := fresh_header blender_rev rstate start_sha1 end_sha1;
                  rl_count := (0, 0);
                  rl_rstates := fresh_rstates rstate_list';
                  rl_cats := ∅ |}).
  destruct (parse_to_sections rstate start_sha1 end_sha1 branch log0 None None
              (split_lines (rl_header m)) (rl_count m)
              (map (fun l => l ++ nl)
                 (blank_if_empty (section_lines m) ++ closing_block)) Hh)
    as (header & E).
  apply (f_equal p_log) in E. rewrite map_app.
  assert (Hcase : section_lines m = [] \/ section_lines m <> [])
    by (destruct (section_lines m); [by left|by right]).
  destruct Hcase as [Hs|Hs].
  - rewrite Hs in *.
    destruct (parse_header_closing rstate start_sha1 end_sha1 branch log0
                None None header eq_refl) as (hdr & E').
    exists hdr. unfold tree_buckets. rewrite replay_all_empty by done.
    etrans; [exact E|]. exact E'.
  - rewrite blank_if_empty_ne in * by done.
    destruct (parse_header_sections rstate start_sha1 end_sha1 branch m Hm
                log0 None None header BUGFIX_CATEGORIES
                (map (fun l => l ++ nl) closing_block) eq_refl
                tree_main_lines tree_sub_lines Hs) as (hdr & mc & sc & E').
    apply (f_equal p_log) in E'. rewrite parse_body_closing in E'.
    exists hdr. etrans; [exact E|]. rewrite map_app. exact E'.
Qed.

Lemma total_ext a b v :
  (forall k s u, entries a k s u = entries b k s u) -> total a v = total b v.
Proof.
  intros H. unfold total. f_equal. apply map_ext. intros c. by rewrite H.
Qed.

Lemma read_built m rstate_list branch blender_rev start_sha1 end_sha1 rstate
    rstate_list' :
  built m -> header_ok (rl_header m) = true ->
  (forall main_cat sub_cat u,
     entries (release_log_init (Some (render m rstate_list)) branch blender_rev
                start_sha1 end_sha1 rstate rstate_list') main_cat sub_cat u
     = entries m main_cat sub_cat u)
  /\ rl_count (release_log_init (Some (render m rstate_list)) branch blender_rev
                 start_sha1 end_sha1 rstate rstate_list')
     = rl_count m.
Proof.
  intros Hm Hh.
  destruct (parse_built m rstate_list branch blender_rev start_sha1 end_sha1
              rstate rstate_list' Hm Hh) as (hdr & ->).
  assert (He : forall k s u,
             entries (replay m (parsed_start hdr (fresh_rstates rstate_list'))
                        tree_buckets) k s u
             = entries m k s u).
  { intros k s u.
    rewrite (entries_replay m (built_lines _ Hm)) by apply tree_buckets_nodup.
    rewrite entries_no_cats by done.
    destruct (in_buckets k s tree_buckets) eqn:Hin; [done|].
    destruct (entries m k s u) as [|e es] eqn:E; [done|].
    destruct (built_in_tree _ Hm k s u e) as (mc & -> & Hb).
    { rewrite E. apply elem_of_cons. by left. }
    cbn [in_buckets] in Hin. by rewrite bool_decide_eq_true_2 in Hin. }
  split; [exact He|].
  assert (Hc : counts_match
                 (replay m (parsed_start hdr (fresh_rstates rstate_list'))
                    tree_buckets)).
  { apply (counts_match_replay m (built_lines _ Hm)); [done|].
    unfold counts_match.
    rewrite !total_zero; [done|intros; by apply entries_no_cats..]. }
  rewrite Hc, (built_count _ Hm).
  by rewrite !(total_ext _ m _ He).
Qed.

(** C1, as stated, fails: a commit whose message already holds the
    bug-report link is recorded as unreported and read back as reported. *)
Lemma round_trip_counterexample :
  add_entries sample_log [(commit_linked, (1, Some 2), Some (str "alpha"))]
  = (linked_log, Ok tt)
  /\ rl_count linked_log = (0, 1)
  /\ rl_count (read_back linked_log) = (1, 0)
  /\ entries linked_log (Some (str "Data / Geometry")) (Some (str "Mesh Editing"))
       true
     <> entries (read_back linked_log) (Some (str "Data / Geometry"))
          (Some (str "Mesh Editing")) true.
Proof.
  split; [by vm_compute|]. split; [by vm_compute|]. split; [by vm_compute|].
  vm_compute. discriminate.
Qed.

(** C1 (amended): for every log built from no file by calls of the
    mutation that return, when every rendered entry is one line without an
    ignore marker, holds the text ["Fix "], and holds the bug-report link
    exactly when it was recorded as reported, and when the header of the
    log is made of complete lines of which none opens like a heading,
    parsing the rendered document gives a log with the same entries in
    every bucket and the same two counters. *)
Theorem round_trip branch blender_rev start_sha1 end_sha1 rstate rstate_list
    calls m rstate_list_w branch' blender_rev' start_sha1' end_sha1' rstate'
    rstate_list' :
  add_entries
    (release_log_init None branch blender_rev start_sha1 end_sha1 rstate
       rstate_list) calls = (m, Ok tt) ->
  forallb call_ok calls = true ->
  header_ok (rl_header m) = true ->
  (forall main_cat sub_cat u,
     entries (release_log_init (Some (render m rstate_list_w)) branch'
                blender_rev' start_sha1' end_sha1' rstate' rstate_list')
       main_cat sub_cat u
     = entries m main_cat sub_cat u)
  /\ rl_count (release_log_init (Some (render m rstate_list_w)) branch'
                 blender_rev' start_sha1' end_sha1' rstate' rstate_list')
     = rl_count m.
Proof.
  intros Hrun Hcalls Hh. apply read_built; [|done].
  eapply built_add_entries; [apply built_init|done..].
Qed.

Lemma round_trip_witness :
  (forall main_cat sub_cat u,
     entries (read_back sample_log3) main_cat sub_cat u
     = entries sample_log3 main_cat sub_cat u)
  /\ rl_count (read_back sample_log3) = rl_count sample_log3.
Proof.
  apply (round_trip (str "main") (str "2.79") (str "0123456789abcdef")
           (str "fedcba9876543210") (Some (str "alpha")) [[]] sample_calls).
  - vm_compute. reflexivity.
  - vm_compute. reflexivity.
  - vm_compute. reflexivity.
Defined.

(** ** More about the message transformer *)

Lemma lstrip_head s cs a t : lstrip s cs = a :: t -> mem a cs = false.
Proof.
  induction s as [|c s IH]; [done|]. cbn [lstrip].
  destruct (mem c cs) eqn:E; [done|]. by intros [= <- _].
Qed.

Lemma lstrip_suffix s cs : exists pre, s = pre ++ lstrip s cs.
Proof.
  induction s as [|c s [pre IH]]; [by exists []|]. cbn [lstrip].
  destruct (mem c cs); [|by exists []].
  exists (c :: pre). cbn [app]. by rewrite <- IH.
Qed.

Lemma rstrip_prefix s cs : exists post, s = rstrip s cs ++ post.
Proof.
  unfold rstrip. destruct (lstrip_suffix (rev s) cs) as [pre H].
  exists (rev pre).
  rewrite <- (rev_involutive s), H at 1. by rewrite rev_app_distr.
Qed.

Lemma rstrip_last s cs t z : rstrip s cs = t ++ [z] -> mem z cs = false.
Proof.
  unfold rstrip. intros H.
  apply (f_equal (@rev ascii)) in H.
  rewrite rev_involutive, rev_app_distr in H. cbn in H.
  by eapply lstrip_head.
Qed.

Lemma strip_head s cs a t : strip s cs = a :: t -> mem a cs = false.
Proof.
  unfold strip. intros H.
  destruct (rstrip_prefix (lstrip s cs) cs) as [post Hp].
  rewrite H in Hp. by eapply lstrip_head.
Qed.

Lemma strip_last s cs t z : strip s cs = t ++ [z] -> mem z cs = false.
Proof. unfold strip. apply rstrip_last. Qed.

Lemma mem_replace_newline s : mem newline (replace_char s newline " ") = false.
Proof.
  unfold mem, replace_char. induction s as [|c s IH]; [done|].
  cbn [map existsb]. rewrite IH, orb_false_r.
  destruct (Ascii.eqb c newline) eqn:E; [done|].
  by rewrite Ascii.eqb_sym.
Qed.

Lemma replace_keeps c cs :
  mem newline cs = true -> mem c cs = false ->
  (if Ascii.eqb c newline then " "%char else c) = c.
Proof.
  intros Hn Hc. destruct (Ascii.eqb_spec c newline) as [->|]; [|done].
  congruence.
Qed.

(** X1: the summary of a commit is one line, and it neither starts nor
    ends with a blank, a colon, a full stop, a semicolon or a hyphen. *)
Theorem gen_commit_summary_shape c :
  mem newline (gen_commit_summary c) = false
  /\ (forall a t,
        gen_commit_summary c = a :: t -> mem a (str " :.;-" ++ nl) = false)
  /\ (forall t z,
        gen_commit_summary c = t ++ [z] -> mem z (str " :.;-" ++ nl) = false).
Proof.
  unfold gen_commit_summary.
  set (S := strip (split_head (body c) (nl ++ nl)) (str " :.;-" ++ nl)).
  split; [apply mem_replace_newline|]. split.
  - intros a t H. unfold replace_char in H.
    destruct S as [|a0 t0] eqn:E; [done|]. cbn [map] in H.
    injection H as <- _.
    assert (Ha : mem a0 (str " :.;-" ++ nl) = false) by (by eapply strip_head).
    by rewrite (replace_keeps _ (str " :.;-" ++ nl)).
  - intros t z H. unfold replace_char in H.
    apply map_eq_app in H as (t0 & l0 & E & _ & Hz).
    destruct l0 as [|z0 [|? ?]]; [done| |done]. cbn [map] in Hz.
    injection Hz as <-.
    assert (Ha : mem z0 (str " :.;-" ++ nl) = false) by (by eapply strip_last).
    by rewrite (replace_keeps _ (str " :.;-" ++ nl)).
Qed.

(** ** Prose of an unreported commit *)

Lemma bugify_copies_prefix t :
  Re.sub Re.re_bugify repl_bugify (str "Fix unreported: " ++ t)
  = str "Fix unreported: " ++ Re.sub Re.re_bugify repl_bugify t.
Proof.
  apply sub_copy. intros c s Hc. apply re_bugify_not_T.
  repeat (apply elem_of_cons in Hc as [->|Hc]; [done|]).
  by apply elem_of_nil in Hc.
Qed.

Lemma commitify_copies_prefix t :
  exists rest,
    Re.sub Re.re_commitify repl_commitify (str "Fix unreported: " ++ t)
    = str "Fix unreported:" ++ rest.
Proof.
  eexists. unfold Re.sub.
  change (str "Fix unreported: " ++ t)
    with ("F"%char :: "i"%char :: "x"%char :: " "%char :: "u"%char
          :: "n"%char :: "r"%char :: "e"%char :: "p"%char :: "o"%char
          :: "r"%char :: "t"%char :: "e"%char :: "d"%char :: ":"%char
          :: " "%char :: t).
  do 15 (rewrite sub_from_none by reflexivity).
  reflexivity.
Qed.

Lemma contains_startswith s p : startswith s p = true -> contains s p = true.
Proof. destruct s; cbn [contains]; by intros ->. Qed.

Lemma contains_middle a p b : contains (a ++ p ++ b) p = true.
Proof.
  induction a as [|c a IH].
  - cbn [app]. apply contains_startswith, startswith_app.
  - cbn [app contains]. by rewrite IH, orb_true_r.
Qed.

(** X2: whenever the transformer flags a commit as unreported, the prose
    it returns starts with ["Fix unreported:"]; the entry rendered from it
    therefore holds the text ["Fix "] by which the parser recognises an
    entry. *)
Theorem unreported_prose_prefix c :
  snd (gen_commit_message_pretty c) = true ->
  (exists rest, fst (gen_commit_message_pretty c) = str "Fix unreported:" ++ rest)
  /\ forall rs entry u,
       gen_commit_pretty c (Some rs) = Ok (entry, u) ->
       contains entry (str "Fix ") = true.
Proof.
  intros Hu.
  assert (H : exists rest,
             fst (gen_commit_message_pretty c) = str "Fix unreported:" ++ rest).
  { revert Hu. unfold gen_commit_message_pretty. cbn [fst snd]. intros ->.
    rewrite bugify_copies_prefix. apply commitify_copies_prefix. }
  split; [done|]. destruct H as [rest H].
  intros rs entry u Hp.
  pose proof (gen_commit_pretty_some c rs) as E. rewrite H in E.
  assert (entry = entry_text rs (str "Fix unreported:" ++ rest)
                    (take 10 (sha1 c))) as -> by congruence.
  unfold entry_text.
  change (str "Fix unreported:" ++ rest)
    with (str "Fix " ++ str "unreported:" ++ rest).
  rewrite (app_assoc (str "* [")), (app_assoc _ (str "] ")).
  rewrite <- (app_assoc (str "Fix ")).
  apply contains_middle.
Qed.

Lemma unreported_prose_prefix_witness :
  (exists rest,
     fst (gen_commit_message_pretty commit_cleanup)
     = str "Fix unreported:" ++ rest)
  /\ forall rs entry u,
       gen_commit_pretty commit_cleanup (Some rs) = Ok (entry, u) ->
       contains entry (str "Fix ") = true.
Proof. apply (unreported_prose_prefix commit_cleanup). reflexivity. Defined.

(** ** The prose of the transformer holds no bug token *)

Lemma run_nil_hd p s : Re.run p s = [] -> match s with c :: _ => p c = false | [] => True end.
Proof. destruct s as [|c s]; [done|]. simpl. by destruct (p c). Qed.

Lemma re_bugify_none c t :
  Re.re_bugify (c :: t) = None <-> (Ascii.eqb c "T" && hd_digit t) = false.
Proof.
  cbn [Re.re_bugify]. destruct (Ascii.eqb c "T"); [|done]. cbn [andb].
  destruct t as [|d t]; [done|]. cbn [Re.run hd_digit].
  by destruct (is_digit d).
Qed.

Lemma search_bugify_no_token s : Re.search Re.re_bugify s = negb (no_token s).
Proof.
  induction s as [|c s IH]; [done|].
  cbn [Re.search no_token].
  destruct (Re.re_bugify (c :: s)) eqn:E.
  - destruct (Ascii.eqb c "T" && hd_digit s) eqn:F; [done|].
    apply re_bugify_none in F. congruence.
  - apply re_bugify_none in E. by rewrite E.
Qed.

Lemma no_token_app x y :
  no_token x = true -> no_token y = true ->
  ends_T x && hd_digit y = false ->
  no_token (x ++ y) = true.
Proof.
  intros Hx Hy. induction x as [|c x IH]; [done|]. intros Hj.
  cbn [app no_token] in *. apply andb_true_iff in Hx as [Hc Hx].
  destruct x as [|d x].
  - cbn [app]. unfold ends_T in Hj. cbn in Hj. by rewrite Hj, Hy.
  - cbn [app hd_digit] in *. rewrite Hc. cbn [andb]. apply IH; [done|].
    exact Hj.
Qed.

Lemma no_token_no_T x :
  forallb (fun c => negb (Ascii.eqb c "T")) x = true ->
  no_token x = true /\ ends_T x = false.
Proof.
  induction x as [|c x IH]; [done|]. cbn [forallb].
  intros [Hc Hx]%andb_true_iff. destruct (IH Hx) as [IH1 IH2].
  apply negb_true_iff in Hc.
  split.
  - cbn [no_token]. by rewrite Hc, IH1.
  - unfold ends_T in *. destruct x as [|d x]; [by cbn; rewrite Hc|].
    by rewrite last_cons_cons.
Qed.

Lemma hd_digit_app x y : x <> [] -> hd_digit (x ++ y) = hd_digit x.
Proof. by destruct x. Qed.

Lemma digits_no_T ds :
  forallb is_digit ds = true ->
  forallb (fun c => negb (Ascii.eqb c "T")) ds = true.
Proof.
  intros H. apply forallb_forall. intros c Hc.
  rewrite forallb_forall in H. by rewrite is_digit_not_T by auto.
Qed.

Lemma forallb_run p s : forallb p (Re.run p s) = true.
Proof.
  induction s as [|c s IH]; [done|]. simpl.
  destruct (p c) eqn:E; [|done]. simpl. by rewrite E.
Qed.

Lemma re_bugify_some s g n :
  Re.re_bugify s = Some (g, n) -> forallb is_digit g = true.
Proof.
  destruct s as [|c s]; [done|]. cbn [Re.re_bugify].
  destruct (Ascii.eqb c "T"); [|done].
  pose proof (forallb_run is_digit s) as H.
  destruct (Re.run is_digit s); [done|]. by intros [= <- _].
Qed.

Lemma bugify_no_token s k :
  no_token (Re.sub_from Re.re_bugify repl_bugify s k) = true
  /\ (k = 0%nat ->
      hd_digit (Re.sub_from Re.re_bugify repl_bugify s 0) = true ->
      hd_digit s = true).
Proof.
  revert k. induction s as [|c s IH]; intros k; [by destruct k|].
  destruct k as [|k]; [|split; [apply IH|done]].
  cbn [Re.sub_from].
  destruct (Re.re_bugify (c :: s)) as [[g n]|] eqn:E.
  - split; [|intros _ H; by vm_compute in H].
    apply re_bugify_some in E.
    unfold repl_bugify. rewrite <- !app_assoc.
    assert (F : forallb (fun c => negb (Ascii.eqb c "T"))
                  (str "{{BugReport|" ++ g ++ str "}}") = true).
    { rewrite !forallb_app, (digits_no_T g) by done. reflexivity. }
    apply no_token_no_T in F as [F1 F2].
    rewrite !app_assoc, <- (app_assoc (str "{{BugReport|")).
    apply no_token_app; [done|apply IH|by rewrite F2].
  - apply re_bugify_none in E.
    destruct (IH 0%nat) as [IH1 IH2].
    split; [|done].
    cbn [no_token]. rewrite IH1, andb_true_r.
    apply negb_true_iff.
    destruct (Ascii.eqb c "T"); [|done]. cbn [andb] in *.
    destruct (hd_digit (Re.sub_from _ _ s 0)) eqn:F; [|done].
    rewrite IH2 in E by done. done.
Qed.

Lemma commit_alt_some s alt g :
  Re.commit_alt s alt = Some g ->
  exists h, g = alt ++ h /\ forallb is_hex h = true.
Proof.
  unfold Re.commit_alt. destruct (startswith s alt); [|done].
  destruct (6 <=? _)%nat; [|done]. intros [= <-].
  eexists. split; [done|]. apply forallb_run.
Qed.

Lemma first_alt_some s alts g :
  Re.first_alt s alts = Some g ->
  exists alt h, alt ∈ alts /\ g = alt ++ h /\ forallb is_hex h = true.
Proof.
  induction alts as [|alt alts IH]; [done|]. cbn [Re.first_alt].
  destruct (Re.commit_alt s alt) as [g'|] eqn:E.
  - intros [= <-]. apply commit_alt_some in E as (h & -> & Hh).
    exists alt, h. split; [apply elem_of_cons; by left|done].
  - intros (alt' & h & Hin & -> & Hh)%IH.
    exists alt', h. split; [apply elem_of_cons; by right|done].
Qed.

Lemma hex_no_T h :
  forallb is_hex h = true ->
  forallb (fun c => negb (Ascii.eqb c "T")) h = true.
Proof.
  intros H. apply forallb_forall. intros c Hc.
  rewrite forallb_forall in H. by rewrite is_hex_not_T by auto.
Qed.

Lemma ends_T_app x y : y <> [] -> ends_T (x ++ y) = ends_T y.
Proof.
  intros Hy. unfold ends_T. rewrite last_app.
  destruct (last y) as [c|] eqn:E; [done|].
  by apply last_None in E.
Qed.

Lemma repl_commitify_no_token s g n :
  Re.re_commitify s = Some (g, n) ->
  no_token (repl_commitify g) = true /\ ends_T (repl_commitify g) = false.
Proof.
  destruct s as [|w [|r s]]; cbn [Re.re_commitify]; [done..|].
  destruct (negb (is_word w) && Ascii.eqb r "r") eqn:Hr; [|done].
  apply andb_true_iff in Hr as [_ Hr]. apply Ascii.eqb_eq in Hr as ->.
  destruct (Re.first_alt s _) as [ga|] eqn:E; [|done].
  intros [= <- _].
  apply first_alt_some in E as (alt & h & Hin & -> & Hh).
  apply hex_no_T in Hh.
  assert (Ht : forallb (fun c => negb (Ascii.eqb c "T")) (h ++ str "}}") = true).
  { by rewrite forallb_app, Hh. }
  apply no_token_no_T in Ht as [Ht1 Ht2].
  assert (Heq : repl_commitify ("r"%char :: alt ++ h)
                = (str "{{GitCommit|r" ++ alt) ++ (h ++ str "}}")).
  { unfold repl_commitify. cbn. by rewrite <- !app_assoc. }
  rewrite Heq. split.
  - apply no_token_app; [|done|].
    + repeat (apply elem_of_cons in Hin as [->|Hin]); [done..|].
      by apply elem_of_nil in Hin.
    + replace (ends_T (str "{{GitCommit|r" ++ alt)) with false; [done|].
      repeat (apply elem_of_cons in Hin as [->|Hin]); [done..|].
      by apply elem_of_nil in Hin.
  - rewrite ends_T_app; [done|]. by destruct h.
Qed.

Lemma no_token_tail c s : no_token (c :: s) = true -> no_token s = true.
Proof. cbn [no_token]. by intros [_ ?]%andb_true_iff. Qed.

Lemma commitify_no_token s k :
  no_token s = true ->
  no_token (Re.sub_from Re.re_commitify repl_commitify s k) = true
  /\ (k = 0%nat ->
      hd_digit (Re.sub_from Re.re_commitify repl_commitify s 0) = true ->
      hd_digit s = true).
Proof.
  revert k. induction s as [|c s IH]; intros k Hs; [by destruct k|].
  pose proof (no_token_tail _ _ Hs) as Hs'.
  destruct k as [|k]; [|split; [by apply IH|done]].
  cbn [Re.sub_from].
  destruct (Re.re_commitify (c :: s)) as [[g n]|] eqn:E.
  - split; [|intros _ H; by vm_compute in H].
    apply repl_commitify_no_token in E as [E1 E2].
    apply no_token_app; [done|by apply IH|by rewrite E2].
  - destruct (IH 0%nat Hs') as [IH1 IH2].
    split; [|done].
    cbn [no_token] in *. rewrite IH1, andb_true_r.
    apply andb_true_iff in Hs as [Hc _]. apply negb_true_iff in Hc.
    apply negb_true_iff.
    destruct (Ascii.eqb c "T"); [|done]. cbn [andb] in *.
    destruct (hd_digit (Re.sub_from _ _ s 0)) eqn:F; [|done].
    rewrite IH2 in Hc by done. done.
Qed.

(** X3: the prose the transformer returns holds no bug token: the pattern
    of the bug rewrite, a ["T"] directly followed by a digit, finds no
    match in it. *)
Theorem message_pretty_no_bug_token c :
  Re.search Re.re_bugify (fst (gen_commit_message_pretty c)) = false.
Proof.
  rewrite search_bugify_no_token. apply negb_false_iff.
  unfold gen_commit_message_pretty. cbn [fst]. unfold Re.sub.
  apply commitify_no_token, bugify_no_token.
Qed.

(** ** Ignore blocks *)

Section IgnoreBlock.

Context (rstate : option pystr) (start_sha1 end_sha1 branch : pystr).

Lemma parse_body_ignoring log mc sc mid rest :
  Forall (fun l => contains l IGNORE_END_LINE = false) mid ->
  parse_body (Parser log mc sc true) (mid ++ rest)
  = parse_body (Parser log mc sc true) rest.
Proof.
  induction 1 as [|l mid Hl _ IH]; [done|].
  cbn [app]. by rewrite parse_body_ignored.
Qed.

Lemma parse_header_ignoring log mc sc header mid rest :
  Forall (fun l => contains l IGNORE_END_LINE = false) mid ->
  parse_header rstate start_sha1 end_sha1 branch (Parser log mc sc true) header
    (mid ++ rest)
  = parse_header rstate start_sha1 end_sha1 branch (Parser log mc sc true)
      header rest.
Proof.
  induction 1 as [|l mid Hl _ IH]; [done|].
  cbn [app]. by rewrite parse_header_ignore.
Qed.

Lemma parse_start_ignoring log mc sc mid rest :
  Forall (fun l => contains l IGNORE_END_LINE = false) mid ->
  parse_start rstate start_sha1 end_sha1 branch (Parser log mc sc true)
    (mid ++ rest)
  = parse_start rstate start_sha1 end_sha1 branch (Parser log mc sc true) rest.
Proof.
  induction 1 as [|l mid Hl _ IH]; [done|].
  cbn [app]. by rewrite parse_start_ignore.
Qed.

End IgnoreBlock.

(** X4: an ignore block is skipped by each of the three loops of the
    parser.  After a line with the start marker and without the end
    marker, any lines without the end marker, and a line with the end
    marker, the log, the header lines read so far and the current category
    are as before the block, and the parser is not ignoring, whether it
    was or not. *)
Theorem ignore_block_skipped rstate start_sha1 end_sha1 branch log mc sc ign
    header first mid last rest :
  contains first IGNORE_START_LINE = true ->
  contains first IGNORE_END_LINE = false ->
  Forall (fun l => contains l IGNORE_END_LINE = false) mid ->
  contains last IGNORE_END_LINE = true ->
  parse_start rstate start_sha1 end_sha1 branch (Parser log mc sc ign)
    (first :: mid ++ last :: rest)
  = parse_start rstate start_sha1 end_sha1 branch (Parser log mc sc false) rest
  /\ parse_header rstate start_sha1 end_sha1 branch (Parser log mc sc ign)
       header (first :: mid ++ last :: rest)
     = parse_header rstate start_sha1 end_sha1 branch
         (Parser log mc sc false) header rest
  /\ parse_body (Parser log mc sc ign) (first :: mid ++ last :: rest)
     = parse_body (Parser log mc sc false) rest.
Proof.
  intros Hs He Hmid Hl. split; [|split].
  - rewrite parse_start_ignore by (by rewrite ?Hs, ?orb_true_r).
    by rewrite parse_start_ignoring, parse_start_end.
  - rewrite parse_header_ignore by (by rewrite ?Hs, ?orb_true_r).
    by rewrite parse_header_ignoring, parse_header_end.
  - rewrite parse_body_start by done.
    by rewrite parse_body_ignoring, parse_body_end.
Qed.

Lemma ignore_block_skipped_witness :
  parse_start (Some (str "alpha")) (str "0123456789abcdef")
    (str "fedcba9876543210") (str "main") (Parser sample_log None None false)
    ((IGNORE_START_LINE ++ nl)
     :: [total_line (3, 4) ++ nl; IGNORE_START_LINE ++ nl]
     ++ (IGNORE_END_LINE ++ nl) :: [str "== Game Engine ==" ++ nl])
  = parse_start (Some (str "alpha")) (str "0123456789abcdef")
      (str "fedcba9876543210") (str "main") (Parser sample_log None None false)
      [str "== Game Engine ==" ++ nl]
  /\ parse_header (Some (str "alpha")) (str "0123456789abcdef")
       (str "fedcba9876543210") (str "main")
       (Parser sample_log None None false) [str "= Title ="]
       ((IGNORE_START_LINE ++ nl)
        :: [total_line (3, 4) ++ nl; IGNORE_START_LINE ++ nl]
        ++ (IGNORE_END_LINE ++ nl) :: [str "== Game Engine ==" ++ nl])
     = parse_header (Some (str "alpha")) (str "0123456789abcdef")
         (str "fedcba9876543210") (str "main")
         (Parser sample_log None None false) [str "= Title ="]
         [str "== Game Engine ==" ++ nl]
  /\ parse_body (Parser sample_log None None false)
       ((IGNORE_START_LINE ++ nl)
        :: [total_line (3, 4) ++ nl; IGNORE_START_LINE ++ nl]
        ++ (IGNORE_END_LINE ++ nl) :: [str "== Game Engine ==" ++ nl])
     = parse_body (Parser sample_log None None false)
         [str "== Game Engine ==" ++ nl].
Proof.
  apply ignore_block_skipped.
  - vm_compute. reflexivity.
  - vm_compute. reflexivity.
  - repeat constructor.
  - vm_compute. reflexivity.
Defined.

(** ** The counters and what the log holds *)

Section MapSum.

Context {K : Type} `{Countable K} {A : Type} (g : A -> nat).

Lemma map_sum_empty : map_sum g (∅ : gmap K A) = 0%nat.
Proof. unfold map_sum. apply map_fold_empty. Qed.

Lemma map_sum_insert_delete (m : gmap K A) i x :
  map_sum g (<[i := x]> m) = (g x + map_sum g (delete i m))%nat.
Proof.
  unfold map_sum. rewrite <- insert_delete_eq.
  apply (map_fold_insert_L (fun _ x n => (g x + n)%nat)).
  - intros. lia.
  - apply lookup_delete_eq.
Qed.

Lemma map_sum_lookup (m : gmap K A) i y :
  m !! i = Some y -> map_sum g m = (g y + map_sum g (delete i m))%nat.
Proof.
  intros Hy. unfold map_sum.
  apply (map_fold_delete_L (fun _ x n => (g x + n)%nat)); [|done].
  intros. lia.
Qed.

Lemma map_sum_insert (m : gmap K A) i x d :
  g d = 0%nat ->
  (map_sum g (<[i := x]> m) + g (default d (m !! i)) = map_sum g m + g x)%nat.
Proof.
  intros Hd. rewrite map_sum_insert_delete.
  destruct (m !! i) as [y|] eqn:E; cbn [default from_option id].
  - rewrite (map_sum_lookup m i y E). lia.
  - rewrite delete_id by done. lia.
Qed.

End MapSum.

Lemma bucket_size_append d sub_cat entry :
  bucket_size (bucket_append d sub_cat entry) = S (bucket_size d).
Proof.
  unfold bucket_size, bucket_append, entries_of.
  pose proof (map_sum_insert (@length pystr) d sub_cat
                (default [] (d !! sub_cat) ++ [entry]) [] eq_refl) as H.
  rewrite length_app in H. simpl in H. lia.
Qed.

Lemma held_record_entry release_log main_cat sub_cat u entry v :
  held (record_entry release_log main_cat sub_cat u entry) v
  = (held release_log v + if Bool.eqb u v then 1 else 0)%nat.
Proof.
  unfold held, record_entry, cat_data.
  pose proof (fun x =>
    map_sum_insert
      (fun data : bucket * bucket => bucket_size ((if v then snd else fst) data))
      (rl_cats release_log) main_cat x (∅, ∅)) as H.
  destruct (default (∅, ∅) (rl_cats release_log !! main_cat)) as [d0 d1].
  destruct (rl_count release_log) as [n0 n1]. cbn [rl_cats].
  match goal with |- context [<[main_cat := ?x]> _] => specialize (H x) end.
  specialize (H ltac:(by destruct v; apply map_sum_empty)).
  destruct u, v; cbn [fst snd Bool.eqb] in *;
    rewrite ?bucket_size_append in H; lia.
Qed.

Lemma held_touch_cat release_log main_cat v :
  held (touch_cat release_log main_cat) v = held release_log v.
Proof.
  unfold held, touch_cat, cat_data. cbn [rl_cats].
  pose proof
    (map_sum_insert
      (fun data : bucket * bucket => bucket_size ((if v then snd else fst) data))
      (rl_cats release_log) main_cat
      (default (∅, ∅) (rl_cats release_log !! main_cat)) (∅, ∅)
      ltac:(by destruct v; apply map_sum_empty)) as H.
  lia.
Qed.

Lemma held_cats log log' v : rl_cats log' = rl_cats log -> held log' v = held log v.
Proof. unfold held. by intros ->. Qed.

Lemma counted_record_entry release_log main_cat sub_cat u entry :
  counted release_log ->
  counted (record_entry release_log main_cat sub_cat u entry).
Proof.
  unfold counted. intros H.
  rewrite rl_count_record_entry, !held_record_entry, H.
  destruct u; cbn [fst snd Bool.eqb]; f_equal; lia.
Qed.

Lemma counted_touch_cat release_log main_cat :
  counted release_log -> counted (touch_cat release_log main_cat).
Proof. unfold counted. by rewrite !held_touch_cat. Qed.

Lemma counted_parse_entry log main_cat sub_cat l :
  counted log -> counted (parse_entry log main_cat sub_cat l).
Proof.
  intros H. unfold parse_entry, counted.
  rewrite rl_count_parse_rstate, !(held_cats _ _ _ (rl_cats_parse_rstate _ _)).
  by apply counted_record_entry.
Qed.

Lemma counted_rstate_append log rs e :
  counted log -> counted (rstate_append log rs e).
Proof. done. Qed.

Lemma counted_add_entry release_log c cat rstate :
  counted release_log -> counted (fst (add_entry release_log c cat rstate)).
Proof.
  intros H. unfold add_entry.
  destruct (select_cat cat) as [[main_cat sub_cat]|]; [|done].
  destruct (gen_commit_pretty c rstate) as [[entry u]|];
    [|by apply counted_touch_cat].
  pose proof (counted_record_entry _ (Some main_cat) sub_cat u entry
                (counted_touch_cat _ (Some main_cat) H)) as H'.
  destruct (rstate_tracked _ _); [|done].
  by destruct (gen_commit_pretty c None) as [[plain _]|].
Qed.

Lemma counted_add_entries release_log calls :
  counted release_log -> counted (fst (add_entries release_log calls)).
Proof.
  revert release_log. induction calls as [|[[c cat] rstate] calls IH];
    intros release_log H; [done|].
  cbn [add_entries].
  pose proof (counted_add_entry _ c cat rstate H) as H'.
  destruct (add_entry release_log c cat rstate) as [rl1 [[]|e]]; [|done].
  by apply IH.
Qed.

(** ** The three loops of the parser, seen from outside *)

Section ParserShape.

Context (rstate : option pystr) (start_sha1 end_sha1 branch : pystr).

(** Once a line opens the header, the parser ends in the loop over the
    sections, started from the log it had, with a new header and zeroed
    counters. *)
Lemma parse_header_shape log mc sc ign header ls :
  exists header' mc' sc' ign' ls',
    parse_header rstate start_sha1 end_sha1 branch (Parser log mc sc ign)
      header ls
    = parse_body
        (end_of_header rstate start_sha1 end_sha1 branch
           (Parser log mc sc ign') header' mc' sc') ls'.
Proof.
  revert ign header. induction ls as [|l ls IH]; intros ign header.
  - by exists header, mc, sc, ign, [].
  - cbn [parse_header p_log p_main_cat p_sub_cat p_ignore].
    destruct (contains l IGNORE_END_LINE); [apply IH|].
    destruct (ign || contains l IGNORE_START_LINE) eqn:Hs; [apply IH|].
    apply orb_false_iff in Hs as [-> _].
    destruct (startswith _ (str "==")); [|apply IH].
    destruct (main_heading _) as [mc' sc'].
    by exists header, mc', sc', false, ls.
Qed.

Lemma parse_start_shape log mc sc ign ls :
  (exists ign',
     parse_start rstate start_sha1 end_sha1 branch (Parser log mc sc ign) ls
     = Parser log mc sc ign')
  \/ (exists header' mc' sc' ign' ls',
        parse_start rstate start_sha1 end_sha1 branch (Parser log mc sc ign) ls
        = parse_body
            (end_of_header rstate start_sha1 end_sha1 branch
               (Parser log mc sc ign') header' mc' sc') ls').
Proof.
  revert ign. induction ls as [|l ls IH]; intros ign.
  - left. by exists ign.
  - cbn [parse_start p_log p_main_cat p_sub_cat p_ignore].
    destruct (contains l IGNORE_END_LINE); [apply IH|].
    destruct (ign || contains l IGNORE_START_LINE) eqn:Hs; [apply IH|].
    apply orb_false_iff in Hs as [-> _].
    right. apply parse_header_shape.
Qed.

End ParserShape.

(** A property of the log that every recorded entry keeps is kept by the
    loop over the sections. *)
Lemma parse_body_keeps (I : log -> Prop) :
  (forall log mc sc l, I log -> I (parse_entry log mc sc l)) ->
  forall ls st, I (p_log st) -> I (p_log (parse_body st ls)).
Proof.
  intros HI. induction ls as [|l ls IH]; intros st Hst; [done|].
  cbn [parse_body].
  destruct (contains l IGNORE_END_LINE); [by apply IH|].
  destruct (p_ignore st || contains l IGNORE_START_LINE); [by apply IH|].
  destruct (startswith _ (str "===")).
  { destruct (sub_heading _). by apply IH. }
  destruct (startswith _ (str "==")).
  { destruct (main_heading _). by apply IH. }
  destruct (contains _ (str "Fix ")); [|by apply IH].
  apply IH. cbn [p_log]. by apply HI.
Qed.

(** A property that holds of the fresh log whatever its header, and that
    every recorded entry keeps, holds of the log [release_log_init]
    returns. *)
Lemma release_log_init_keeps (I : log -> Prop) rstate_list :
  (forall header, I (parsed_start header (fresh_rstates rstate_list))) ->
  (forall log mc sc l, I log -> I (parse_entry log mc sc l)) ->
  forall existing branch blender_rev start_sha1 end_sha1 rstate,
    I (release_log_init existing branch blender_rev start_sha1 end_sha1 rstate
         rstate_list).
Proof.
  intros H0 HI existing branch blender_rev start_sha1 end_sha1 rstate.
  unfold release_log_init.
  destruct existing as [text|]; [|apply H0].
  destruct (parse_start_shape rstate start_sha1 end_sha1 branch
              {| rl_header := fresh_header blender_rev rstate start_sha1 end_sha1;
                 rl_count := (0, 0);
                 rl_rstates := fresh_rstates rstate_list;
                 rl_cats := ∅ |} None None false (file_lines text))
    as [(ign & ->)|(header & mc & sc & ign & ls & ->)].
  - apply H0.
  - apply parse_body_keeps; [done|]. apply H0.
Qed.

(** X5: the two counters of the log always say how many entries it
    holds, reported and unreported: whatever file the log was read from,
    if any, and whatever calls of the mutation followed, returning or
    raising. *)
Theorem counters_count_entries existing branch blender_rev start_sha1 end_sha1
    rstate rstate_list calls :
  let m :=
    fst (add_entries
           (release_log_init existing branch blender_rev start_sha1 end_sha1
              rstate rstate_list) calls) in
  rl_count m = (Z.of_nat (held m false), Z.of_nat (held m true)).
Proof.
  apply counted_add_entries.
  apply (release_log_init_keeps counted).
  - intros header. unfold counted, held. cbn [parsed_start rl_cats rl_count].
    by rewrite !map_sum_empty.
  - intros log mc sc l. apply counted_parse_entry.
Qed.

Lemma held_sample : held sample_log3 false = 2%nat /\ held sample_log3 true = 1%nat.
Proof. split; vm_compute; reflexivity. Qed.

(** ** The release states a log tracks *)

Lemma fresh_rstates_keys rstate_list k :
  is_Some (fresh_rstates rstate_list !! k) <-> k ∈ rstate_list.
Proof.
  unfold fresh_rstates.
  assert (H : forall d : gmap pystr (list pystr),
             is_Some (fold_left (fun d k => <[k := []]> d) rstate_list d !! k)
             <-> k ∈ rstate_list \/ is_Some (d !! k)).
  { induction rstate_list as [|r rs IH]; intros d; cbn [fold_left].
    - rewrite elem_of_nil. tauto.
    - rewrite IH, elem_of_cons, lookup_insert_is_Some. 
      destruct (decide (r = k)) as [->|Hne]; [tauto|]. 
      split; [intros [?|[?|[_ ?]]]|intros [[?|?]|?]]; auto; congruence. }
  rewrite H, lookup_empty. split; [intros [?|[? ?]]; [done|discriminate]|auto].
Qed.

Lemma rstate_append_keys log rs e k :
  is_Some (rl_rstates log !! rs) ->
  is_Some (rl_rstates (rstate_append log rs e) !! k)
  <-> is_Some (rl_rstates log !! k).
Proof.
  intros Hrs. cbn [rstate_append rl_rstates]. rewrite lookup_insert_is_Some.
  destruct (decide (rs = k)) as [->|Hne]; [tauto|].
  split; [intros [?|[_ ?]]; [done|done]|auto].
Qed.

Lemma parse_rstate_keys log l k :
  is_Some (rl_rstates (parse_rstate log l) !! k)
  <-> is_Some (rl_rstates log !! k).
Proof.
  unfold parse_rstate.
  destruct (startswith _ _); [|done].
  destruct (0 <? _); [|done].
  destruct (bool_decide _) eqn:E; [|done].
  apply bool_decide_eq_true in E. by apply rstate_append_keys.
Qed.

Lemma parse_entry_keys log mc sc l k :
  is_Some (rl_rstates (parse_entry log mc sc l) !! k)
  <-> is_Some (rl_rstates log !! k).
Proof.
  unfold parse_entry. by rewrite parse_rstate_keys, rl_rstates_record_entry.
Qed.

Lemma release_log_init_keys existing branch blender_rev start_sha1 end_sha1
    rstate rstate_list rs :
  is_Some
    (rl_rstates
       (release_log_init existing branch blender_rev start_sha1 end_sha1 rstate
          rstate_list) !! rs)
  <-> rs ∈ rstate_list.
Proof.
  revert existing branch blender_rev start_sha1 end_sha1 rstate.
  apply (release_log_init_keeps
           (fun log => is_Some (rl_rstates log !! rs) <-> rs ∈ rstate_list)).
  - intros header. apply fresh_rstates_keys.
  - intros log mc sc l. by rewrite parse_entry_keys.
Qed.

(** X6: the release states a log tracks are exactly those of the list
    given on the command line, whether the log starts from no file or is
    read from one: the parser adds entries under tracked states and never
    a state. *)
Theorem tracked_states existing branch blender_rev start_sha1 end_sha1 rstate
    rstate_list rs :
  rstate_tracked
    (release_log_init existing branch blender_rev start_sha1 end_sha1 rstate
       rstate_list) (Some rs)
  = bool_decide (rs ∈ rstate_list).
Proof.
  cbn [rstate_tracked]. apply bool_decide_ext, release_log_init_keys.
Qed.

Lemma add_entries_rstates release_log calls m :
  add_entries release_log calls = (m, Ok tt) ->
  rl_rstates m = rl_rstates release_log
  /\ forall c cat rstate,
       (c, cat, rstate) ∈ calls ->
       exists rs, rstate = Some rs /\ rl_rstates release_log !! rs = None.
Proof.
  revert release_log. induction calls as [|[[c cat] rstate] calls IH];
    intros release_log.
  - intros [= <-]. split; [done|]. intros c cat rstate H.
    by apply elem_of_nil in H.
  - cbn [add_entries].
    destruct (add_entry release_log c cat rstate) as [rl1 [[]|e]] eqn:E;
      [|discriminate].
    intros [Hr Hc]%IH.
    apply add_entry_ok in E as (main_cat & sub_cat & rs & _ & -> & Hrs & ->).
    rewrite rl_rstates_record_entry in Hr, Hc. cbn [touch_cat rl_rstates] in *.
    split; [done|]. intros c' cat' rstate' [[= -> -> ->]|H]%elem_of_cons.
    + by exists rs.
    + by apply (Hc c' cat').
Qed.

(** X7: a session that returns has recorded no commit under a release
    state of the list given on the command line, and none without a
    release state, whatever file the log was read from. *)
Theorem listed_state_never_recorded existing branch blender_rev start_sha1
    end_sha1 rstate rstate_list calls m c cat rs :
  add_entries
    (release_log_init existing branch blender_rev start_sha1 end_sha1 rstate
       rstate_list) calls = (m, Ok tt) ->
  (c, cat, rs) ∈ calls ->
  exists s, rs = Some s /\ s ∉ rstate_list.
Proof.
  intros [_ H]%add_entries_rstates Hin.
  destruct (H c cat rs Hin) as (s & -> & Hs).
  exists s. split; [done|]. intros Hl.
  apply (release_log_init_keys existing branch blender_rev start_sha1 end_sha1
           rstate) in Hl as [x Hx].
  congruence.
Qed.

Lemma listed_state_never_recorded_witness :
  exists s, Some (str "alpha") = Some s /\ s ∉ [str "RC2"; str "RC3"].
Proof.
  apply (listed_state_never_recorded None (str "main") (str "2.79")
           (str "0123456789abcdef") (str "fedcba9876543210")
           (Some (str "alpha")) [str "RC2"; str "RC3"] sample_calls
           (fst (add_entries
                   (release_log_init None (str "main") (str "2.79")
                      (str "0123456789abcdef") (str "fedcba9876543210")
                      (Some (str "alpha")) [str "RC2"; str "RC3"])
                   sample_calls))
           commit_crash (1, Some 2)).
  - vm_compute. reflexivity.
  - apply elem_of_cons. left. reflexivity.
Defined.

(** ** The filter on messages reads what the parser reads *)

Section Simulation.

Context (rstate : option pystr) (start_sha1 end_sha1 branch : pystr).

Context (Rel : gset pystr -> log -> Prop).
Context (Rel_entry :
  forall msgs log mc sc l,
    Rel msgs log ->
    Rel ({[gen_commit_unprettify l]} ∪ msgs) (parse_entry log mc sc l)).
Context (Rel_cats :
  forall msgs log log',
    rl_cats log' = rl_cats log -> Rel msgs log -> Rel msgs log').

Lemma extract_body ls log mc sc ign msgs :
  Rel msgs log ->
  Rel (extract_loop ign false msgs ls)
    (p_log (parse_body (Parser log mc sc ign) ls)).
Proof.
  revert log mc sc ign msgs.
  induction ls as [|l ls IH]; intros log mc sc ign msgs HR; [done|].
  cbn [parse_body extract_loop p_log p_main_cat p_sub_cat p_ignore andb].
  destruct (contains l IGNORE_END_LINE); [by apply IH|].
  destruct (ign || contains l IGNORE_START_LINE) eqn:Hs; [by apply IH|].
  apply orb_false_iff in Hs as [-> _].
  destruct (startswith _ (str "===")) eqn:H3.
  { assert (startswith (strip l (str " " ++ nl)) (str "==") = true) as ->.
    { apply startswith_prefix in H3 as [t ->]. reflexivity. }
    destruct (sub_heading _). by apply IH. }
  destruct (startswith _ (str "==")).
  { destruct (main_heading _). by apply IH. }
  cbn [negb andb].
  destruct (contains _ (str "Fix ")); [|by apply IH].
  apply IH. by apply Rel_entry.
Qed.

Lemma extract_header ls log mc sc ign header msgs :
  Rel msgs log ->
  Rel (extract_loop ign true msgs ls)
    (p_log (parse_header rstate start_sha1 end_sha1 branch
              (Parser log mc sc ign) header ls)).
Proof.
  revert ign header. induction ls as [|l ls IH]; intros ign header HR.
  - cbn [parse_header extract_loop end_of_header p_log].
    by apply (Rel_cats msgs log).
  - cbn [parse_header extract_loop p_log p_main_cat p_sub_cat p_ignore andb].
    destruct (contains l IGNORE_END_LINE); [by apply IH|].
    destruct (ign || contains l IGNORE_START_LINE) eqn:Hs; [by apply IH|].
    apply orb_false_iff in Hs as [-> _].
    destruct (startswith _ (str "==")); cbn [negb andb]; [|by apply IH].
    destruct (main_heading _) as [mc' sc'].
    unfold end_of_header. cbn [p_ignore p_log].
    apply extract_body. by apply (Rel_cats msgs log).
Qed.

Lemma extract_start ls log mc sc ign msgs :
  (forall l, first_line ign ls = Some l -> startswith l (str "==") = false) ->
  Rel msgs log ->
  Rel (extract_loop ign true msgs ls)
    (p_log (parse_start rstate start_sha1 end_sha1 branch
              (Parser log mc sc ign) ls)).
Proof.
  revert ign. induction ls as [|l ls IH]; intros ign Hf HR; [done|].
  revert Hf.
  cbn [parse_start extract_loop first_line p_log p_main_cat p_sub_cat
         p_ignore andb].
  destruct (contains l IGNORE_END_LINE); [intros Hf; by apply IH|].
  destruct (ign || contains l IGNORE_START_LINE) eqn:Hs;
    [intros Hf; by apply IH|].
  apply orb_false_iff in Hs as [-> _].
  intros Hf. rewrite (Hf _ eq_refl). cbn [negb andb].
  by apply extract_header.
Qed.

(** When a message more does no harm, the filter may also have left the
    header before the parser has. *)
Context (Rel_more : forall msgs log x, Rel msgs log -> Rel ({[x]} ∪ msgs) log).

Lemma extract_header_ahead ls log mc sc ign header msgs :
  Rel msgs log ->
  Rel (extract_loop ign false msgs ls)
    (p_log (parse_header rstate start_sha1 end_sha1 branch
              (Parser log mc sc ign) header ls)).
Proof.
  revert ign header msgs.
  induction ls as [|l ls IH]; intros ign header msgs HR.
  - cbn [parse_header extract_loop end_of_header p_log].
    by apply (Rel_cats msgs log).
  - cbn [parse_header extract_loop p_log p_main_cat p_sub_cat p_ignore andb].
    destruct (contains l IGNORE_END_LINE); [by apply IH|].
    destruct (ign || contains l IGNORE_START_LINE) eqn:Hs; [by apply IH|].
    apply orb_false_iff in Hs as [-> _].
    destruct (startswith _ (str "==")); cbn [negb andb].
    + destruct (main_heading _) as [mc' sc'].
      unfold end_of_header. cbn [p_ignore p_log].
      apply extract_body. by apply (Rel_cats msgs log).
    + destruct (contains _ (str "Fix ")); apply IH; [by apply Rel_more|done].
Qed.

Lemma extract_start_any ls log mc sc ign msgs :
  Rel msgs log ->
  Rel (extract_loop ign true msgs ls)
    (p_log (parse_start rstate start_sha1 end_sha1 branch
              (Parser log mc sc ign) ls)).
Proof.
  revert ign. induction ls as [|l ls IH]; intros ign HR; [done|].
  cbn [parse_start extract_loop p_log p_main_cat p_sub_cat p_ignore andb].
  destruct (contains l IGNORE_END_LINE); [by apply IH|].
  destruct (ign || contains l IGNORE_START_LINE) eqn:Hs; [by apply IH|].
  apply orb_false_iff in Hs as [-> _].
  destruct (startswith _ (str "==")); cbn [negb andb].
  - by apply extract_header_ahead.
  - by apply extract_header.
Qed.

End Simulation.

Lemma entries_parse_entry_any log main_cat sub_cat l k s v :
  entries (parse_entry log main_cat sub_cat l) k s v
  = if decide ((k, s, v)
               = (main_cat, sub_cat, negb (contains l (str "Fix {{BugReport|"))))
    then entries log main_cat sub_cat
           (negb (contains l (str "Fix {{BugReport|"))) ++ [l]
    else entries log k s v.
Proof.
  unfold parse_entry.
  rewrite (entries_cats _ _ _ _ _ (rl_cats_parse_rstate _ _)).
  apply entries_record_entry.
Qed.

Lemma extract_complete text branch blender_rev start_sha1 end_sha1 rstate
    rstate_list l main_cat sub_cat u :
  l ∈ entries
        (release_log_init (Some text) branch blender_rev start_sha1 end_sha1
           rstate rstate_list) main_cat sub_cat u ->
  gen_commit_unprettify l ∈ release_log_extract_messages (Some text).
Proof.
  revert l main_cat sub_cat u.
  unfold release_log_init, release_log_extract_messages.
  apply (extract_start_any rstate start_sha1 end_sha1 branch
           (fun msgs log =>
              forall l mc sc u,
                l ∈ entries log mc sc u -> gen_commit_unprettify l ∈ msgs)).
  - intros msgs log mc sc l HR l' k s v.
    rewrite entries_parse_entry_any.
    destruct (decide _) as [_|_].
    + intros [H| ->%list_elem_of_singleton]%elem_of_app; [|set_solver].
      apply elem_of_union_r. by eapply HR.
    + intros H. apply elem_of_union_r. by eapply HR.
  - intros msgs log log' Hc HR l mc sc u.
    rewrite (entries_cats _ _ _ _ _ Hc). apply HR.
  - intros msgs log x HR l mc sc u H. apply elem_of_union_r. by eapply HR.
  - intros l mc sc u. rewrite entries_no_cats by done. by intros ?%elem_of_nil.
Qed.

Lemma extract_sound text branch blender_rev start_sha1 end_sha1 rstate
    rstate_list msg :
  (forall l, first_line false (file_lines text) = Some l ->
             startswith l (str "==") = false) ->
  msg ∈ release_log_extract_messages (Some text) ->
  exists l main_cat sub_cat u,
    l ∈ entries
          (release_log_init (Some text) branch blender_rev start_sha1 end_sha1
             rstate rstate_list) main_cat sub_cat u
    /\ msg = gen_commit_unprettify l.
Proof.
  intros Hf. revert msg.
  unfold release_log_init, release_log_extract_messages.
  apply (extract_start rstate start_sha1 end_sha1 branch
           (fun msgs log =>
              forall msg, msg ∈ msgs ->
                exists l mc sc u,
                  l ∈ entries log mc sc u /\ msg = gen_commit_unprettify l)).
  - intros msgs log mc sc l HR msg [->%elem_of_singleton|H]%elem_of_union.
    + exists l, mc, sc, (negb (contains l (str "Fix {{BugReport|"))).
      split; [|done]. rewrite entries_parse_entry_any.
      rewrite decide_True by done. apply elem_of_app. right.
      by apply list_elem_of_singleton.
    + destruct (HR msg H) as (l' & k & s & v & Hin & ->).
      exists l', k, s, v. split; [|done].
      rewrite entries_parse_entry_any.
      destruct (decide _) as [[= -> -> ->]|_]; [|done].
      apply elem_of_app. by left.
  - intros msgs log log' Hc HR msg H.
    destruct (HR msg H) as (l' & k & s & v & Hin & ->).
    exists l', k, s, v. by rewrite (entries_cats _ _ _ _ _ Hc).
  - done.
  - intros msg H. by apply elem_of_empty in H.
Qed.

(** X8: the filter on messages and the parser read the same entries from
    a file.  The message of every entry the parser stores, in whatever
    bucket, is in the set the filter builds; and when the first line of
    the file outside the ignore blocks does not open like a heading, the
    set holds nothing else. *)
Theorem extract_messages_agree text branch blender_rev start_sha1 end_sha1
    rstate rstate_list :
  (forall l main_cat sub_cat u,
     l ∈ entries
           (release_log_init (Some text) branch blender_rev start_sha1
              end_sha1 rstate rstate_list) main_cat sub_cat u ->
     gen_commit_unprettify l ∈ release_log_extract_messages (Some text))
  /\ ((forall l, first_line false (file_lines text) = Some l ->
                 startswith l (str "==") = false) ->
      forall msg,
        msg ∈ release_log_extract_messages (Some text) ->
        exists l main_cat sub_cat u,
          l ∈ entries
                (release_log_init (Some text) branch blender_rev start_sha1
                   end_sha1 rstate rstate_list) main_cat sub_cat u
          /\ msg = gen_commit_unprettify l).
Proof.
  split.
  - intros l main_cat sub_cat u. apply extract_complete.
  - intros Hf msg. by apply extract_sound.
Qed.

Lemma extract_messages_agree_witness :
  (forall l main_cat sub_cat u,
     l ∈ entries log_unsorted main_cat sub_cat u ->
     gen_commit_unprettify l ∈ release_log_extract_messages (Some doc_unsorted))
  /\ (forall msg,
        msg ∈ release_log_extract_messages (Some doc_unsorted) ->
        exists l main_cat sub_cat u,
          l ∈ entries log_unsorted main_cat sub_cat u
          /\ msg = gen_commit_unprettify l).
Proof.
  destruct (extract_messages_agree doc_unsorted (str "main") (str "2.79")
              (str "0123456789abcdef") (str "fedcba9876543210")
              (Some (str "alpha")) [[]]) as [H1 H2].
  split; [exact H1|]. apply H2.
  intros l. vm_compute. intros [= <-]. reflexivity.
Defined.

(** ** The filter and the log the session has written *)

Lemma add_entry_grows release_log c cat rstate release_log' e k s v :
  add_entry release_log c cat rstate = (release_log', Ok tt) ->
  e ∈ entries release_log k s v -> e ∈ entries release_log' k s v.
Proof.
  intros (mc & sc & u & entry & He & _)%add_entry_appends Hin.
  rewrite He. destruct (decide _) as [[= -> -> ->]|_]; [|done].
  apply elem_of_app. by left.
Qed.

Lemma add_entries_grows release_log calls m e k s v :
  add_entries release_log calls = (m, Ok tt) ->
  e ∈ entries release_log k s v -> e ∈ entries m k s v.
Proof.
  revert release_log. induction calls as [|[[c cat] rstate] calls IH];
    intros release_log; [by intros [= <-]|].
  cbn [add_entries].
  destruct (add_entry release_log c cat rstate) as [rl1 [[]|]] eqn:E; [|done].
  intros H Hin. apply (IH _ H). by eapply add_entry_grows.
Qed.

(** Every call of a session that returns has left its entry in the log. *)
Lemma add_entries_recorded release_log calls m c cat rs :
  add_entries release_log calls = (m, Ok tt) ->
  (c, cat, Some rs) ∈ calls ->
  exists k s v,
    entry_text rs (fst (gen_commit_message_pretty c)) (take 10 (sha1 c))
    ∈ entries m k s v.
Proof.
  revert release_log. induction calls as [|[[c' cat'] rstate'] calls IH];
    intros release_log; [by intros _ ?%elem_of_nil|].
  cbn [add_entries].
  destruct (add_entry release_log c' cat' rstate') as [rl1 [[]|]] eqn:E;
    [|done].
  intros H [[= <- <- <-]|Hin]%elem_of_cons; [|by eapply IH].
  apply add_entry_ok in E as (mc & sc & rs' & _ & [= <-] & _ & ->).
  eexists (Some mc), sc, _. eapply add_entries_grows; [done|].
  rewrite entries_record_entry, decide_True by done.
  apply elem_of_app. right. by apply list_elem_of_singleton.
Qed.

Lemma match_rest_excluded a c :
  fst (gen_commit_message_pretty c) ∈ filter_exclude_releaselogs a ->
  match_rest a c = Returns false.
Proof.
  intros Hin. unfold match_rest.
  destruct (_ && _); [done|]. destruct (bool_decide (sha1 c ∈ _)); [done|].
  rewrite (bool_decide_eq_true_2 _ Hin), andb_true_r.
  rewrite bool_decide_eq_false_2; [done|].
  intros He. rewrite He in Hin. by apply elem_of_empty in Hin.
Qed.

Lemma match_excluded a c :
  fst (gen_commit_message_pretty c) ∈ filter_exclude_releaselogs a ->
  match_ a c <> Returns true.
Proof.
  intros Hin%match_rest_excluded. unfold match_. rewrite Hin.
  destruct (falsy _); [done|].
  destruct (bool_decide (_ = Some (str "BUGFIX"))).
  { destruct (len _ =? 0); [done|]. by destruct (any_word _ _). }
  destruct (bool_decide (_ = Some (str "NOISE"))); [|done].
  destruct (len _ =? 0); [done|]. by destruct (any_word _ _).
Qed.

(** X9: a commit that a session has recorded is not taken again when the
    file the session wrote is given as a release log to exclude: the set
    read from the file holds the prose of the commit, and the filter does
    not accept the commit.  The conditions are those under which the file
    reads back as written, and those under which an entry gives back its
    prose: a release state without a closing bracket and a hexadecimal
    short id. *)
Theorem recorded_commits_excluded branch blender_rev start_sha1 end_sha1
    rstate rstate_list calls m rstate_list_w c cat rs a :
  add_entries
    (release_log_init None branch blender_rev start_sha1 end_sha1 rstate
       rstate_list) calls = (m, Ok tt) ->
  forallb call_ok calls = true ->
  header_ok (rl_header m) = true ->
  (c, cat, Some rs) ∈ calls ->
  mem "]" rs = false ->
  forallb is_hex (take 10 (sha1 c)) = true ->
  release_log_extract_messages (Some (render m rstate_list_w))
  ⊆ filter_exclude_releaselogs a ->
  fst (gen_commit_message_pretty c)
  ∈ release_log_extract_messages (Some (render m rstate_list_w))
  /\ match_ a c <> Returns true.
Proof.
  intros Hrun Hcalls Hh Hin Hrs Hsha Ha.
  assert (Hb : built m).
  { eapply built_add_entries; [apply built_init|done..]. }
  destruct (add_entries_recorded _ _ _ _ _ _ Hrun Hin) as (k & s & v & He).
  destruct (read_built m rstate_list_w [] [] [] [] None [] Hb Hh) as [Hread _].
  rewrite <- Hread in He. apply extract_complete in He.
  rewrite unprettify_entry_text in He by done.
  split; [done|]. apply match_excluded. by apply Ha.
Qed.

Lemma recorded_commits_excluded_witness :
  fst (gen_commit_message_pretty commit_crash)
  ∈ release_log_extract_messages (Some (render sample_log3 [[]]))
  /\ match_
       (Args (Some (str "BUGFIX")) None ∅
          (release_log_extract_messages (Some (render sample_log3 [[]]))))
       commit_crash
     <> Returns true.
Proof.
  apply (recorded_commits_excluded (str "main") (str "2.79")
           (str "0123456789abcdef") (str "fedcba9876543210")
           (Some (str "alpha")) [[]] sample_calls sample_log3 [[]]
           commit_crash (1, Some 2) (str "alpha")).
  - vm_compute. reflexivity.
  - vm_compute. reflexivity.
  - vm_compute. reflexivity.
  - apply elem_of_cons. left. reflexivity.
  - vm_compute. reflexivity.
  - vm_compute. reflexivity.
  - done.
Defined.

(** ** When the filter fails its assertion *)

Lemma len_zero s : (len s =? 0) = true <-> s = [].
Proof.
  unfold len. destruct s; [done|]. cbn [length].
  split; [intros H%Z.eqb_eq; lia|done].
Qed.

Lemma lstrip_ws_nil s : lstrip_ws s = [] <-> forallb is_space s = true.
Proof.
  induction s as [|c s IH]; [done|]. cbn [lstrip_ws forallb].
  destruct (is_space c); [done|]. cbn [andb]. split; discriminate.
Qed.

Lemma lstrip_ws_head s c t : lstrip_ws s = c :: t -> is_space c = false.
Proof.
  induction s as [|d s IH]; [done|]. cbn [lstrip_ws].
  destruct (is_space d) eqn:E; [done|]. by intros [= <- _].
Qed.

Lemma lstrip_ws_suffix s : exists pre, s = pre ++ lstrip_ws s.
Proof.
  induction s as [|c s [pre IH]]; [by exists []|]. cbn [lstrip_ws].
  destruct (is_space c); [|by exists []].
  exists (c :: pre). cbn [app]. by rewrite <- IH.
Qed.

Lemma forallb_rev {A : Type} (p : A -> bool) l : forallb p (rev l) = forallb p l.
Proof.
  induction l as [|x l IH]; [done|]. cbn [rev forallb].
  rewrite forallb_app, IH. cbn [forallb]. by rewrite andb_true_r, andb_comm.
Qed.

Lemma strip_ws_nil s : strip_ws s = [] <-> forallb is_space s = true.
Proof.
  unfold strip_ws. rewrite <- lstrip_ws_nil. split.
  - intros H. apply (f_equal (@rev ascii)) in H. rewrite rev_involutive in H.
    cbn [rev] in H. apply lstrip_ws_nil in H. rewrite forallb_rev in H.
    destruct (lstrip_ws s) as [|c t] eqn:E; [done|].
    apply lstrip_ws_head in E. cbn [forallb] in H. by rewrite E in H.
  - by intros ->.
Qed.

Lemma strip_ws_head s c t : strip_ws s = c :: t -> is_space c = false.
Proof.
  unfold strip_ws. intros H.
  destruct (lstrip_ws_suffix (rev (lstrip_ws s))) as [pre Hp].
  apply (f_equal (@rev ascii)) in Hp.
  rewrite rev_involutive, rev_app_distr, H in Hp.
  by apply lstrip_ws_head in Hp.
Qed.

Lemma first_line_empty s :
  split_head (strip_ws s) nl = [] <-> forallb is_space s = true.
Proof.
  rewrite <- strip_ws_nil.
  destruct (strip_ws s) as [|c t] eqn:E; [done|].
  apply strip_ws_head in E. cbn [split_head nl startswith].
  destruct (Ascii.eqb_spec newline c) as [<-|_]; [done|].
  cbn [andb]. split; discriminate.
Qed.

Lemma match_rest_returns a c : exists b, match_rest a c = Returns b.
Proof.
  unfold match_rest.
  destruct (_ && _); [by eexists|].
  destruct (bool_decide (sha1 c ∈ _)); [by eexists|].
  destruct (_ && _); by eexists.
Qed.

(** X10: the filter fails its assertion, instead of rejecting the
    commit, exactly in two cases: under [BUGFIX] when the summary of the
    commit is empty, and under [NOISE] when the message is made of white
    space only. *)
Theorem match_assertion a c :
  match_ a c = AssertionError
  <-> (filter_type a = Some (str "BUGFIX") /\ gen_commit_summary c = [])
      \/ (filter_type a = Some (str "NOISE")
          /\ forallb is_space (body c) = true).
Proof.
  unfold match_. fold (gen_commit_summary c).
  destruct (match_rest_returns a c) as [b Hb]. rewrite Hb.
  destruct (decide (filter_type a = Some (str "BUGFIX"))) as [E1|E1].
  { rewrite E1. change (falsy (Some (str "BUGFIX"))) with false. cbv iota.
    rewrite bool_decide_eq_true_2 by done.
    destruct (len (gen_commit_summary c) =? 0) eqn:El.
    - apply len_zero in El. split; [auto|done].
    - split.
      + by destruct (any_word _ _).
      + intros [[_ H%len_zero]|[[=] _]]. congruence. }
  rewrite (bool_decide_eq_false_2 _ E1).
  destruct (decide (filter_type a = Some (str "NOISE"))) as [E2|E2].
  { rewrite E2. change (falsy (Some (str "NOISE"))) with false. cbv iota.
    rewrite bool_decide_eq_true_2 by done.
    destruct (len (split_head (strip_ws (body c)) nl) =? 0) eqn:El.
    - apply len_zero, first_line_empty in El. split; [auto|done].
    - split.
      + by destruct (any_word _ _).
      + intros [[[=] _]|[_ H%first_line_empty%len_zero]]. congruence. }
  rewrite (bool_decide_eq_false_2 _ E2).
  split; [by destruct (falsy _)|]. by intros [[? _]|[? _]].
Qed.

Lemma match_assertion_witness :
  match_ (Args (Some (str "BUGFIX")) None ∅ ∅) commit_empty = AssertionError.
Proof. apply match_assertion. left. split; reflexivity. Defined.

(** ** The loop for the category *)

(** What follows the loop can be applied to its outcome. *)
Lemma select_category_map {R R' : Type} (k : selection -> list ascii -> R)
    (h : R -> R') c1 c2 keys :
  h (select_category k c1 c2 keys)
  = select_category (fun sel keys' => h (k sel keys')) c1 c2 keys.
Proof.
  revert c1 c2. induction keys as [|ch keys IH]; intros c1 c2;
    cbn [select_category]; repeat case_match; try done; apply IH.
Qed.

Lemma select_category_outcome {R : Type} (k : selection -> list ascii -> R)
    c1 c2 keys :
  select_category k c1 c2 keys
  = k (fst (select_outcome c1 c2 keys)) (snd (select_outcome c1 c2 keys)).
Proof.
  unfold select_outcome.
  by rewrite (select_category_map pair (fun p => k (fst p) (snd p))).
Qed.

(** The keys left are the end of the keys given. *)
Lemma select_outcome_suffix c1 c2 keys :
  exists used, keys = used ++ snd (select_outcome c1 c2 keys).
Proof.
  unfold select_outcome. revert c1 c2.
  induction keys as [|ch keys IH]; intros c1 c2.
  - exists []. cbn [select_category]. by repeat case_match.
  - assert (Hrec : forall c1 c2,
               exists used,
                 ch :: keys = used ++ snd (select_category pair c1 c2 keys)).
    { intros d1 d2. destruct (IH d1 d2) as [used Hu].
      exists (ch :: used). cbn [app]. f_equal. exact Hu. }
    cbn [select_category].
    repeat case_match; try apply Hrec; try (by exists [ch]); by exists [].
Qed.

Lemma get_cat_bounds ch max_idx j :
  get_cat ch max_idx = Some j -> 0 <= j < max_idx.
Proof.
  unfold get_cat. destruct (_ && _) eqn:E; [|done].
  intros [= <-]. apply andb_true_iff in E as [?%Z.leb_le ?%Z.ltb_lt]. lia.
Qed.

Lemma py_index_in_range {A : Type} (l : list A) i :
  0 <= i < Z.of_nat (length l) -> exists a, py_index l i = Ok a.
Proof.
  intros Hi. unfold py_index.
  destruct (Z.ltb_spec i 0); [lia|].
  destruct (Z.leb_spec 0 i); [|lia].
  destruct (Z.ltb_spec i (Z.of_nat (length l))); [|lia].
  cbn [andb].
  destruct (l !! Z.to_nat i) eqn:E; [by eexists|].
  apply lookup_ge_None in E. lia.
Qed.

Lemma py_index_range {A : Type} (l : list A) i a :
  py_index l i = Ok a -> 0 <= i -> 0 <= i < Z.of_nat (length l).
Proof.
  unfold py_index. intros H Hi. destruct (Z.ltb_spec i 0); [lia|].
  destruct (_ && _) eqn:E; [|done].
  apply andb_true_iff in E as [_ ?%Z.ltb_lt]. lia.
Qed.

(** From a main category of the tree and no sub-category, the loop neither
    fails nor ends with a category outside the tree. *)
Lemma select_outcome_safe c1 keys :
  match c1 with
  | Some i => 0 <= i < Z.of_nat (length BUGFIX_CATEGORIES)
  | None => True
  end ->
  match fst (select_outcome c1 None keys) with
  | Chosen i c2 => exists r, select_cat (i, c2) = Ok r
  | Failed _ => False
  | _ => True
  end.
Proof.
  unfold select_outcome. revert c1.
  induction keys as [|ch keys IH]; intros c1 Hc1.
  - cbn [select_category].
    destruct c1 as [i|]; [|done].
    destruct (py_index_in_range BUGFIX_CATEGORIES i Hc1) as [m_cat Hm].
    rewrite Hm. destruct (snd m_cat) eqn:E; [|done].
    cbn [fst]. unfold select_cat. cbn [fst snd bind]. rewrite Hm. by eexists.
  - cbn [select_category].
    assert (Hget : forall n,
               match get_cat ch n with
               | Some j => 0 <= j < n
               | None => True
               end).
    { intros n. destruct (get_cat ch n) eqn:E; [|done].
      by apply get_cat_bounds in E. }
    destruct c1 as [i|].
    + destruct (py_index_in_range BUGFIX_CATEGORIES i Hc1) as [m_cat Hm].
      rewrite Hm.
      assert (Hnone : exists r, select_cat (i, None) = Ok r).
      { unfold select_cat. cbn [fst snd bind]. rewrite Hm. by eexists. }
      destruct (snd m_cat) as [|s0 subs] eqn:E; [done|].
      destruct (Ascii.eqb ch backspace); [done|].
      destruct (_ || _); [done|].
      destruct (Ascii.eqb ch "v"); [by apply IH|].
      destruct (Ascii.eqb ch "m"); [by apply IH|].
      destruct (Ascii.eqb ch cr); [done|].
      rewrite <- E.
      specialize (Hget (Z.of_nat (length (snd m_cat)))).
      destruct (get_cat ch _) as [j|]; [|by apply IH].
      cbn [fst]. unfold select_cat. cbn [fst snd bind]. rewrite Hm.
      cbn [bind]. destruct (py_index_in_range (snd m_cat) j Hget) as [s Hs].
      rewrite Hs. by eexists.
    + destruct (Ascii.eqb ch backspace); [done|].
      destruct (_ || _); [done|].
      destruct (Ascii.eqb ch "v"); [by apply IH|].
      destruct (Ascii.eqb ch "m"); [by apply IH|].
      apply IH. specialize (Hget (Z.of_nat (length BUGFIX_CATEGORIES))).
      by destruct (get_cat ch _).
Qed.

(** X11: the loop for the category never raises, and whenever it ends
    with a category, that category is one that [write_release_log] finds
    in the tree: the call cannot fail with an [IndexError]. *)
Theorem selection_in_tree keys :
  match fst (select_outcome None None keys) with
  | Chosen c1 c2 => exists r, select_cat (c1, c2) = Ok r
  | Failed _ => False
  | _ => True
  end.
Proof. by apply (select_outcome_safe None). Qed.

Lemma select_cat_bounds c1 j r :
  select_cat (c1, Some j) = Ok r -> 0 <= c1 -> 0 <= j -> 0 <= c1 < 7 /\ 0 <= j < 9.
Proof.
  unfold select_cat. cbn [fst snd].
  destruct (py_index BUGFIX_CATEGORIES c1) as [m_cat|] eqn:E; [|done].
  cbn [bind].
  destruct (py_index (snd m_cat) j) as [s|] eqn:F; [|done].
  intros _ H1 H2.
  pose proof (py_index_range _ _ _ E H1) as Hc.
  pose proof (py_index_range _ _ _ F H2) as Hj.
  apply py_index_elem in E.
  assert (Hlen : Forall (fun mc : pystr * list pystr => (length (snd mc) <= 9)%nat)
                   BUGFIX_CATEGORIES).
  { repeat constructor. }
  rewrite Forall_forall in Hlen. apply Hlen in E.
  change (Z.of_nat (length BUGFIX_CATEGORIES)) with 7 in Hc. lia.
Qed.

(** X12: every place of the tree can be chosen with the keys the loop
    reads: whatever main category and sub-category [write_release_log]
    accepts, counted from zero, some keys make the loop end with exactly
    that choice. *)
Theorem every_category_selectable c1 c2 r :
  select_cat (c1, c2) = Ok r ->
  0 <= c1 -> 0 <= default 0 c2 ->
  exists keys, select_outcome None None keys = (Chosen c1 c2, []).
Proof.
  intros Hsel H1 H2. destruct c2 as [j|]; cbn [default from_option id] in H2.
  - destruct (select_cat_bounds _ _ _ Hsel H1 H2) as [Hc Hj].
    exists [digit_key c1; digit_key j].
    assert (Ec : c1 = 0 \/ c1 = 1 \/ c1 = 2 \/ c1 = 3 \/ c1 = 4 \/ c1 = 5
                 \/ c1 = 6) by lia.
    assert (Ej : j = 0 \/ j = 1 \/ j = 2 \/ j = 3 \/ j = 4 \/ j = 5 \/ j = 6
                 \/ j = 7 \/ j = 8) by lia.
    clear Hc Hj H1 H2.
    repeat (destruct Ec as [->|Ec]); try subst c1;
      repeat (destruct Ej as [->|Ej]); try subst j;
      first [ by vm_compute | by vm_compute in Hsel ].
  - assert (Hc : 0 <= c1 < 7).
    { unfold select_cat in Hsel. cbn [fst snd] in Hsel.
      destruct (py_index BUGFIX_CATEGORIES c1) as [m_cat|] eqn:E; [|done].
      by apply py_index_range in E. }
    exists (digit_key c1 :: if c1 =? 5 then [] else [cr]).
    assert (Ec : c1 = 0 \/ c1 = 1 \/ c1 = 2 \/ c1 = 3 \/ c1 = 4 \/ c1 = 5
                 \/ c1 = 6) by lia.
    clear Hc H1 H2 Hsel.
    repeat (destruct Ec as [->|Ec]); try subst c1; by vm_compute.
Qed.

Lemma every_category_selectable_witness :
  exists keys, select_outcome None None keys = (Chosen 1 (Some 2), []).
Proof.
  apply (every_category_selectable 1 (Some 2)
           (str "Data / Geometry", Some (str "Mesh Editing"))).
  - reflexivity.
  - lia.
  - simpl. lia.
Defined.

(** ** The review loop *)

Lemma count_accept_back st : count_accept (count_accept st 1) (-1) = st.
Proof.
  destruct st. unfold count_accept. cbn. f_equal. lia.
Qed.

Lemma select_outcome_shorter c1 c2 keys :
  (length (snd (select_outcome c1 c2 keys)) <= length keys)%nat.
Proof.
  destruct (select_outcome_suffix c1 c2 keys) as [used H].
  rewrite H at 2. rewrite length_app. lia.
Qed.

(** A review that finishes has gone through its commits one by one. *)
Lemma review_commits_reviewed f n :
  forall keys st commits st',
    (length keys <= n)%nat ->
    review_commits f st commits keys = (st', Finished) ->
    reviewed f st commits st'.
Proof.
  induction n as [|n IH]; intros keys st commits st' Hn.
  - destruct keys; [|simpl in Hn; lia].
    destruct commits as [|[c date] commits]; cbn [review_commits].
    + intros [= <-]. constructor.
    + discriminate.
  - destruct commits as [|[c date] commits].
    { destruct keys; cbn [review_commits]; intros [= <-]; constructor. }
    destruct keys as [|ch keys]; [discriminate|].
    cbn [length] in Hn. cbn [review_commits].
    destruct (_ || _); [discriminate|].
    destruct (Ascii.eqb ch " ").
    + destruct (accept_releaselog f) eqn:Hf.
      * rewrite select_category_outcome.
        pose proof (select_outcome_shorter None None keys) as Hlen.
        destruct (select_outcome None None keys) as [sel ks].
        cbn [fst snd] in *.
        destruct sel as [c1 c2| | | |]; try discriminate.
        -- destruct (write_log f (count_accept st 1) c (c1, c2))
             as [st1 [[]|]] eqn:E1; [|discriminate].
           destruct (write_accept f st1 c date) as [st2 [[]|]] eqn:E2;
             [|discriminate].
           intros H. eapply reviewed_accept_log; [done..|].
           apply (IH ks); [lia|done].
        -- rewrite count_accept_back. apply IH. lia.
      * destruct (write_accept f (count_accept st 1) c date)
          as [st1 [[]|]] eqn:E; [|discriminate].
        intros H. eapply reviewed_accept; [done..|].
        apply (IH keys); [lia|done].
    + destruct (Ascii.eqb ch cr).
      * intros H. apply reviewed_reject. apply (IH keys); [lia|done].
      * apply IH. lia.
Qed.

Lemma write_accept_ok f st c date st1 :
  write_accept f st c date = (st1, Ok tt) ->
  r_log st1 = r_log st
  /\ tot_accept st1 = tot_accept st
  /\ tot_reject st1 = tot_reject st
  /\ accept_file st1 = accept_file st ++ sha1 c ++ nl
  /\ reject_file st1 = reject_file st
  /\ accept_releaselog_file st1 = accept_releaselog_file st
  /\ accept_pretty_file st1
     = accept_pretty_file st
       ++ (if accept_pretty f
           then entry_text (blender_rstate f)
                  (fst (gen_commit_message_pretty c)) (take 10 (sha1 c)) ++ nl
           else [])
  /\ accept_log_file st1
     = accept_log_file st
       ++ (if accept_log f then gen_commit_log c date ++ nl else []).
Proof.
  unfold write_accept. rewrite gen_commit_pretty_some.
  destruct (accept_pretty f), (accept_log f); intros [= <-]; cbn;
    rewrite ?app_nil_r; done.
Qed.

Lemma write_log_ok f st c cat st1 :
  write_log f st c cat = (st1, Ok tt) ->
  add_entry (r_log st) c cat (Some (blender_rstate f)) = (r_log st1, Ok tt)
  /\ tot_accept st1 = tot_accept st
  /\ tot_reject st1 = tot_reject st
  /\ accept_file st1 = accept_file st
  /\ reject_file st1 = reject_file st
  /\ accept_releaselog_file st1
     = Some (render (r_log st1) (blender_rstate_list f))
  /\ accept_pretty_file st1 = accept_pretty_file st
  /\ accept_log_file st1 = accept_log_file st.
Proof.
  unfold write_log, write_release_log.
  destruct (add_entry _ _ _ _) as [log1 [[]|]]; [|discriminate].
  by intros [= <-].
Qed.

Lemma ledger_accept f st st1 st' c date accepted rejected :
  tot_accept st1 = tot_accept st + 1 ->
  tot_reject st1 = tot_reject st ->
  accept_file st1 = accept_file st ++ sha1 c ++ nl ->
  reject_file st1 = reject_file st ->
  accept_log_file st1
  = accept_log_file st
    ++ (if accept_log f then gen_commit_log c date ++ nl else []) ->
  ledger f st1 st' accepted rejected ->
  ledger f st st' ((c, date) :: accepted) rejected.
Proof.
  intros Ha Hr Haf Hrf Hlf (Haf' & Hrf' & Ha' & Hr' & Hlf').
  unfold ledger, sha1_lines, log_lines in *.
  cbn [map concat fst snd length].
  rewrite Haf', Haf, Hrf', Hrf, Ha', Ha, Hr', Hr, Hlf', Hlf, <- !app_assoc.
  repeat split; try done; try lia.
  destruct (accept_log f); [by rewrite <- !app_assoc|done].
Qed.

Lemma reviewed_partition f st commits st' :
  reviewed f st commits st' ->
  exists accepted rejected : list (commit * pystr),
    accepted ++ rejected ≡ₚ commits
    /\ accepted `sublist_of` commits
    /\ rejected `sublist_of` commits
    /\ ledger f st st' accepted rejected.
Proof.
  induction 1 as [st|st c date commits st' _ IH
                  |st c date commits st1 st' Hf Hw _ IH
                  |st c date cat commits st1 st2 st' Hf Hl Hw _ IH].
  - exists [], []. split; [done|]. split; [constructor|].
    split; [constructor|].
    unfold ledger, sha1_lines, log_lines. cbn.
    rewrite !app_nil_r. repeat split; try done; try lia.
    by destruct (accept_log f); rewrite app_nil_r.
  - destruct IH as (accepted & rejected & Hp & Hsa & Hsr & Haf & Hrf & Ha & Hr
                    & Hlf).
    exists accepted, ((c, date) :: rejected).
    split; [by rewrite <- Permutation_middle, Hp|].
    split; [by apply sublist_cons|]. split; [by apply sublist_skip|].
    unfold ledger, sha1_lines in *.
    cbn [map concat fst length write_reject accept_file reject_file tot_accept
           tot_reject accept_log_file] in *.
    rewrite Haf, Hrf, Ha, Hr, Hlf, <- !app_assoc.
    repeat split; try done; lia.
  - destruct IH as (accepted & rejected & Hp & Hsa & Hsr & IH).
    apply write_accept_ok in Hw
      as (_ & Ha & Hr & Haf & Hrf & _ & _ & Hlf).
    exists ((c, date) :: accepted), rejected.
    split; [cbn [app]; by rewrite Hp|].
    split; [by apply sublist_skip|]. split; [by apply sublist_cons|].
    by eapply (ledger_accept f st st1).
  - destruct IH as (accepted & rejected & Hp & Hsa & Hsr & IH).
    apply write_log_ok in Hl as (_ & Ha1 & Hr1 & Haf1 & Hrf1 & _ & _ & Hlf1).
    apply write_accept_ok in Hw
      as (_ & Ha & Hr & Haf & Hrf & _ & _ & Hlf).
    exists ((c, date) :: accepted), rejected.
    split; [cbn [app]; by rewrite Hp|].
    split; [by apply sublist_skip|]. split; [by apply sublist_cons|].
    eapply (ledger_accept f st st2); [..|done].
    + by rewrite Ha, Ha1.
    + by rewrite Hr, Hr1.
    + by rewrite Haf, Haf1.
    + by rewrite Hrf, Hrf1.
    + by rewrite Hlf, Hlf1.
Qed.

(** X13: in a review that finishes, every commit has been either
    accepted or rejected, and the files say so: the identifiers of the
    accepted commits have been added to the accept file and those of the
    rejected commits to the reject file, one a line and in the order of
    the review; the two totals have grown by the numbers of lines added;
    and the log file, when asked for, has one line more for each accepted
    commit. *)
Theorem finished_review_partitions f st commits keys st' :
  review_commits f st commits keys = (st', Finished) ->
  exists accepted rejected : list (commit * pystr),
    accepted ++ rejected ≡ₚ commits
    /\ accepted `sublist_of` commits
    /\ rejected `sublist_of` commits
    /\ accept_file st' = accept_file st ++ sha1_lines accepted
    /\ reject_file st' = reject_file st ++ sha1_lines rejected
    /\ tot_accept st' = tot_accept st + Z.of_nat (length accepted)
    /\ tot_reject st' = tot_reject st + Z.of_nat (length rejected)
    /\ accept_log_file st'
       = accept_log_file st
         ++ (if accept_log f then log_lines accepted else []).
Proof.
  intros H.
  apply (review_commits_reviewed f (length keys) keys st commits st'
           (le_n _)) in H.
  exact (reviewed_partition _ _ _ _ H).
Qed.

Lemma finished_review_partitions_witness :
  exists accepted rejected : list (commit * pystr),
    accepted ++ rejected ≡ₚ sample_commits
    /\ accepted `sublist_of` sample_commits
    /\ rejected `sublist_of` sample_commits
    /\ accept_file sample_reviewed
       = accept_file sample_review ++ sha1_lines accepted
    /\ reject_file sample_reviewed
       = reject_file sample_review ++ sha1_lines rejected
    /\ tot_accept sample_reviewed
       = tot_accept sample_review + Z.of_nat (length accepted)
    /\ tot_reject sample_reviewed
       = tot_reject sample_review + Z.of_nat (length rejected)
    /\ accept_log_file sample_reviewed
       = accept_log_file sample_review
         ++ (if accept_log sample_flags then log_lines accepted else []).
Proof.
  apply (finished_review_partitions sample_flags sample_review sample_commits
           sample_keys).
  vm_compute. reflexivity.
Defined.

Lemma reviewed_session f st commits st' :
  reviewed f st commits st' ->
  accept_releaselog f = true ->
  exists calls : list (commit * (Z * option Z) * option pystr),
    add_entries (r_log st) calls = (r_log st', Ok tt)
    /\ Forall (fun call => snd call = Some (blender_rstate f)) calls
    /\ accept_file st'
       = accept_file st
         ++ concat (map (fun call : commit * (Z * option Z) * option pystr =>
                           sha1 (fst (fst call)) ++ nl) calls)
    /\ accept_releaselog_file st'
       = match calls with
         | [] => accept_releaselog_file st
         | _ :: _ => Some (render (r_log st') (blender_rstate_list f))
         end
    /\ accept_pretty_file st'
       = accept_pretty_file st
         ++ (if accept_pretty f
             then concat
                    (map (fun call : commit * (Z * option Z) * option pystr =>
                            entry_text (blender_rstate f)
                              (fst (gen_commit_message_pretty (fst (fst call))))
                              (take 10 (sha1 (fst (fst call)))) ++ nl) calls)
             else []).
Proof.
  intros H Hrl.
  induction H as [st|st c date commits st' _ IH
                  |st c date commits st1 st' Hf Hw _ IH
                  |st c date cat commits st1 st2 st' Hf Hl Hw _ IH].
  - exists []. cbn. rewrite !app_nil_r. repeat split; try done.
    by destruct (accept_pretty f); rewrite app_nil_r.
  - destruct IH as (calls & IH). by exists calls.
  - congruence.
  - destruct IH as (calls & Hrun & Hrs & Haf & Hfile & Hpf).
    apply write_log_ok in Hl as (Hadd & _ & _ & Haf1 & _ & Hfile1 & Hpf1 & _).
    apply write_accept_ok in Hw as (Hlog & _ & _ & Haf2 & _ & Hfile2 & Hpf2 & _).
    cbn [count_accept r_log accept_file accept_pretty_file] in *.
    exists ((c, cat, Some (blender_rstate f)) :: calls).
    split; [|split; [|split; [|split]]].
    + cbn [add_entries]. rewrite Hadd, <- Hlog. exact Hrun.
    + by constructor.
    + cbn [map concat fst]. rewrite Haf, Haf2, Haf1, <- !app_assoc. done.
    + rewrite Hfile. destruct calls as [|call calls]; [|done].
      injection Hrun as <-. by rewrite Hfile2, Hfile1, Hlog.
    + rewrite Hpf, Hpf2, Hpf1, <- !app_assoc. f_equal.
      destruct (accept_pretty f); [|done].
      cbn [map concat fst]. by rewrite <- !app_assoc.
Qed.

(** X14: with the release log asked for, a review that finishes has
    run exactly a session of the mutation on the log: one call for each
    accepted commit, in order, each with the release state of the command
    line, and every call returned.  The accept file lists the commits of
    these calls, the pretty file, when asked for, lists their entries, and
    the release-log file, once a commit was accepted, is the rendering of
    the final log. *)
Theorem finished_review_is_session f st commits keys st' :
  review_commits f st commits keys = (st', Finished) ->
  accept_releaselog f = true ->
  exists calls : list (commit * (Z * option Z) * option pystr),
    add_entries (r_log st) calls = (r_log st', Ok tt)
    /\ Forall (fun call => snd call = Some (blender_rstate f)) calls
    /\ accept_file st'
       = accept_file st
         ++ concat (map (fun call : commit * (Z * option Z) * option pystr =>
                           sha1 (fst (fst call)) ++ nl) calls)
    /\ accept_releaselog_file st'
       = match calls with
         | [] => accept_releaselog_file st
         | _ :: _ => Some (render (r_log st') (blender_rstate_list f))
         end
    /\ accept_pretty_file st'
       = accept_pretty_file st
         ++ (if accept_pretty f
             then concat
                    (map (fun call : commit * (Z * option Z) * option pystr =>
                            entry_text (blender_rstate f)
                              (fst (gen_commit_message_pretty (fst (fst call))))
                              (take 10 (sha1 (fst (fst call)))) ++ nl) calls)
             else []).
Proof.
  intros H.
  apply (review_commits_reviewed f (length keys) keys st commits st'
           (le_n _)) in H.
  exact (reviewed_session _ _ _ _ H).
Qed.

Lemma finished_review_is_session_witness :
  exists calls : list (commit * (Z * option Z) * option pystr),
    add_entries (r_log sample_review) calls = (r_log sample_reviewed, Ok tt)
    /\ Forall (fun call => snd call = Some (blender_rstate sample_flags)) calls
    /\ accept_file sample_reviewed
       = accept_file sample_review
         ++ concat (map (fun call : commit * (Z * option Z) * option pystr =>
                           sha1 (fst (fst call)) ++ nl) calls)
    /\ accept_releaselog_file sample_reviewed
       = match calls with
         | [] => accept_releaselog_file sample_review
         | _ :: _ =>
             Some (render (r_log sample_reviewed)
                     (blender_rstate_list sample_flags))
         end
    /\ accept_pretty_file sample_reviewed
       = accept_pretty_file sample_review
         ++ (if accept_pretty sample_flags
             then concat
                    (map (fun call : commit * (Z * option Z) * option pystr =>
                            entry_text (blender_rstate sample_flags)
                              (fst (gen_commit_message_pretty (fst (fst call))))
                              (take 10 (sha1 (fst (fst call)))) ++ nl) calls)
             else []).
Proof.
  apply (finished_review_is_session sample_flags sample_review sample_commits
           sample_keys).
  - vm_compute. reflexivity.
  - reflexivity.
Defined.

Lemma tracked_lookup release_log rs :
  rstate_tracked release_log (Some rs) = true ->
  exists l, rl_rstates release_log !! rs = Some l.
Proof. cbn [rstate_tracked]. by intros [l Hl]%bool_decide_eq_true; exists l. Qed.

Lemma reviewed_tracked f st commits st' :
  reviewed f st commits st' ->
  accept_releaselog f = true ->
  rstate_tracked (r_log st) (Some (blender_rstate f)) = true ->
  accept_file st' = accept_file st
  /\ reject_file st' = reject_file st ++ sha1_lines commits.
Proof.
  intros H Hf Ht.
  induction H as [st|st c date commits st' _ IH
                  |st c date commits st1 st' Hf' Hw _ IH
                  |st c date cat commits st1 st2 st' Hf' Hl Hw _ IH].
  - unfold sha1_lines. cbn. by rewrite app_nil_r.
  - destruct (IH Ht) as [Ha Hr]. split; [done|].
    rewrite Hr. unfold sha1_lines. cbn [write_reject reject_file map concat fst].
    by rewrite <- !app_assoc.
  - congruence.
  - apply write_log_ok in Hl as (Hadd & _).
    apply add_entry_ok in Hadd as (mc & sc & rs & _ & [= <-] & Hnone & _).
    apply tracked_lookup in Ht as [l Hl]. cbn [count_accept r_log] in Hnone.
    congruence.
Qed.

Lemma review_accept_crashes f st c date commits keys c1 c2 ks :
  accept_releaselog f = true ->
  rstate_tracked (r_log st) (Some (blender_rstate f)) = true ->
  select_outcome None None keys = (Chosen c1 c2, ks) ->
  exists st1 e,
    review_commits f st ((c, date) :: commits) (" "%char :: keys)
    = (st1, Crashed e)
    /\ accept_file st1 = accept_file st
    /\ reject_file st1 = reject_file st
    /\ accept_pretty_file st1 = accept_pretty_file st
    /\ accept_log_file st1 = accept_log_file st
    /\ accept_releaselog_file st1 = accept_releaselog_file st.
Proof.
  intros Hf [l Hl]%tracked_lookup Hsel.
  cbn [review_commits].
  change (Ascii.eqb " " ctrl_c || Ascii.eqb " " "x") with false.
  change (Ascii.eqb " " " ") with true. cbv iota.
  rewrite Hf, select_category_outcome, Hsel. cbn [fst snd].
  unfold write_log, write_release_log. cbn [count_accept r_log].
  destruct (add_entry_tracked (r_log st) c (c1, c2) (blender_rstate f) l Hl)
    as (log1 & e & -> & _).
  by eexists _, e.
Qed.

(** X15: when the release state of the command line is one of the list
    of release states and the release log is asked for, no commit can be
    accepted.  Whatever file the log was read from, the first commit that
    is accepted and given a category ends the run with an exception, before
    anything is written to a file; and a review finishes only when every
    commit was rejected. *)
Theorem listed_state_blocks_review existing branch blender_rev start_sha1
    end_sha1 f st :
  accept_releaselog f = true ->
  blender_rstate f ∈ blender_rstate_list f ->
  r_log st
  = release_log_init existing branch blender_rev start_sha1 end_sha1
      (Some (blender_rstate f)) (blender_rstate_list f) ->
  (forall c date commits keys c1 c2 ks,
     select_outcome None None keys = (Chosen c1 c2, ks) ->
     exists st1 e,
       review_commits f st ((c, date) :: commits) (" "%char :: keys)
       = (st1, Crashed e)
       /\ accept_file st1 = accept_file st
       /\ reject_file st1 = reject_file st
       /\ accept_pretty_file st1 = accept_pretty_file st
       /\ accept_log_file st1 = accept_log_file st
       /\ accept_releaselog_file st1 = accept_releaselog_file st)
  /\ (forall commits keys st',
        review_commits f st commits keys = (st', Finished) ->
        accept_file st' = accept_file st
        /\ reject_file st' = reject_file st ++ sha1_lines commits).
Proof.
  intros Hf Hin Hlog.
  assert (Ht : rstate_tracked (r_log st) (Some (blender_rstate f)) = true).
  { rewrite Hlog. cbn [rstate_tracked]. apply bool_decide_eq_true.
    by apply release_log_init_keys. }
  split.
  - intros c date commits keys c1 c2 ks. by apply review_accept_crashes.
  - intros commits keys st' H.
    apply (review_commits_reviewed f (length keys) keys st commits st'
             (le_n _)) in H.
    exact (reviewed_tracked _ _ _ _ H Hf Ht).
Qed.

Lemma listed_state_blocks_review_witness :
  (exists st1 e,
     review_commits sample_flags_rc sample_review_rc sample_commits sample_keys
     = (st1, Crashed e)
     /\ accept_file st1 = accept_file sample_review_rc
     /\ reject_file st1 = reject_file sample_review_rc
     /\ accept_pretty_file st1 = accept_pretty_file sample_review_rc
     /\ accept_log_file st1 = accept_log_file sample_review_rc
     /\ accept_releaselog_file st1 = accept_releaselog_file sample_review_rc)
  /\ accept_file
       (fst (review_commits sample_flags_rc sample_review_rc sample_commits
               [cr; cr]))
     = accept_file sample_review_rc
  /\ reject_file
       (fst (review_commits sample_flags_rc sample_review_rc sample_commits
               [cr; cr]))
     = reject_file sample_review_rc ++ sha1_lines sample_commits.
Proof.
  destruct (listed_state_blocks_review None (str "main") (str "2.79")
              (str "0123456789abcdef") (str "fedcba9876543210")
              sample_flags_rc sample_review_rc) as [H1 H2].
  - reflexivity.
  - apply elem_of_cons. left. reflexivity.
  - reflexivity.
  - split.
    + apply (H1 commit_crash (str "2017/09/11")
               [(commit_cleanup, str "2017/09/12")] ["1"; "2"; cr]%char
               1 (Some 2) [cr]).
      vm_compute. reflexivity.
    + apply (H2 sample_commits [cr; cr]). vm_compute. reflexivity.
Defined.

(** ** The identifiers written are read back as identifiers to skip *)

Lemma split_ws_word s rest word :
  forallb (fun c => negb (is_space c)) s = true ->
  split_ws (s ++ rest) word = split_ws rest (word ++ s).
Proof.
  revert word. induction s as [|c s IH]; intros word Hs.
  - by rewrite app_nil_r.
  - cbn [forallb] in Hs. apply andb_true_iff in Hs as [Hc Hs].
    apply negb_true_iff in Hc. cbn [app split_ws]. rewrite Hc.
    rewrite IH by done. by rewrite <- app_assoc.
Qed.

Lemma split_ws_line s : one_word s = true -> split_ws (s ++ nl) [] = [s].
Proof.
  unfold one_word. intros [Hne Hs]%andb_true_iff.
  apply negb_true_iff, bool_decide_eq_false in Hne.
  rewrite split_ws_word by done. cbn [app nl split_ws].
  change (is_space newline) with true. cbv iota. by destruct s.
Qed.

Lemma one_word_plain s :
  one_word s = true -> mem newline s = false /\ mem cr s = false.
Proof.
  unfold one_word, mem. intros [_ Hs]%andb_true_iff.
  rewrite forallb_forall in Hs.
  split; apply not_true_iff_false; intros [x [Hx Hc]]%existsb_exists;
    apply Hs in Hx; apply Ascii.eqb_eq in Hc; subst x; done.
Qed.

Lemma mem_sha1_lines c commits :
  Forall (fun cd : commit * pystr => one_word (sha1 (fst cd)) = true) commits ->
  Ascii.eqb c newline = false ->
  is_space c = true ->
  mem c (sha1_lines commits) = false.
Proof.
  intros H Hc Hsp. unfold sha1_lines.
  induction H as [|cd commits Hcd _ IH]; [done|].
  cbn [map concat]. rewrite !mem_app, IH.
  unfold one_word in Hcd. apply andb_true_iff in Hcd as [_ Hcd].
  assert (mem c (sha1 (fst cd)) = false) as ->.
  { apply not_true_iff_false. unfold mem.
    intros [x [Hx Hxc]]%existsb_exists. apply Ascii.eqb_eq in Hxc. subst x.
    rewrite forallb_forall in Hcd. apply Hcd in Hx. by rewrite Hsp in Hx. }
  unfold mem, nl. cbn [existsb]. by rewrite Hc.
Qed.

(** The lines of an identifier file after the loop has added to it. *)
Lemma file_lines_sha1_lines old commits :
  complete_text old = true ->
  Forall (fun cd : commit * pystr => one_word (sha1 (fst cd)) = true) commits ->
  file_lines (old ++ sha1_lines commits)
  = split_lines old
    ++ map (fun cd : commit * pystr => sha1 (fst cd) ++ nl) commits.
Proof.
  intros [Hcr Hend]%andb_true_iff Hc. apply negb_true_iff in Hcr.
  unfold file_lines.
  rewrite universal_newlines_id.
  2:{ rewrite mem_app, Hcr. by apply mem_sha1_lines. }
  rewrite split_lines_app by done. f_equal.
  unfold sha1_lines.
  pose proof (split_lines_unlines (map (fun cd : commit * pystr => sha1 (fst cd))
                                     commits) []) as H.
  unfold unlines in H. rewrite app_nil_r, map_map in H.
  rewrite H; [by rewrite app_nil_r|].
  apply Forall_map. eapply Forall_impl; [exact Hc|].
  intros cd Hcd. by apply one_word_plain in Hcd as [? _].
Qed.

Lemma exclude_sha1_file given files text x :
  Some text ∈ files ->
  x ∈ concat (map (fun line => split_ws line []) (file_lines text)) ->
  x ∈ exclude_sha1 given files.
Proof.
  unfold exclude_sha1. intros Hin Hx. apply elem_of_list_to_set.
  revert given. induction files as [|file files IH]; intros given.
  - by apply elem_of_nil in Hin.
  - cbn [fold_left].
    assert (Hmono : forall l0 fs y,
               y ∈ l0 ->
               y ∈ fold_left
                     (fun l file =>
                        match file with
                        | Some text =>
                            l ++ concat (map (fun line => split_ws line [])
                                           (file_lines text))
                        | None => l
                        end) fs l0).
    { intros l0 fs. revert l0. induction fs as [|[t|] fs IHf]; intros l0 y Hy;
        cbn [fold_left]; [done| |by apply IHf].
      apply IHf, elem_of_app. by left. }
    apply elem_of_cons in Hin as [<-|Hin]; [|by apply IH].
    apply Hmono, elem_of_app. by right.
Qed.

Lemma sha1_in_words old commits c date :
  complete_text old = true ->
  Forall (fun cd : commit * pystr => one_word (sha1 (fst cd)) = true) commits ->
  (c, date) ∈ commits ->
  sha1 c
  ∈ concat (map (fun line => split_ws line [])
              (file_lines (old ++ sha1_lines commits))).
Proof.
  intros Hold Hc Hin. rewrite file_lines_sha1_lines by done.
  rewrite map_app, concat_app. apply elem_of_app. right.
  rewrite Forall_forall in Hc. pose proof (Hc _ Hin) as Hw. cbn [fst] in Hw.
  apply list_elem_of_In, in_concat. exists [sha1 c]. split; [|by left].
  apply in_map_iff. exists (sha1 c ++ nl). split; [by apply split_ws_line|].
  apply in_map_iff. exists (c, date). split; [done|]. by apply list_elem_of_In.
Qed.

Lemma match_sha1_excluded a c :
  sha1 c ∈ filter_exclude_sha1_list a -> match_ a c <> Returns true.
Proof.
  intros Hin.
  assert (Hrest : match_rest a c = Returns false).
  { unfold match_rest. destruct (_ && _); [done|].
    by rewrite (bool_decide_eq_true_2 _ Hin). }
  unfold match_. rewrite Hrest.
  destruct (falsy _); [done|].
  destruct (bool_decide (_ = Some (str "BUGFIX"))).
  { destruct (len _ =? 0); [done|]. by destruct (any_word _ _). }
  destruct (bool_decide (_ = Some (str "NOISE"))); [|done].
  destruct (len _ =? 0); [done|]. by destruct (any_word _ _).
Qed.

(** X16: the commits of a finished review are skipped by a later run
    that is given the two identifier files.  When the two files were made
    of complete lines before the review and every identifier is one word,
    the identifier of each reviewed commit is among those read from the
    files, and the filter does not accept the commit again. *)
Theorem reviewed_commits_excluded f st commits keys st' given c date a :
  review_commits f st commits keys = (st', Finished) ->
  complete_text (accept_file st) = true ->
  complete_text (reject_file st) = true ->
  Forall (fun cd : commit * pystr => one_word (sha1 (fst cd)) = true) commits ->
  (c, date) ∈ commits ->
  exclude_sha1 given [Some (accept_file st'); Some (reject_file st')]
  ⊆ filter_exclude_sha1_list a ->
  sha1 c ∈ exclude_sha1 given [Some (accept_file st'); Some (reject_file st')]
  /\ match_ a c <> Returns true.
Proof.
  intros H Ha Hr Hw Hin Hsub.
  apply (review_commits_reviewed f (length keys) keys st commits st'
           (le_n _)) in H.
  destruct (reviewed_partition _ _ _ _ H)
    as (accepted & rejected & Hp & Hsa & Hsr & Haf & Hrf & _).
  assert (Hex : sha1 c
                ∈ exclude_sha1 given [Some (accept_file st'); Some (reject_file st')]).
  { rewrite <- Hp in Hin. rewrite <- Hp in Hw.
    apply Forall_app in Hw as [Hwa Hwr].
    apply elem_of_app in Hin as [Hin|Hin].
    - apply (exclude_sha1_file _ _ (accept_file st'));
        [apply elem_of_cons; by left|].
      rewrite Haf. by eapply sha1_in_words.
    - apply (exclude_sha1_file _ _ (reject_file st')).
      { apply elem_of_cons. right. apply elem_of_cons. by left. }
      rewrite Hrf. by eapply sha1_in_words. }
  split; [done|]. apply match_sha1_excluded. by apply Hsub.
Qed.

Lemma reviewed_commits_excluded_witness :
  sha1 commit_crash
  ∈ exclude_sha1 []
      [Some (accept_file sample_reviewed); Some (reject_file sample_reviewed)]
  /\ match_
       (Args None None
          (exclude_sha1 []
             [Some (accept_file sample_reviewed);
              Some (reject_file sample_reviewed)]) ∅)
       commit_crash
     <> Returns true.
Proof.
  apply (reviewed_commits_excluded sample_flags sample_review sample_commits
           sample_keys sample_reviewed [] commit_crash (str "2017/09/11")).
  - vm_compute. reflexivity.
  - reflexivity.
  - reflexivity.
  - repeat constructor.
  - apply elem_of_cons. left. reflexivity.
  - done.
Defined.

(** ** The prose is one line *)

Lemma mem_cons c d s : mem c (d :: s) = Ascii.eqb c d || mem c s.
Proof. done. Qed.

Lemma sub_from_no_newline {G : Type} (m : pystr -> option (G * nat)) repl :
  (forall s g n, m s = Some (g, n) -> mem newline (repl g) = false) ->
  forall s k,
    mem newline s = false -> mem newline (Re.sub_from m repl s k) = false.
Proof.
  intros Hm. induction s as [|c s IH]; intros k Hs; [by destruct k|].
  rewrite mem_cons in Hs. apply orb_false_iff in Hs as [Hc Hs].
  cbn [Re.sub_from]. destruct k as [|k]; [|by apply IH].
  destruct (m (c :: s)) as [[g n]|] eqn:E.
  - rewrite mem_app, (Hm _ _ _ E). by apply IH.
  - rewrite mem_cons, Hc. by apply IH.
Qed.

Lemma mem_forallb_false c (p : ascii -> bool) s :
  p c = false -> forallb p s = true -> mem c s = false.
Proof.
  intros Hc Hs. apply not_true_iff_false. unfold mem.
  intros [x [Hx Hxc]]%existsb_exists. apply Ascii.eqb_eq in Hxc. subst x.
  rewrite forallb_forall in Hs. apply Hs in Hx. congruence.
Qed.

Lemma repl_bugify_no_newline s g n :
  Re.re_bugify s = Some (g, n) -> mem newline (repl_bugify g) = false.
Proof.
  intros H%re_bugify_some. unfold repl_bugify.
  rewrite !mem_app, (mem_forallb_false newline is_digit g) by done.
  reflexivity.
Qed.

Lemma repl_commitify_no_newline s g n :
  Re.re_commitify s = Some (g, n) -> mem newline (repl_commitify g) = false.
Proof.
  destruct s as [|w [|r s]]; cbn [Re.re_commitify]; [done..|].
  destruct (negb (is_word w) && Ascii.eqb r "r") eqn:Hr; [|done].
  apply andb_true_iff in Hr as [_ Hr]. apply Ascii.eqb_eq in Hr as ->.
  destruct (Re.first_alt s _) as [ga|] eqn:E; [|done].
  intros [= <- _].
  apply first_alt_some in E as (alt & h & Hin & -> & Hh).
  unfold repl_commitify. rewrite !mem_app, mem_cons, mem_app.
  rewrite (mem_forallb_false newline is_hex h) by done.
  repeat (apply elem_of_cons in Hin as [->|Hin]); [done..|].
  by apply elem_of_nil in Hin.
Qed.

Lemma spaces_then_some {A : Type} (k : pystr -> option A) s r :
  Re.spaces_then k s = Some r -> exists s', k s' = Some r.
Proof.
  induction s as [|c s IH]; cbn [Re.spaces_then]; [by exists []|].
  destruct (is_space c); [|by exists (c :: s)].
  destruct (Re.spaces_then k s) as [r'|]; [|by exists (c :: s)].
  intros [= <-]. by apply IH.
Qed.

Lemma optional_then_some {A : Type} lits (k : pystr -> option A) s r :
  Re.optional_then lits k s = Some r -> exists s', k s' = Some r.
Proof.
  induction lits as [|l lits IH]; cbn [Re.optional_then]; [by exists s|].
  destruct (istartswith s l).
  - destruct (k (drop (length l) s)) as [r'|] eqn:E; [|exact IH].
    intros [= <-]. by eexists.
  - exact IH.
Qed.

Lemma bug_number_digits s ds rest :
  Re.bug_number s = Some (ds, rest) -> forallb is_digit ds = true.
Proof.
  destruct s as [|c s]; [done|]. cbn [Re.bug_number].
  destruct (ieqb c "T"); [|done].
  pose proof (forallb_run is_digit s) as H.
  destruct (Re.run is_digit s); [done|]. by intros [= <- _].
Qed.

Lemma fix_core_digits s ds rest :
  Re.fix_core s = Some (ds, rest) -> forallb is_digit ds = true.
Proof.
  unfold Re.fix_core. destruct (istartswith s (str "Fix")); [|done].
  intros [s1 H]%optional_then_some. apply spaces_then_some in H as [s2 H].
  apply optional_then_some in H as [s3 H].
  apply spaces_then_some in H as [s4 H]. by eapply bug_number_digits.
Qed.

Lemma lazy_dots_groups n pre s pre' ds rest :
  Re.lazy_dots n pre s = Some (pre', ds, rest) ->
  mem newline pre = false ->
  mem newline pre' = false /\ forallb is_digit ds = true.
Proof.
  revert pre s. induction n as [|n IH]; intros pre s; cbn [Re.lazy_dots].
  - destruct (Re.fix_core s) as [[ds' rest']|] eqn:E; [|done].
    intros [= <- <- <-] Hpre. split; [done|]. by eapply fix_core_digits.
  - destruct (Re.fix_core s) as [[ds' rest']|] eqn:E.
    { intros [= <- <- <-] Hpre. split; [done|]. by eapply fix_core_digits. }
    destruct s as [|c s]; [done|].
    destruct (Ascii.eqb c newline) eqn:Hc; [done|].
    intros H Hpre. apply (IH _ _ H).
    rewrite mem_app, Hpre. unfold mem. cbn [existsb].
    by rewrite Ascii.eqb_sym, Hc.
Qed.

Lemma repl_prettify_no_newline s g n :
  Re.re_prettify s = Some (g, n) -> mem newline (repl_prettify g) = false.
Proof.
  unfold Re.re_prettify.
  destruct (Re.lazy_dots 20 [] s) as [[[pre ds] rest]|] eqn:E; [|done].
  intros [= <- _]. apply lazy_dots_groups in E as [Hpre Hds]; [|done].
  unfold repl_prettify. cbn [fst snd].
  rewrite !mem_app, Hpre, (mem_forallb_false newline is_digit ds) by done.
  reflexivity.
Qed.

(** X17: the prose of the transformer holds no newline, whatever the
    message of the commit: the summary is one line, and none of the three
    rewrites brings a newline in. *)
Theorem message_pretty_one_line c :
  mem newline (fst (gen_commit_message_pretty c)) = false.
Proof.
  unfold gen_commit_message_pretty. cbn [fst]. unfold Re.sub.
  pose proof (mem_replace_newline
                (strip (split_head (body c) (nl ++ nl)) (str " :.;-" ++ nl)))
    as Hs.
  fold (gen_commit_summary c) in Hs.
  apply (sub_from_no_newline _ _ repl_commitify_no_newline).
  apply (sub_from_no_newline _ _ repl_bugify_no_newline).
  destruct (PyStr.eqb _ _).
  - by rewrite mem_app, Hs.
  - by apply (sub_from_no_newline _ _ repl_prettify_no_newline).
Qed.

(** ** Entries with a label are listed again under the label *)







(** ** The header of a file that is read again *)

Lemma rl_header_parse_entry log mc sc l :
  rl_header (parse_entry log mc sc l) = rl_header log.
Proof.
  unfold parse_entry, parse_rstate.
  destruct (startswith _ _); [|apply rl_header_record_entry].
  destruct (0 <? _); [|apply rl_header_record_entry].
  destruct (bool_decide _); apply rl_header_record_entry.
Qed.

Lemma parse_body_header st ls :
  rl_header (p_log (parse_body st ls)) = rl_header (p_log st).
Proof.
  apply (parse_body_keeps (fun log => rl_header log = rl_header (p_log st)));
    [|done].
  intros log mc sc l <-. apply rl_header_parse_entry.
Qed.

Lemma carried_header_paragraph header rstate start_sha1 end_sha1 branch :
  carried_header header rstate start_sha1 end_sha1 branch
  = join nl header ++ changes_paragraph rstate start_sha1 end_sha1 branch.
Proof. reflexivity. Qed.

Section HeaderCarried.

Context (rstate : option pystr) (start_sha1 end_sha1 branch : pystr).

Lemma parse_header_header ls log mc sc ign header :
  rl_header
    (p_log (parse_header rstate start_sha1 end_sha1 branch
              (Parser log mc sc ign) header ls))
  = carried_header (header_tail ign header ls) rstate start_sha1 end_sha1
      branch.
Proof.
  revert ign header. induction ls as [|l ls IH]; intros ign header; [done|].
  cbn [parse_header header_tail p_log p_main_cat p_sub_cat p_ignore].
  destruct (contains l IGNORE_END_LINE); [apply IH|].
  destruct (ign || contains l IGNORE_START_LINE) eqn:Hs; [apply IH|].
  apply orb_false_iff in Hs as [-> _].
  destruct (startswith _ (str "==")); [|apply IH].
  destruct (main_heading _) as [mc' sc']. by rewrite parse_body_header.
Qed.

Lemma parse_start_header ls log mc sc ign :
  rl_header
    (p_log (parse_start rstate start_sha1 end_sha1 branch
              (Parser log mc sc ign) ls))
  = match header_lines ign ls with
    | Some header => carried_header header rstate start_sha1 end_sha1 branch
    | None => rl_header log
    end.
Proof.
  revert ign. induction ls as [|l ls IH]; intros ign; [done|].
  cbn [parse_start header_lines p_log p_main_cat p_sub_cat p_ignore].
  destruct (contains l IGNORE_END_LINE); [apply IH|].
  destruct (ign || contains l IGNORE_START_LINE) eqn:Hs; [apply IH|].
  apply orb_false_iff in Hs as [-> _]. apply parse_header_header.
Qed.

End HeaderCarried.

Lemma header_tail_end ign header l rest :
  contains l IGNORE_END_LINE = true ->
  header_tail ign header (l :: rest) = header_tail false header rest.
Proof. cbn [header_tail]. by intros ->. Qed.

Lemma header_tail_ignore ign header l rest :
  contains l IGNORE_END_LINE = false ->
  ign || contains l IGNORE_START_LINE = true ->
  header_tail ign header (l :: rest) = header_tail true header rest.
Proof. cbn [header_tail]. by intros -> ->. Qed.

Lemma header_tail_line header l rest :
  contains l IGNORE_END_LINE = false ->
  contains l IGNORE_START_LINE = false ->
  not_heading l = true ->
  header_tail false header (l :: rest)
  = header_tail false (header ++ [strip l (str " " ++ nl)]) rest.
Proof.
  unfold not_heading. cbn [header_tail orb].
  by intros -> -> ->%negb_true_iff.
Qed.

Lemma header_tail_heading header l rest :
  contains l IGNORE_END_LINE = false ->
  contains l IGNORE_START_LINE = false ->
  not_heading l = false ->
  header_tail false header (l :: rest) = header.
Proof.
  unfold not_heading. cbn [header_tail orb].
  by intros -> -> ->%negb_false_iff.
Qed.

Lemma header_line_kept_inv l :
  header_line_kept l = true ->
  contains l IGNORE_END_LINE = false
  /\ contains l IGNORE_START_LINE = false
  /\ not_heading l = true
  /\ strip l (str " " ++ nl) ++ nl = l.
Proof.
  unfold header_line_kept. intros H.
  repeat (apply andb_true_iff in H as [H ?]).
  apply negb_true_iff in H.
  repeat match goal with
         | H : negb _ = true |- _ => apply negb_true_iff in H
         | H : bool_decide _ = true |- _ => apply bool_decide_eq_true in H
         end.
  done.
Qed.

Lemma header_tail_kept hs header rest :
  forallb header_line_kept hs = true ->
  header_tail false header (hs ++ rest)
  = header_tail false
      (header ++ map (fun l => strip l (str " " ++ nl)) hs) rest.
Proof.
  revert header. induction hs as [|l hs IH]; intros header.
  - intros _. by rewrite app_nil_r.
  - cbn [forallb app map]. intros [Hl Hhs]%andb_true_iff.
    apply header_line_kept_inv in Hl as (He & Hs & Hn & _).
    rewrite header_tail_line, IH by done. by rewrite <- app_assoc.
Qed.

Lemma header_tail_opening ign header count rest :
  header_tail ign header
    (map (fun l => l ++ nl) (opening_block count) ++ rest)
  = header_tail false (header ++ [[]]) rest.
Proof.
  unfold opening_block. cbn [map app].
  rewrite header_tail_ignore by (done || by rewrite orb_true_r).
  rewrite header_tail_ignore by (done || apply total_line_no_marker).
  rewrite header_tail_ignore by done.
  rewrite header_tail_ignore by done.
  rewrite header_tail_end by done.
  by rewrite header_tail_line.
Qed.

Lemma header_lines_kept l hs rest :
  header_line_kept l = true ->
  header_lines false (l :: hs ++ rest)
  = Some (header_tail false [strip l (str " " ++ nl)] (hs ++ rest)).
Proof.
  intros (He & Hs & _)%header_line_kept_inv.
  cbn [header_lines orb]. by rewrite He, Hs.
Qed.

Lemma header_lines_end ign l rest :
  contains l IGNORE_END_LINE = true ->
  header_lines ign (l :: rest) = header_lines false rest.
Proof. cbn [header_lines]. by intros ->. Qed.

Lemma header_lines_ignore ign l rest :
  contains l IGNORE_END_LINE = false ->
  ign || contains l IGNORE_START_LINE = true ->
  header_lines ign (l :: rest) = header_lines true rest.
Proof. cbn [header_lines]. by intros -> ->. Qed.

Lemma header_lines_opening count rest :
  header_lines false (map (fun l => l ++ nl) (opening_block count) ++ rest)
  = Some (header_tail false [[]] rest).
Proof.
  unfold opening_block. cbn [map app].
  rewrite header_lines_ignore by (done || by rewrite orb_true_r).
  rewrite header_lines_ignore by (done || apply total_line_no_marker).
  rewrite header_lines_ignore by done.
  rewrite header_lines_ignore by done.
  rewrite header_lines_end by done.
  reflexivity.
Qed.

(** The header lines of the file of a log, up to the sections. *)
Lemma header_lines_file hs count rest :
  forallb header_line_kept hs = true ->
  header_lines false
    (hs ++ map (fun l => l ++ nl) (opening_block count) ++ rest)
  = Some (header_tail false
            (map (fun l => strip l (str " " ++ nl)) hs ++ [[]]) rest).
Proof.
  destruct hs as [|l hs]; cbn [forallb app map].
  - intros _. apply header_lines_opening.
  - intros [Hl Hhs]%andb_true_iff.
    rewrite header_lines_kept by done. f_equal.
    rewrite header_tail_kept, header_tail_opening by done.
    by rewrite <- app_assoc.
Qed.

Lemma concat_split_lines s : concat (split_lines s) = s.
Proof.
  induction s as [|c s IH]; [done|]. cbn [split_lines].
  destruct (Ascii.eqb c newline).
  - cbn [concat app]. by rewrite IH.
  - destruct (split_lines s) as [|l ls] eqn:E.
    + apply split_lines_nil_inv in E. by subst s.
    + cbn [concat app] in *. by rewrite IH.
Qed.

Lemma unlines_kept hs :
  forallb header_line_kept hs = true ->
  unlines (map (fun l => strip l (str " " ++ nl)) hs) = concat hs.
Proof.
  unfold unlines. induction hs as [|l hs IH]; [done|].
  cbn [forallb map concat]. intros [Hl Hhs]%andb_true_iff.
  apply header_line_kept_inv in Hl as (_ & _ & _ & ->). by rewrite IH.
Qed.

Lemma join_blank ls : join nl (ls ++ [[]]) = unlines ls.
Proof.
  unfold unlines. induction ls as [|l ls IH]; [done|].
  cbn [app map concat]. rewrite <- IH.
  destruct ls; cbn [app join]; by rewrite <- ?app_assoc, ?app_nil_r.
Qed.

Lemma join_two_blank ls : join nl (ls ++ [[]] ++ [[]]) = unlines ls ++ nl.
Proof.
  rewrite (app_assoc ls), join_blank, unlines_app.
  unfold unlines at 2. cbn [map concat app]. by rewrite app_nil_r.
Qed.

Lemma header_kept_ok h : header_kept h = true -> header_ok h = true.
Proof.
  unfold header_kept, header_ok.
  intros [H Hl]%andb_true_iff. rewrite H. cbn [andb].
  apply forallb_forall. intros l Hin. rewrite forallb_forall in Hl.
  by apply Hl, header_line_kept_inv in Hin as (_ & _ & ? & _).
Qed.

Lemma header_tail_main_heading header c rest :
  main_line_ok c = true ->
  header_tail false header ((heading2 c ++ nl) :: rest) = header.
Proof.
  unfold main_line_ok. intros H.
  repeat (apply andb_true_iff in H as [H ?]).
  apply negb_true_iff in H.
  repeat match goal with
         | H : negb _ = true |- _ => apply negb_true_iff in H
         end.
  apply header_tail_heading; [done..|].
  unfold not_heading. by apply negb_false_iff.
Qed.

Lemma sections_head m cats x xs :
  concat (map (main_section m) cats) = x :: xs ->
  exists mc, mc ∈ cats /\ x = heading2 (fst mc).
Proof.
  induction cats as [|mc cats IH]; [done|]. cbn [map concat].
  destruct (main_section m mc) as [|y ys] eqn:E.
  - intros (mc' & Hin & ->)%IH. exists mc'. split; [|done].
    apply elem_of_cons. by right.
  - destruct (main_section_head m mc) as [r Hr]; [by rewrite E|].
    rewrite E in Hr. injection Hr as -> _.
    cbn [app]. intros [= <- _]. exists mc. split; [|done].
    apply elem_of_cons. by left.
Qed.

Lemma section_lines_no_cats m : rl_cats m = ∅ -> section_lines m = [].
Proof.
  intros Hc. unfold section_lines.
  induction BUGFIX_CATEGORIES as [|mc cats IH]; [done|].
  cbn [map concat]. rewrite IH, app_nil_r.
  apply main_section_nil. intros [[u Hu]|(s & u & _ & Hu)];
    by rewrite entries_no_cats in Hu.
Qed.

Lemma tree_buckets_inv mc s :
  (mc, s) ∈ tree_buckets ->
  exists subs,
    (mc, subs) ∈ BUGFIX_CATEGORIES
    /\ match s with
       | Some x => x ∈ subs
       | None => True
       end.
Proof.
  unfold tree_buckets. intros H%list_elem_of_In%in_concat.
  destruct H as (bs & Hbs & Hin). apply in_map_iff in Hbs as ([c subs] & <- & Hc).
  unfold cat_buckets in Hin. cbn [fst snd] in Hin.
  destruct Hin as [[= <- <-]|Hin].
  - exists subs. split; [by apply list_elem_of_In|done].
  - apply in_map_iff in Hin as (x & [= <- <-] & Hx).
    exists subs. split; by apply list_elem_of_In.
Qed.

(** The header lines the parser collects from the file of a built log. *)
Lemma header_lines_built m rstate_list :
  built m -> header_kept (rl_header m) = true ->
  header_lines false (file_lines (render m rstate_list))
  = Some (map (fun l => strip l (str " " ++ nl)) (split_lines (rl_header m))
          ++ [[]]
          ++ match section_lines m with
             | [] => [[]]
             | _ :: _ => []
             end).
Proof.
  intros Hm Hk. pose proof (header_kept_ok _ Hk) as Hok.
  rewrite (file_lines_built m Hm) by done.
  apply andb_true_iff in Hk as [_ Hk].
  rewrite map_app, header_lines_file by done. f_equal.
  destruct (section_lines m) as [|x xs] eqn:E.
  - cbn [blank_if_empty app map]. rewrite header_tail_line by done.
    by rewrite <- app_assoc.
  - cbn [blank_if_empty app map].
    apply sections_head in E as (mc & Hin & ->).
    pose proof tree_main_lines as Ht. rewrite Forall_forall in Ht.
    by rewrite header_tail_main_heading by (by apply Ht).
Qed.

(** The buckets a session writes to are buckets of the static tree. *)
Lemma add_entries_in_tree m calls m' :
  (forall k s u e,
     e ∈ entries m k s u -> exists mc, k = Some mc /\ (mc, s) ∈ tree_buckets) ->
  add_entries m calls = (m', Ok tt) ->
  forall k s u e,
    e ∈ entries m' k s u -> exists mc, k = Some mc /\ (mc, s) ∈ tree_buckets.
Proof.
  revert m. induction calls as [|[[c cat] rstate] calls IH]; intros m Hm.
  - by intros [= <-].
  - cbn [add_entries].
    destruct (add_entry m c cat rstate) as [m1 [[]|]] eqn:E; [|done].
    apply IH.
    apply add_entry_ok in E as (mc & sub_cat & rs & Hsel & -> & _ & ->).
    intros k s u e.
    rewrite entries_record_entry, !entries_touch_cat.
    destruct (decide _) as [[= -> -> _]|_]; [|apply Hm].
    intros _. exists mc. split; [done|]. by eapply select_cat_in_tree.
Qed.

Lemma section_lines_in_tree m mc s u e :
  (mc, s) ∈ tree_buckets -> e ∈ entries m (Some mc) s u ->
  section_lines m <> [].
Proof.
  intros Hb He.
  apply tree_buckets_inv in Hb as (subs & Hin & Hs).
  assert (Hsec : main_section m (mc, subs) <> []).
  { intros Hnil%main_section_nil. apply Hnil. unfold has_entries.
    cbn [fst snd]. destruct s as [x|].
    - right. exists x, u. split; [done|]. intros E. rewrite E in He.
      by apply elem_of_nil in He.
    - left. exists u. intros E. rewrite E in He. by apply elem_of_nil in He. }
  unfold section_lines. intros Hnil. apply Hsec.
  apply list_elem_of_In, (in_map (main_section m)) in Hin.
  revert Hin Hnil.
  generalize (map (main_section m) BUGFIX_CATEGORIES).
  induction l as [|y l IH]; [done|]. cbn [concat].
  intros [->|Hin] [H1 H2]%app_eq_nil; [done|by apply IH].
Qed.

Lemma universal_newlines_app a b :
  mem cr a = false -> universal_newlines (a ++ b) = a ++ universal_newlines b.
Proof.
  unfold mem. induction a as [|c a IH]; [done|].
  cbn [existsb app universal_newlines]. intros [Hc Ha]%orb_false_iff.
  rewrite Ascii.eqb_sym, Hc. by rewrite IH.
Qed.

Lemma body_lines_sections m :
  body_lines m = section_lines m ++ unsorted_lines m.
Proof.
  unfold body_lines, section_lines. do 2 f_equal.
  apply map_ext. intros mc. apply main_cat_lines_section.
Qed.

Lemma join_head_line l ls rest :
  exists rest', join nl (l :: ls) ++ nl ++ rest = (l ++ nl) ++ rest'.
Proof.
  destruct ls as [|l' ls].
  - exists rest. cbn [join]. by rewrite <- app_assoc.
  - exists (join nl (l' :: ls) ++ nl ++ rest).
    change (join nl (l :: l' :: ls)) with (l ++ nl ++ join nl (l' :: ls)).
    by rewrite <- !app_assoc.
Qed.

(** The text of the file of a log with a section: the header, the opening
    block and the first heading, each on lines of their own, then the
    rest. *)
Lemma render_first_heading m rstate_list x xs :
  section_lines m = x :: xs ->
  exists rest,
    render m rstate_list
    = rl_header m ++ unlines (opening_block (rl_count m) ++ [x]) ++ rest.
Proof.
  intros E. unfold render. rewrite body_lines_sections, E. cbn [app].
  destruct (join_head_line x (xs ++ unsorted_lines m)
              ((IGNORE_START_LINE ++ nl ++ nl ++ str "<hr/>" ++ nl ++ nl)
               ++ concat (map (rstate_section m) rstate_list)
               ++ IGNORE_END_LINE ++ nl)) as [rest Hr].
  exists rest. rewrite Hr. rewrite unlines_app.
  unfold opening_block.
  change (unlines [IGNORE_START_LINE; total_line (rl_count m); []; note_line;
                   IGNORE_END_LINE; []])
    with ((IGNORE_START_LINE ++ nl) ++ (total_line (rl_count m) ++ nl)
          ++ nl ++ (note_line ++ nl) ++ (IGNORE_END_LINE ++ nl) ++ nl).
  change (unlines [x]) with ((x ++ nl) ++ []).
  rewrite app_nil_r, <- !app_assoc. reflexivity.
Qed.

(** The header lines the parser collects from the file of a log with a
    section, whatever the entries of the log are. *)
Lemma header_lines_sections m rstate_list x xs :
  header_kept (rl_header m) = true ->
  section_lines m = x :: xs ->
  header_lines false (file_lines (render m rstate_list))
  = Some (map (fun l => strip l (str " " ++ nl)) (split_lines (rl_header m))
          ++ [[]]).
Proof.
  intros Hk E.
  destruct (render_first_heading m rstate_list x xs E) as [rest ->].
  apply sections_head in E as (mc & Hin & ->).
  pose proof tree_main_lines as Ht. rewrite Forall_forall in Ht.
  pose proof (Ht _ Hin) as Hmc.
  pose proof (plain_of_main_line _ Hmc) as Hp.
  apply andb_true_iff in Hp as [Hnl%negb_true_iff Hcr%negb_true_iff].
  pose proof Hk as [[Hhcr%negb_true_iff Hend]%andb_true_iff Hl]%andb_true_iff.
  unfold file_lines.
  rewrite app_assoc, universal_newlines_app.
  2:{ rewrite mem_app, Hhcr. apply mem_unlines; [done|].
      unfold opening_block.
      repeat (constructor;
              [done || (pose proof (plain_total_line (rl_count m)) as Hc;
                        by apply andb_true_iff in Hc as [_ ?%negb_true_iff])|]).
      constructor. }
  rewrite <- app_assoc, split_lines_app by done.
  rewrite split_lines_unlines.
  2:{ unfold opening_block.
      repeat (constructor;
              [done || (pose proof (plain_total_line (rl_count m)) as Hc;
                        by apply andb_true_iff in Hc as [?%negb_true_iff _])|]).
      constructor. }
  rewrite map_app, <- app_assoc, header_lines_file by done.
  cbn [map app]. by rewrite header_tail_main_heading.
Qed.

(** X19: reading the file of a log again keeps the header and adds one
    paragraph to it.  For a log built from no file by calls of the mutation
    that return, whatever the commits are, whose header is made of complete
    lines that the parser keeps as they are, the header of the log read
    from the rendered file is the header that was written, followed by the
    line that names the range of revisions and the branch; when the log has
    no entry, an empty line comes in between. *)
Theorem header_accumulates branch blender_rev start_sha1 end_sha1 rstate
    rstate_list calls m rstate_list_w branch' blender_rev' start_sha1'
    end_sha1' rstate' rstate_list' :
  add_entries
    (release_log_init None branch blender_rev start_sha1 end_sha1 rstate
       rstate_list) calls = (m, Ok tt) ->
  header_kept (rl_header m) = true ->
  rl_header
    (release_log_init (Some (render m rstate_list_w)) branch' blender_rev'
       start_sha1' end_sha1' rstate' rstate_list')
  = rl_header m
    ++ match calls with
       | [] => nl
       | _ :: _ => []
       end
    ++ changes_paragraph rstate' start_sha1' end_sha1' branch'.
Proof.
  intros Hrun Hk.
  cbn [release_log_init]. rewrite parse_start_header.
  pose proof Hk as [_ Hl]%andb_true_iff.
  destruct calls as [|[[c cat] rst] calls].
  - injection Hrun as <-.
    rewrite header_lines_built
      by (done || exact (built_init branch blender_rev start_sha1 end_sha1
                           rstate rstate_list)).
    rewrite section_lines_no_cats by done.
    rewrite carried_header_paragraph, (app_assoc (rl_header _)). f_equal.
    etrans; [apply join_two_blank|].
    by rewrite unlines_kept, concat_split_lines.
  - assert (Hsec : section_lines m <> []).
    { destruct (add_entries_rstates _ _ _ Hrun) as [_ Hrs].
      destruct (Hrs c cat rst) as (rs & -> & _); [apply elem_of_cons; by left|].
      destruct (add_entries_recorded _ _ _ c cat rs Hrun)
        as (k & s & v & He); [apply elem_of_cons; by left|].
      destruct (add_entries_in_tree _ _ _
                  (built_in_tree _
                     (built_init branch blender_rev start_sha1 end_sha1 rstate
                        rstate_list)) Hrun _ _ _ _ He)
        as (mc & -> & Hb).
      by eapply section_lines_in_tree. }
    destruct (section_lines m) as [|x xs] eqn:E; [done|].
    rewrite (header_lines_sections m _ x xs) by done.
    rewrite carried_header_paragraph. cbn [app]. f_equal.
    etrans; [apply join_blank|].
    by rewrite unlines_kept, concat_split_lines.
Qed.

Lemma header_accumulates_witness :
  rl_header (read_back sample_log3)
  = rl_header sample_log3
    ++ []
    ++ changes_paragraph (Some (str "alpha")) (str "0123456789abcdef")
         (str "fedcba9876543210") (str "main").
Proof.
  apply (header_accumulates (str "main") (str "2.79") (str "0123456789abcdef")
           (str "fedcba9876543210") (Some (str "alpha")) [[]] sample_calls
           sample_log3 [[]] (str "main") (str "2.79") (str "0123456789abcdef")
           (str "fedcba9876543210") (Some (str "alpha")) [[]]).
  - vm_compute. reflexivity.
  - vm_compute. reflexivity.
Defined.

(** ** Headings, and files without any *)

Lemma main_cat_not_sub name :
  in_main_cats name = true -> sub_cats_to_main_cats !! name = None.
Proof.
  unfold in_main_cats. intros H%bool_decide_eq_true.
  cbn [map BUGFIX_CATEGORIES fst] in H.
  repeat (apply elem_of_cons in H as [->|H]; [by vm_compute|]).
  by apply elem_of_nil in H.
Qed.

(** X20: the level of a heading does not matter to the parser: a line
    that starts with two equals signs and a line that starts with three are
    filed by the name they hold alone, since no name of the tree is both a
    main category and a sub-category. *)
Theorem heading_level_irrelevant l : main_heading l = sub_heading l.
Proof.
  unfold main_heading, sub_heading.
  destruct (in_main_cats (strip l (str " ="))) eqn:E.
  - by rewrite (main_cat_not_sub _ E).
  - by destruct (sub_cats_to_main_cats !! strip l (str " =")).
Qed.

Lemma parse_start_no_line rstate start_sha1 end_sha1 branch ls log mc sc ign :
  first_line ign ls = None ->
  p_log (parse_start rstate start_sha1 end_sha1 branch (Parser log mc sc ign) ls)
  = log.
Proof.
  revert ign. induction ls as [|l ls IH]; intros ign; [done|].
  cbn [first_line parse_start p_log p_main_cat p_sub_cat p_ignore].
  destruct (contains l IGNORE_END_LINE); [apply IH|].
  destruct (ign || contains l IGNORE_START_LINE); [apply IH|done].
Qed.

(** X21: a file without a line outside the ignore blocks, an empty file
    for one, is read as no file at all: the log has the header of a new
    log, and nothing else. *)
Theorem blank_file_is_no_file text branch blender_rev start_sha1 end_sha1
    rstate rstate_list :
  first_line false (file_lines text) = None ->
  release_log_init (Some text) branch blender_rev start_sha1 end_sha1 rstate
    rstate_list
  = release_log_init None branch blender_rev start_sha1 end_sha1 rstate
      rstate_list.
Proof. intros H. cbn [release_log_init]. by apply parse_start_no_line. Qed.

Lemma blank_file_is_no_file_witness :
  release_log_init
    (Some (IGNORE_START_LINE ++ nl ++ str "== Game Engine ==" ++ nl
           ++ str "* Fix unreported: hidden" ++ nl))
    (str "main") (str "2.79") (str "0123456789abcdef")
    (str "fedcba9876543210") (Some (str "alpha")) [[]]
  = release_log_init None (str "main") (str "2.79") (str "0123456789abcdef")
      (str "fedcba9876543210") (Some (str "alpha")) [[]].
Proof. apply blank_file_is_no_file. reflexivity. Defined.

Lemma extract_loop_header ls ign msgs :
  forallb not_heading ls = true -> extract_loop ign true msgs ls = msgs.
Proof.
  revert ign. induction ls as [|l ls IH]; intros ign; [done|].
  cbn [forallb extract_loop]. intros [Hl Hls]%andb_true_iff.
  destruct (contains l IGNORE_END_LINE); [by apply IH|].
  destruct (ign || contains l IGNORE_START_LINE); [by apply IH|].
  unfold not_heading in Hl. rewrite Hl. cbn [andb]. by apply IH.
Qed.

(** X22: a file none of whose lines opens like a heading gives the filter
    on messages nothing to exclude, whatever entries it lists: the filter
    reads entries only below a first heading. *)
Theorem extract_needs_heading text :
  forallb not_heading (file_lines text) = true ->
  release_log_extract_messages (Some text) = ∅.
Proof. intros H. cbn [release_log_extract_messages]. by apply extract_loop_header. Qed.

Lemma extract_needs_heading_witness :
  release_log_extract_messages (Some (accept_pretty_file sample_reviewed)) = ∅.
Proof. apply extract_needs_heading. vm_compute. reflexivity. Defined.

(** ** What the serializer writes of the tree *)

Lemma entries_in_groups release_log k s u e :
  e ∈ entries release_log k s u -> e ∈ groups (cat_data release_log k) s.
Proof.
  unfold entries, groups. intros H. apply elem_of_app.
  assert (Hg : forall es : list pystr, e ∈ es -> e ∈ group es).
  { intros [|x es] Hin; [done|]. cbn [group]. apply elem_of_app. by left. }
  destruct u; [right|left]; by apply Hg.
Qed.

Lemma entries_in_main_section release_log mc subs s u e :
  match s with
  | Some x => x ∈ subs
  | None => True
  end ->
  e ∈ entries release_log (Some mc) s u ->
  e ∈ main_section release_log (mc, subs).
Proof.
  intros Hs He. pose proof (entries_in_groups _ _ _ _ _ He) as Hg.
  assert (Hin : e ∈ groups (cat_data release_log (Some mc)) None
                    ++ concat (map (sub_section (cat_data release_log (Some mc)))
                                 subs)).
  { apply elem_of_app. destruct s as [x|]; [right|by left].
    apply list_elem_of_In, in_concat.
    exists (sub_section (cat_data release_log (Some mc)) x).
    split; [by apply in_map, list_elem_of_In|].
    apply list_elem_of_In. unfold sub_section.
    destruct (groups _ (Some x)) as [|g gs] eqn:E;
      [by apply elem_of_nil in Hg|].
    apply elem_of_cons. by right. }
  unfold main_section, section_tail. cbn [fst snd].
  destruct (groups _ None ++ concat _) as [|y ys] eqn:E;
    [by apply elem_of_nil in Hin|].
  apply elem_of_cons. right. rewrite <- E in Hin.
  apply elem_of_app in Hin as [Hin|Hin]; apply elem_of_app; [left|by right].
  destruct (groups _ None); [by apply elem_of_nil in Hin|done].
Qed.

(** X23: the serializer writes every entry that is filed under a place
    of the tree: whatever the log, an entry of a bucket whose main category
    and sub-category are those of the tree, reported or not, is one of the
    lines of the body of the file. *)
Theorem tree_entries_rendered release_log mc s u e :
  (mc, s) ∈ tree_buckets ->
  e ∈ entries release_log (Some mc) s u ->
  e ∈ body_lines release_log.
Proof.
  intros (subs & Hc & Hs)%tree_buckets_inv He.
  unfold body_lines. apply elem_of_app. left.
  apply list_elem_of_In, in_concat.
  exists (main_cat_lines release_log (mc, subs)).
  split; [by apply in_map, list_elem_of_In|].
  rewrite main_cat_lines_section. apply list_elem_of_In.
  by eapply entries_in_main_section.
Qed.

Lemma tree_entries_rendered_witness :
  str "* [alpha] Fix {{BugReport|12345}}: crash on save ({{GitCommit|rB0123456789}})."
  ∈ body_lines sample_log1.
Proof.
  apply (tree_entries_rendered sample_log1 (str "Data / Geometry")
           (Some (str "Mesh Editing")) false).
  - apply (bool_decide_eq_true_1 _). vm_compute. reflexivity.
  - apply (bool_decide_eq_true_1 _). vm_compute. reflexivity.
Defined.
